(** * go-logging: the tag-directed encryption of struct fields

    A shallow embedding of [encrypt.go] (the traversal that encrypts or
    decrypts the tagged string fields of a struct, a pointer to a struct or a
    slice) and of the key setting of [logger.go].

    Go values live in an explicit store: a pointer is an address, a slice is
    a run of cells, and [reflect]'s [Set] through a pointer is a store write.
    The functions are written in a state monad over that store; recursion
    through pointers has no structural measure (a cyclic value makes the Go
    code recurse for ever), so every recursive function takes fuel. *)

From Stdlib Require Import String Ascii ZArith Lia DecimalString.
From stdpp Require Import base option list.

Local Open Scope string_scope.
Local Open Scope list_scope.

(** ** Values *)

Definition addr := nat.
Definition error := string.

Module reflect.
(** The kinds of [reflect.Kind] the traversal distinguishes. *)
Inductive Kind := Invalid | Bool | Int | String | Ptr | Slice | Struct.

Definition eqb (k1 k2 : Kind) : bool :=
  match k1, k2 with
  | Invalid, Invalid | Bool, Bool | Int, Int | String, String
  | Ptr, Ptr | Slice, Slice | Struct, Struct => true
  | _, _ => false
  end.
End reflect.

(** [reflect.StructField]: the name, the struct tag (as its key/value pairs)
    and whether the field is exported. *)
Record StructField := mkField {
  Name : string;
  Tag : list (string * string);
  Exported : bool
}.

(** [StructTag.Get]: the value of the first pair with that key, the empty
    string when there is none. *)
Fixpoint Tag_Get (tag : list (string * string)) (key : string) : string :=
  match tag with
  | [] => ""
  | (k, v) :: tag' => if String.eqb k key then v else Tag_Get tag' key
  end.

(** A Go value. [VNil] is the nil interface, for which [reflect.ValueOf]
    gives the zero [Value]; [VBool] and [VInt] stand for the scalar kinds the
    traversal never looks into. A struct carries the string of its type
    ([Type().String()]) and its fields in declaration order. A slice is the
    run of [len] store cells from [base]. *)
#[warnings="-register-all"]
Inductive value :=
| VNil
| VBool (b : bool)
| VInt (n : Z)
| VString (s : string)
| VPtr (p : option addr)
| VSlice (base : addr) (len : nat)
| VStruct (tname : string) (fields : list (StructField * value)).

Definition Kind (v : value) : reflect.Kind :=
  match v with
  | VNil => reflect.Invalid
  | VBool _ => reflect.Bool
  | VInt _ => reflect.Int
  | VString _ => reflect.String
  | VPtr _ => reflect.Ptr
  | VSlice _ _ => reflect.Slice
  | VStruct _ _ => reflect.Struct
  end.

(** [Value.String] of a string value. *)
Definition Value_String (v : value) : string :=
  match v with VString s => s | _ => "<Value>" end.

(** [Value.Type().String()]. *)
Definition Type_String (v : value) : string :=
  match v with
  | VStruct tname _ => tname
  | VString _ => "string"
  | VBool _ => "bool"
  | VInt _ => "int"
  | VPtr _ => "*"
  | VSlice _ _ => "[]"
  | VNil => ""
  end.

(** ** Store, events and the monad *)

(** What a run does besides computing: it duplicates a value or calls the
    cipher on a string. *)
Inductive event :=
| EvCopy
| EvCipher (s key : string).

Record state := mkState {
  heap : list value;
  calls : list event
}.

(** A computation ends with a value or with a Go panic; [None] is a run that
    did not end within its fuel (or met an address outside the store, which
    no Go value has). *)
Inductive outcome (A : Type) :=
| Val (a : A)
| Panicked (msg : string).
Arguments Val {A} a.
Arguments Panicked {A} msg.

Definition M (A : Type) : Type := state -> option (outcome A * state).

Definition ret {A} (a : A) : M A := fun st => Some (Val a, st).
Definition panic {A} (msg : string) : M A := fun st => Some (Panicked msg, st).
Definition out_of_fuel {A} : M A := fun _ => None.

Definition bind {A B} (m : M A) (k : A -> M B) : M B :=
  fun st =>
    match m st with
    | Some (Val a, st') => k a st'
    | Some (Panicked msg, st') => Some (Panicked msg, st')
    | None => None
    end.

Notation "'let*' x ':=' m 'in' k" := (bind m (fun x => k))
  (at level 10, x pattern, m at level 100, k at level 200).

Definition load (a : addr) : M value :=
  fun st => match heap st !! a with
            | Some v => Some (Val v, st)
            | None => None
            end.

Definition store (a : addr) (v : value) : M unit :=
  fun st => match heap st !! a with
            | Some _ => Some (Val tt, mkState (<[a := v]> (heap st)) (calls st))
            | None => None
            end.

(** A fresh run of cells holding [vs]; its first address. *)
Definition alloc_array (vs : list value) : M addr :=
  fun st => Some (Val (length (heap st)), mkState (heap st ++ vs) (calls st)).

Definition alloc (v : value) : M addr := alloc_array [v].

Definition log (e : event) : M unit :=
  fun st => Some (Val tt, mkState (heap st) (calls st ++ [e])).

Fixpoint mapM_ {A B} (f : A -> M B) (l : list A) : M (list B) :=
  match l with
  | [] => ret []
  | x :: l' => let* y := f x in let* ys := mapM_ f l' in ret (y :: ys)
  end.

(** [Value.Elem] of a pointer: the zero [Value] for nil, the target
    otherwise. *)
Definition Elem (v : value) : M value :=
  match v with
  | VPtr (Some a) => load a
  | VPtr None => ret VNil
  | _ => panic "reflect: call of reflect.Value.Elem on non-pointer Value"
  end.

(** [Value.Type]: panics on the zero [Value]. *)
Definition Value_Type (v : value) : M string :=
  match v with
  | VNil => panic "reflect: call of reflect.Value.Type on zero Value"
  | _ => ret (Type_String v)
  end.

(** [a && b] where [b] reads the store and is evaluated only when [a]
    holds. *)
Definition andM (a : bool) (b : M bool) : M bool :=
  if a then b else ret false.

(** ** Copy *)

(** Modelled from the spec: [Copy] (deepcopy.go is not among the sources).
    Section 4.1: a scalar is copied by value, a nil reference stays nil, a
    non-nil reference is duplicated into a new target of its own, a sequence
    into a new sequence of the same length and order with each element
    duplicated, a record field by field. *)
Fixpoint deepCopy (fuel : nat) (v : value) : M value :=
  match fuel with
  | O => out_of_fuel
  | S fuel' =>
      match v with
      | VNil | VBool _ | VInt _ | VString _ | VPtr None => ret v
      | VPtr (Some a) =>
          let* x := load a in
          let* x' := deepCopy fuel' x in
          let* a' := alloc x' in
          ret (VPtr (Some a'))
      | VSlice base len =>
          let* xs := mapM_ (fun i => let* x := load (base + i) in deepCopy fuel' x)
                           (seq 0 len) in
          let* base' := alloc_array xs in
          ret (VSlice base' len)
      | VStruct tname fields =>
          let* fields' := mapM_ (fun f : StructField * value =>
                                   let* x' := deepCopy fuel' (snd f) in
                                   ret (fst f, x'))
                                fields in
          ret (VStruct tname fields')
      end
  end.

Definition Copy (fuel : nat) (v : value) : M value :=
  let* _ := log EvCopy in deepCopy fuel v.

(** ** The traversal of [encrypt.go] *)

(** The leaf cipher, [Encrypt] or [Decrypt] of aes.go: the text and the
    error it returns for a string and a key. *)
Definition cipher := string -> string -> string * option error.

Definition timeTime : string := "time.Time".

(** [field.Kind() == reflect.Struct && field.Type().String() == "time.Time"] *)
Definition isTime (field : value) : bool :=
  reflect.eqb (Kind field) reflect.Struct && String.eqb (Type_String field) timeTime.

(** [field.Kind() == reflect.Ptr && field.Elem().Kind() == reflect.Struct &&
    field.Elem().Type().String() == "time.Time"] *)
Definition isTimePtr (field : value) : M bool :=
  andM (reflect.eqb (Kind field) reflect.Ptr)
       (let* e := Elem field in ret (isTime e)).

(** [field.Kind() == reflect.Ptr && field.Elem().Kind() == k] *)
Definition isPtrTo (k : reflect.Kind) (field : value) : M bool :=
  andM (reflect.eqb (Kind field) reflect.Ptr)
       (let* e := Elem field in ret (reflect.eqb (Kind e) k)).

(** [output.Field(i)]. *)
Definition Field (output : list (StructField * value)) (i : nat) : M (StructField * value) :=
  match output !! i with
  | Some f => ret f
  | None => panic "reflect: Field index out of range"
  end.

(** A value reached through an unexported field is read-only: [Interface],
    [Set] and [SetString] panic on it. *)
Definition mustBeExported (f : StructField) : M unit :=
  if Exported f then ret tt
  else panic "reflect: value obtained using unexported field".

(** [output.Field(i).Elem().Set(x)]: the write goes through the pointer held
    by the field, into the store. *)
Definition Field_Elem_Set (output : list (StructField * value)) (i : nat) (x : value) : M unit :=
  let* f := Field output i in
  let* _ := mustBeExported (fst f) in
  match snd f with
  | VPtr (Some a) => store a x
  | _ => panic "reflect: call of reflect.Value.Set on zero Value"
  end.

Section Traversal.
(** The leaf transform of the direction and the callee of the recursive
    calls. *)
Variable leaf : cipher.
Variable rec : value -> string -> string -> string -> M (value * option error).
Variables key tagName tagVal : string.

(** The body of [for i := 0; i < v.NumField(); i++] from field [i] on,
    [rest] being the fields of [v] not yet visited. It ends with the error
    of an early [return input, err], or with [output]. *)
Fixpoint fieldsLoop (rest : list (StructField * value)) (i : nat)
         (output : list (StructField * value))
  : M (option error * list (StructField * value)) :=
  match rest with
  | [] => ret (None, output)
  | (sf, field) :: rest' =>
      if isTime field then fieldsLoop rest' (S i) output else
      let* tp := isTimePtr field in
      if tp then fieldsLoop rest' (S i) output else
      let tag := Tag_Get (Tag sf) tagName in
      if String.eqb tag tagVal && reflect.eqb (Kind field) reflect.String then
        let* _ := log (EvCipher (Value_String field) key) in
        let '(encryptedValue, err) := leaf (Value_String field) key in
        match err with
        | Some e => ret (Some e, output)
        | None =>
            let* _ := mustBeExported sf in
            fieldsLoop rest' (S i) (<[i := (sf, VString encryptedValue)]> output)
        end
      else
      let* ps := andM (String.eqb tag tagVal) (isPtrTo reflect.String field) in
      if ps then
        let* e := Elem field in
        let* _ := log (EvCipher (Value_String e) key) in
        let '(encryptedValue, err) := leaf (Value_String e) key in
        match err with
        | Some e => ret (Some e, output)
        | None =>
            let* _ := Field_Elem_Set output i (VString encryptedValue) in
            fieldsLoop rest' (S i) output
        end
      else
      if reflect.eqb (Kind field) reflect.Struct then
        let* _ := mustBeExported sf in
        let* r := rec field key tagName tagVal in
        match snd r with
        | Some e => ret (Some e, output)
        | None => fieldsLoop rest' (S i) (<[i := (sf, fst r)]> output)
        end
      else
      let* pst := isPtrTo reflect.Struct field in
      if pst then
        let* e := Elem field in
        let* _ := mustBeExported sf in
        let* r := rec e key tagName tagVal in
        match snd r with
        | Some e => ret (Some e, output)
        | None =>
            let* _ := Field_Elem_Set output i (fst r) in
            fieldsLoop rest' (S i) output
        end
      else fieldsLoop rest' (S i) output
  end.

(** The body shared by [StructEncryptTag], [StructDecryptTag] and
    [StructEncryptTagInterface] after the test of the key; [Copy] gets the
    fuel of the recursive calls. *)
Definition structBody (fuel : nat) (input : value) : M (value * option error) :=
  let* inputCopy := Copy fuel input in
  let v := inputCopy in
  let* _ := Value_Type v in
  let* p := (if reflect.eqb (Kind v) reflect.Ptr
             then let* e := Elem v in ret (e, true)
             else ret (v, false)) in
  let '(v, isPtr) := p in
  let* _ := Value_Type v in
  match v with
  | VStruct t fields =>
      let* r := fieldsLoop fields 0 fields in
      match fst r with
      | Some e => ret (input, Some e)
      | None =>
          if isPtr : bool then
            let* a := alloc (VStruct t (snd r)) in
            ret (VPtr (Some a), None)
          else ret (VStruct t (snd r), None)
      end
  | _ => ret (input, Some "input is not a struct")
  end.

(** The loop of [StructSliceEncryptTag] over [v.Index(i)], from element
    [i] on, [n] elements being left. [structRec] is the struct traversal
    it calls on an element. *)
Fixpoint sliceLoop (base : addr) (i n : nat) : M (option error) :=
  match n with
  | O => ret None
  | S n' =>
      let* item := load (base + i) in
      if reflect.eqb (Kind item) reflect.Struct then
        let* r := rec item key tagName tagVal in
        match snd r with
        | Some e => ret (Some e)
        | None => let* _ := store (base + i) (fst r) in sliceLoop base (S i) n'
        end
      else
      let* pst := isPtrTo reflect.Struct item in
      if pst then
        let* r := rec item key tagName tagVal in
        match snd r with
        | Some e => ret (Some e)
        | None => let* _ := store (base + i) (fst r) in sliceLoop base (S i) n'
        end
      else sliceLoop base (S i) n'
  end.

(** The body shared by the slice functions after the test of the key. *)
Definition sliceBody (fuel : nat) (input : value) : M (value * option error) :=
  let* inputCopy := Copy fuel input in
  let v := inputCopy in
  match v with
  | VSlice base len =>
      let* r := sliceLoop base 0 len in
      match r with
      | Some e => ret (input, Some e)
      | None => ret (v, None)
      end
  | _ => ret (input, Some "input is not a slice")
  end.
End Traversal.

Section Dispatch.
(** The struct and the slice function [InterfaceEncryptTag] and its
    siblings hand the input to. *)
Variable structF sliceF : nat -> value -> string -> string -> string -> M (value * option error).

(** [if result, err := f(v.Interface(), ...); err != nil { return input, err }
    else { return result, nil }] *)
Definition orInput (input : value) (m : M (value * option error)) : M (value * option error) :=
  let* r := m in
  match snd r with
  | Some e => ret (input, Some e)
  | None => ret (fst r, None)
  end.

(** The body shared by [InterfaceEncryptTag], [InterfaceDecryptTag] and
    [InterfaceEncryptTagInterface]. *)
Definition interfaceBody (fuel : nat) (input : value) (key tagName tagVal : string)
  : M (value * option error) :=
  if String.eqb key "" then ret (input, None) else
  let v := input in
  if reflect.eqb (Kind v) reflect.Struct then
    orInput input (structF fuel v key tagName tagVal)
  else
  let* pst := isPtrTo reflect.Struct v in
  if pst then orInput input (structF fuel v key tagName tagVal)
  else
  if reflect.eqb (Kind v) reflect.Slice then
    orInput input (sliceF fuel v key tagName tagVal)
  else ret (input, None).
End Dispatch.

Section EntryPoints.
(** [Encrypt] and [Decrypt] of aes.go. *)
Variables Encrypt Decrypt : cipher.

Fixpoint StructEncryptTag (fuel : nat) (input : value) (key tagName tagVal : string)
  : M (value * option error) :=
  if String.eqb key "" then ret (input, None) else
  match fuel with
  | O => out_of_fuel
  | S fuel' => structBody Encrypt (StructEncryptTag fuel') key tagName tagVal fuel' input
  end.

Definition StructSliceEncryptTag (fuel : nat) (input : value) (key tagName tagVal : string)
  : M (value * option error) :=
  if String.eqb key "" then ret (input, None) else
  sliceBody (StructEncryptTag fuel) key tagName tagVal fuel input.

Definition InterfaceEncryptTag := interfaceBody StructEncryptTag StructSliceEncryptTag.

Fixpoint StructDecryptTag (fuel : nat) (input : value) (key tagName tagVal : string)
  : M (value * option error) :=
  if String.eqb key "" then ret (input, None) else
  match fuel with
  | O => out_of_fuel
  | S fuel' => structBody Decrypt (StructDecryptTag fuel') key tagName tagVal fuel' input
  end.

Definition StructSliceDecryptTag (fuel : nat) (input : value) (key tagName tagVal : string)
  : M (value * option error) :=
  if String.eqb key "" then ret (input, None) else
  sliceBody (StructDecryptTag fuel) key tagName tagVal fuel input.

Definition InterfaceDecryptTag := interfaceBody StructDecryptTag StructSliceDecryptTag.

(** The functions on [interface{}]. Their results are not asserted to a
    type [T]; the assertions [.(T)] of the generic functions are on a
    result of the input's own type and are not modelled. *)
Fixpoint StructEncryptTagInterface (fuel : nat) (input : value) (key tagName tagVal : string)
  : M (value * option error) :=
  if String.eqb key "" then ret (input, None) else
  match fuel with
  | O => out_of_fuel
  | S fuel' =>
      structBody Encrypt (StructEncryptTagInterface fuel') key tagName tagVal fuel' input
  end.

(** It calls [StructEncryptTag], not [StructEncryptTagInterface], on the
    elements. *)
Definition StructSliceEncryptTagInterface (fuel : nat) (input : value)
           (key tagName tagVal : string) : M (value * option error) :=
  if String.eqb key "" then ret (input, None) else
  sliceBody (StructEncryptTag fuel) key tagName tagVal fuel input.

Definition InterfaceEncryptTagInterface :=
  interfaceBody StructEncryptTagInterface StructSliceEncryptTagInterface.
End EntryPoints.

(** ** The key of [logger.go] *)

(** [keyEncrypt *string]: nil until it is set. *)
Definition keyEncrypt_t := option string.

(** [if keyEncrypt == nil { keyEncrypt = &key }] *)
Definition SetKeyEncrypt (key : string) (keyEncrypt : keyEncrypt_t) : keyEncrypt_t :=
  match keyEncrypt with
  | None => Some key
  | Some _ => keyEncrypt
  end.

(** ** Snapshots: what a value is, whatever the addresses *)

(** The value a Go value unfolds to when every pointer is followed and every
    slice read: what a deep comparison of two values compares. *)
#[warnings="-register-all"]
Inductive tree :=
| TNil
| TBool (b : bool)
| TInt (n : Z)
| TString (s : string)
| TNilPtr
| TRef (t : tree)
| TSeq (ts : list tree)
| TRec (tname : string) (fields : list (StructField * tree)).

(** The snapshot of [v] in the store [h], if [v] is at most [n] levels
    deep. *)
Fixpoint snapshot (n : nat) (h : list value) (v : value) : option tree :=
  match n with
  | O => None
  | S m =>
      match v with
      | VNil => Some TNil
      | VBool b => Some (TBool b)
      | VInt z => Some (TInt z)
      | VString s => Some (TString s)
      | VPtr None => Some TNilPtr
      | VPtr (Some a) => x ← h !! a; t ← snapshot m h x; Some (TRef t)
      | VSlice base len =>
          ts ← mapM (fun i => x ← h !! (base + i); snapshot m h x) (seq 0 len);
          Some (TSeq ts)
      | VStruct tname fields =>
          fs ← mapM (fun f : StructField * value =>
                       t ← snapshot m h (snd f); Some (fst f, t)) fields;
          Some (TRec tname fs)
      end
  end.

(** ** The traversal on snapshots *)

Definition msgTypeOnZero : string := "reflect: call of reflect.Value.Type on zero Value".
Definition msgUnexported : string := "reflect: value obtained using unexported field".
Definition errNotStruct : error := "input is not a struct".
Definition errNotSlice : error := "input is not a slice".

Definition tIsTime (t : tree) : bool :=
  match t with
  | TRec tname _ => String.eqb tname timeTime
  | _ => false
  end.

Definition tIsTimePtr (t : tree) : bool :=
  match t with
  | TRef x => tIsTime x
  | _ => false
  end.

(** A struct, or a non-nil pointer to one. *)
Definition tIsStruct (t : tree) : bool :=
  match t with TRec _ _ => true | _ => false end.
Definition tIsStructPtr (t : tree) : bool :=
  match t with TRef (TRec _ _) => true | _ => false end.

Section PureTraversal.
Variable leaf : cipher.
Variable prec : tree -> list event * outcome (tree * option error).
Variables key tagName tagVal : string.

(** One turn of the loop over the fields: the cipher calls it makes, and
    the error it returns with or the new value of the field. *)
Definition pField (sf : StructField) (x : tree) : list event * outcome (option error * tree) :=
  if tIsTime x then ([], Val (None, x)) else
  if tIsTimePtr x then ([], Val (None, x)) else
  let tagged := String.eqb (Tag_Get (Tag sf) tagName) tagVal in
  match x with
  | TString s =>
      if tagged then
        ([EvCipher s key],
         match snd (leaf s key) with
         | Some e => Val (Some e, x)
         | None => if Exported sf then Val (None, TString (fst (leaf s key)))
                   else Panicked msgUnexported
         end)
      else ([], Val (None, x))
  | TRef (TString s) =>
      if tagged then
        ([EvCipher s key],
         match snd (leaf s key) with
         | Some e => Val (Some e, x)
         | None => if Exported sf then Val (None, TRef (TString (fst (leaf s key))))
                   else Panicked msgUnexported
         end)
      else ([], Val (None, x))
  | TRec _ _ =>
      if Exported sf then
        (fst (prec x),
         match snd (prec x) with
         | Val (x', None) => Val (None, x')
         | Val (_, Some e) => Val (Some e, x)
         | Panicked msg => Panicked msg
         end)
      else ([], Panicked msgUnexported)
  | TRef (TRec _ _ as y) =>
      if Exported sf then
        (fst (prec y),
         match snd (prec y) with
         | Val (y', None) => Val (None, TRef y')
         | Val (_, Some e) => Val (Some e, x)
         | Panicked msg => Panicked msg
         end)
      else ([], Panicked msgUnexported)
  | _ => ([], Val (None, x))
  end.

(** The loop over the fields: the error of the early return, or the new
    fields. *)
Fixpoint pFields (fs : list (StructField * tree))
  : list event * outcome (option error * list (StructField * tree)) :=
  match fs with
  | [] => ([], Val (None, []))
  | (sf, x) :: rest =>
      match snd (pField sf x) with
      | Val (None, x') =>
          (fst (pField sf x) ++ fst (pFields rest),
           match snd (pFields rest) with
           | Val (None, rest') => Val (None, (sf, x') :: rest')
           | Val (Some e, _) => Val (Some e, [])
           | Panicked msg => Panicked msg
           end)
      | Val (Some e, _) => (fst (pField sf x), Val (Some e, []))
      | Panicked msg => (fst (pField sf x), Panicked msg)
      end
  end.

(** One turn of the loop over the elements of a slice. *)
Definition pItem (x : tree) : list event * outcome (option error * tree) :=
  if tIsStruct x || tIsStructPtr x then
    (fst (prec x),
     match snd (prec x) with
     | Val (x', None) => Val (None, x')
     | Val (_, Some e) => Val (Some e, x)
     | Panicked msg => Panicked msg
     end)
  else ([], Val (None, x)).

Fixpoint pItems (ts : list tree) : list event * outcome (option error * list tree) :=
  match ts with
  | [] => ([], Val (None, []))
  | x :: rest =>
      match snd (pItem x) with
      | Val (None, x') =>
          (fst (pItem x) ++ fst (pItems rest),
           match snd (pItems rest) with
           | Val (None, rest') => Val (None, x' :: rest')
           | Val (Some e, _) => Val (Some e, [])
           | Panicked msg => Panicked msg
           end)
      | Val (Some e, _) => (fst (pItem x), Val (Some e, []))
      | Panicked msg => (fst (pItem x), Panicked msg)
      end
  end.
End PureTraversal.

(** The struct traversal on a snapshot: the events of the run and what it
    returns (for a non-empty key). *)
Fixpoint pStruct (leaf : cipher) (key tagName tagVal : string) (t : tree)
  : list event * outcome (tree * option error) :=
  let fields fs := pFields leaf (pStruct leaf key tagName tagVal) key tagName tagVal fs in
  match t with
  | TNil | TNilPtr | TRef TNil => ([EvCopy], Panicked msgTypeOnZero)
  | TRec tname fs =>
      (EvCopy :: fst (fields fs),
       match snd (fields fs) with
       | Val (None, fs') => Val (TRec tname fs', None)
       | Val (Some e, _) => Val (t, Some e)
       | Panicked msg => Panicked msg
       end)
  | TRef (TRec tname fs) =>
      (EvCopy :: fst (fields fs),
       match snd (fields fs) with
       | Val (None, fs') => Val (TRef (TRec tname fs'), None)
       | Val (Some e, _) => Val (t, Some e)
       | Panicked msg => Panicked msg
       end)
  | _ => ([EvCopy], Val (t, Some errNotStruct))
  end.

(** The slice traversal on a snapshot. *)
Definition pSlice (leaf : cipher) (key tagName tagVal : string) (t : tree)
  : list event * outcome (tree * option error) :=
  match t with
  | TSeq ts =>
      let r := pItems (pStruct leaf key tagName tagVal) ts in
      (EvCopy :: fst r,
       match snd r with
       | Val (None, ts') => Val (TSeq ts', None)
       | Val (Some e, _) => Val (t, Some e)
       | Panicked msg => Panicked msg
       end)
  | _ => ([EvCopy], Val (t, Some errNotSlice))
  end.

(** The dispatch of [InterfaceEncryptTag] on a snapshot. *)
Definition pInterface (leaf : cipher) (key tagName tagVal : string) (t : tree)
  : list event * outcome (tree * option error) :=
  if tIsStruct t || tIsStructPtr t then pStruct leaf key tagName tagVal t
  else match t with
       | TSeq _ => pSlice leaf key tagName tagVal t
       | _ => ([], Val (t, None))
       end.

Definition tKind (t : tree) : reflect.Kind :=
  match t with
  | TNil => reflect.Invalid
  | TBool _ => reflect.Bool
  | TInt _ => reflect.Int
  | TString _ => reflect.String
  | TNilPtr | TRef _ => reflect.Ptr
  | TSeq _ => reflect.Slice
  | TRec _ _ => reflect.Struct
  end.

(** [field.Kind() == reflect.Ptr && field.Elem().Kind() == k] on a snapshot. *)
Definition tPtrTo (k : reflect.Kind) (t : tree) : bool :=
  match t with
  | TRef y => reflect.eqb (tKind y) k
  | TNilPtr => reflect.eqb reflect.Invalid k
  | _ => false
  end.

(** The number of nodes of a snapshot. *)
Fixpoint tsize (t : tree) : nat :=
  match t with
  | TRef y => S (tsize y)
  | TSeq ts => S (list_sum (map tsize ts))
  | TRec _ fs => S (list_sum (map (fun f : StructField * tree => tsize (snd f)) fs))
  | _ => 1
  end.

(** The two directions and the three entry points of each. *)
Inductive direction := Encryption | Decryption.
Inductive entry := OfStruct | OfSlice | OfInterface.

Definition leafOf (Encrypt Decrypt : cipher) (dir : direction) : cipher :=
  match dir with Encryption => Encrypt | Decryption => Decrypt end.

Definition Transform (Encrypt Decrypt : cipher) (dir : direction) (e : entry)
  : nat -> value -> string -> string -> string -> M (value * option error) :=
  match dir, e with
  | Encryption, OfStruct => StructEncryptTag Encrypt
  | Encryption, OfSlice => StructSliceEncryptTag Encrypt
  | Encryption, OfInterface => InterfaceEncryptTag Encrypt
  | Decryption, OfStruct => StructDecryptTag Decrypt
  | Decryption, OfSlice => StructSliceDecryptTag Decrypt
  | Decryption, OfInterface => InterfaceDecryptTag Decrypt
  end.

Definition pTransform (leaf : cipher) (e : entry)
  : string -> string -> string -> tree -> list event * outcome (tree * option error) :=
  match e with
  | OfStruct => pStruct leaf
  | OfSlice => pSlice leaf
  | OfInterface => pInterface leaf
  end.

(** The calls of [SetKeyEncrypt] with [keys], one after the other. *)
Definition SetKeyEncrypt_calls (keys : list string) (keyEncrypt : keyEncrypt_t) : keyEncrypt_t :=
  fold_left (fun ke key => SetKeyEncrypt key ke) keys keyEncrypt.

(** ** Representation: a value of the store and its snapshot *)

(** [repr P h n v t]: in the store [h] the value [v] unfolds, within [n]
    levels, to [t], and every cell read on the way has its address in [P]. *)
#[warnings="-register-all"]
Inductive repr (P : addr -> Prop) (h : list value) : nat -> value -> tree -> Prop :=
| repr_nil n : repr P h (S n) VNil TNil
| repr_bool n b : repr P h (S n) (VBool b) (TBool b)
| repr_int n z : repr P h (S n) (VInt z) (TInt z)
| repr_string n s : repr P h (S n) (VString s) (TString s)
| repr_nilptr n : repr P h (S n) (VPtr None) TNilPtr
| repr_ref n a x t :
    P a -> h !! a = Some x -> repr P h n x t ->
    repr P h (S n) (VPtr (Some a)) (TRef t)
| repr_seq n base len xs ts :
    length xs = len ->
    (forall i x, xs !! i = Some x -> P (base + i) /\ h !! (base + i) = Some x) ->
    Forall2 (repr P h n) xs ts ->
    repr P h (S n) (VSlice base len) (TSeq ts)
| repr_rec n tname fs fts :
    Forall2 (fun f ft => fst f = fst ft /\ repr P h n (snd f) (snd ft)) fs fts ->
    repr P h (S n) (VStruct tname fs) (TRec tname fts).

(** A field and its snapshot. *)
Definition frepr (P : addr -> Prop) (h : list value) (n : nat)
           (f : StructField * value) (ft : StructField * tree) : Prop :=
  fst f = fst ft /\ repr P h n (snd f) (snd ft).

(** Values laid out one after the other in the cells from [L] up to [U],
    each within cells of its own. *)
Inductive sep {A B : Type} (R : (addr -> Prop) -> A -> B -> Prop)
  : addr -> addr -> list A -> list B -> Prop :=
| sep_nil L U : L <= U -> sep R L U [] []
| sep_cons L mid U x y xs ys :
    L <= mid -> R (fun a => L <= a < mid) x y -> sep R mid U xs ys ->
    sep R L U (x :: xs) (y :: ys).

(** What [deepCopy] with fuel [f] does on a value at most [f] levels deep:
    it only adds cells, and the copy lies in the cells added. *)
Definition copy_ok (f : nat) : Prop :=
  forall n P h tr v t,
    repr P h n v t -> n <= f ->
    exists new v',
      deepCopy f v (mkState h tr) = Some (Val v', mkState (h ++ new) tr) /\
      repr (fun a => length h <= a < length h + length new) (h ++ new) n v' t.

(** ** A run and the traversal of the snapshot *)

(** What a call of the struct traversal returned against the traversal of
    the snapshot: the same error with the input itself, or a value of cells
    from [lo] on whose snapshot is the traversal's, or the same panic. *)

Definition sim_result (lo : addr) (h' : list value) (n : nat) (input : value)
           (po : outcome (tree * option error)) (o : outcome (value * option error)) : Prop :=
  match po, o with
  | Val (t', None), Val (out, None) => repr (fun a => lo <= a) h' n out t'
  | Val (_, Some e), Val (out, Some e') => e = e' /\ out = input
  | Panicked m, Panicked m' => m = m'
  | _, _ => False
  end.

(** [structF] does on every value less than [d] levels deep what the
    traversal does on its snapshot, and only adds cells to the store. *)
Definition struct_sim (leaf : cipher) (key tagName tagVal : string)
           (structF : value -> string -> string -> string -> M (value * option error))
           (d : nat) : Prop :=
  forall n P h tr input t,
    repr P h n input t -> n < d ->
    exists new o,
      structF input key tagName tagVal (mkState h tr)
      = Some (o, mkState (h ++ new) (tr ++ fst (pStruct leaf key tagName tagVal t))) /\
      sim_result (length h) (h ++ new) n input (snd (pStruct leaf key tagName tagVal t)) o.

(** What a run returned against what the traversal of the snapshot gives:
    the same error with the input itself, or a value whose snapshot is the
    traversal's, or the same panic. *)
Definition agrees (h' : list value) (n : nat) (input : value)
           (po : outcome (tree * option error)) (o : outcome (value * option error)) : Prop :=
  match po, o with
  | Val (t', None), Val (out, None) => snapshot n h' out = Some t'
  | Val (_, Some e), Val (out, Some e') => e = e' /\ out = input
  | Panicked m, Panicked m' => m = m'
  | _, _ => False
  end.

(** A failure of the cipher among the events of the traversal is the error
    the traversal returns. *)
Definition reported (leaf : cipher) (key tagName tagVal : string) (t : tree) : Prop :=
  forall s er,
    In (EvCipher s key) (fst (pStruct leaf key tagName tagVal t)) ->
    snd (leaf s key) = Some er ->
    exists t', snd (pStruct leaf key tagName tagVal t) = Val (t', Some er).

(** The decrypting traversal undoes the encrypting one. *)
Definition roundtrip (Encrypt Decrypt : cipher) (key tagName tagVal : string) (t : tree) : Prop :=
  forall t',
    snd (pStruct Encrypt key tagName tagVal t) = Val (t', None) ->
    snd (pStruct Decrypt key tagName tagVal t') = Val (t, None).

(** The loop over the fields with a field it passes over put back. *)
Definition putBack (k : nat) (f : StructField * tree)
           (o : outcome (option error * list (StructField * tree)))
  : outcome (option error * list (StructField * tree)) :=
  match o with
  | Val (None, fs') => Val (None, take k fs' ++ f :: drop k fs')
  | Val (Some e, _) => Val (Some e, [])
  | Panicked msg => Panicked msg
  end.

(** The result of a run against the traversal of the record without one
    field: the field is put back as it was at its place [k]. *)
Definition agreesPutBack (k : nat) (f : StructField * tree) (h' : list value) (n : nat)
           (input : value) (po : outcome (tree * option error))
           (o : outcome (value * option error)) : Prop :=
  match po, o with
  | Val (TRec tname fs', None), Val (out, None) =>
      snapshot n h' out = Some (TRec tname (take k fs' ++ f :: drop k fs'))
  | Val (_, Some e), Val (out, Some e') => e = e' /\ out = input
  | Panicked m, Panicked m' => m = m'
  | _, _ => False
  end.

(** A root that, once a root pointer is followed, is neither a struct nor a
    slice (and is not nil). *)
Definition plainRoot (t : tree) : bool :=
  match t with
  | TBool _ | TInt _ | TString _ => true
  | TRef (TBool _ | TInt _ | TString _ | TNilPtr | TRef _) => true
  | _ => false
  end.

(** What the entry point returns with the input for such a root, and its
    events. *)
Definition plainRootError (e : entry) : option error :=
  match e with
  | OfStruct => Some errNotStruct
  | OfSlice => Some errNotSlice
  | OfInterface => None
  end.
Definition plainRootEvents (e : entry) : list event :=
  match e with
  | OfInterface => []
  | _ => [EvCopy]
  end.

(** A field of type [time.Time] or [*time.Time] as its snapshot shows it: a
    struct of that type, a pointer to one, or a nil pointer (a nil pointer
    carries no type here). *)
Definition tTimeTyped (x : tree) : bool :=
  tIsTime x || tIsTimePtr x || match x with TNilPtr => true | _ => false end.

(** The elements [StructSliceEncryptTag] hands to the struct traversal. *)
Definition tIsStructItem (x : tree) : bool := tIsStruct x || tIsStructPtr x.

(** ** A cipher and values to run the functions on *)

(** A cipher that marks a text and fails on the text ["bad"]. *)
Definition demoEncrypt : cipher :=
  fun s _ => if String.eqb s "bad" then ("", Some "cipher: cannot encrypt")
             else (String "#"%char s, None).
Definition demoDecrypt : cipher :=
  fun s _ => match s with
             | String "#"%char r => (r, None)
             | _ => ("", Some "cipher: not a ciphertext")
             end.

Definition demoField (name : string) (tagged : bool) : StructField :=
  mkField name (if tagged then [("encrypt", "true")] else []) true.

(** The store: a string, a [time.Time], and the three cells of a slice. *)
Definition demoHeap : list value :=
  [ VString "secret";
    VStruct "time.Time" [(mkField "wall" [] false, VInt 5)];
    VStruct "main.Item" [(demoField "Code" true, VString "c1")];
    VInt 7;
    VPtr (Some 0) ].

Definition demoUser : value :=
  VStruct "main.User"
    [ (demoField "Name" true, VString "alice");
      (demoField "Age" false, VInt 30);
      (demoField "Token" true, VPtr (Some 0));
      (demoField "At" true, VPtr (Some 1));
      (demoField "Nick" true, VPtr None) ].

(** Its snapshot: three fields, then a tagged [*time.Time] and a tagged nil
    pointer. *)
Definition demoFront : list (StructField * tree) :=
  [ (demoField "Name" true, TString "alice");
    (demoField "Age" false, TInt 30);
    (demoField "Token" true, TRef (TString "secret")) ].

Definition demoTime : tree :=
  TRef (TRec "time.Time" [(mkField "wall" [] false, TInt 5)]).

Definition demoUserTree : tree :=
  TRec "main.User"
    (demoFront ++ [(demoField "At" true, demoTime); (demoField "Nick" true, TNilPtr)]).





Definition demoState : state := mkState demoHeap [].

(** What [StructEncryptTag] returns for [demoUser] from [demoState], and
    the state it leaves. *)
Definition demoEncryptedUser : value :=
  VStruct "main.User"
    [ (demoField "Name" true, VString "#alice");
      (demoField "Age" false, VInt 30);
      (demoField "Token" true, VPtr (Some 5));
      (demoField "At" true, VPtr (Some 6));
      (demoField "Nick" true, VPtr None) ].

Definition demoEncryptedState : state :=
  mkState (demoHeap ++ [ VString "#secret";
                         VStruct "time.Time" [(mkField "wall" [] false, VInt 5)] ])
          [EvCopy; EvCipher "alice" "k"; EvCipher "secret" "k"].

(** ** What the struct traversal does, read off its loop *)

(** [t.Field(i).Tag.Get(tagName) == tagVal] *)
Definition hasTag (tagName tagVal : string) (sf : StructField) : bool :=
  String.eqb (Tag_Get (Tag sf) tagName) tagVal.

(** A field with [f s] for every string [s] the loop hands to the cipher on
    its account: its own string if it is tagged and of kind string or
    pointer to string, those of the fields of a struct or of the target of a
    pointer to a struct, and none for [time.Time], [*time.Time] and every
    other kind. *)
Fixpoint replaceField (f : string -> string) (tagName tagVal : string) (tagged : bool)
         (x : tree) {struct x} : tree :=
  let fields :=
    map (fun g : StructField * tree =>
           (fst g, replaceField f tagName tagVal (hasTag tagName tagVal (fst g)) (snd g))) in
  if tIsTime x then x else
  if tIsTimePtr x then x else
  match x with
  | TString s => if tagged then TString (f s) else x
  | TRef (TString s) => if tagged then TRef (TString (f s)) else x
  | TRec tname fs => TRec tname (fields fs)
  | TRef (TRec tname fs) => TRef (TRec tname (fields fs))
  | _ => x
  end.

Definition replaceFields (f : string -> string) (tagName tagVal : string)
           (fs : list (StructField * tree)) : list (StructField * tree) :=
  map (fun g : StructField * tree =>
         (fst g, replaceField f tagName tagVal (hasTag tagName tagVal (fst g)) (snd g))) fs.

(** The root of a traversal is a struct or a pointer to one, and is not
    tested for [time.Time]. *)
Definition replaceTagged (f : string -> string) (tagName tagVal : string) (t : tree) : tree :=
  match t with
  | TRec tname fs => TRec tname (replaceFields f tagName tagVal fs)
  | TRef (TRec tname fs) => TRef (TRec tname (replaceFields f tagName tagVal fs))
  | _ => t
  end.

(** Those strings, in the order of the loop. *)
Fixpoint fieldStrings (tagName tagVal : string) (tagged : bool) (x : tree) {struct x}
  : list string :=
  let fields :=
    flat_map (fun g : StructField * tree =>
                fieldStrings tagName tagVal (hasTag tagName tagVal (fst g)) (snd g)) in
  if tIsTime x then [] else
  if tIsTimePtr x then [] else
  match x with
  | TString s => if tagged then [s] else []
  | TRef (TString s) => if tagged then [s] else []
  | TRec _ fs => fields fs
  | TRef (TRec _ fs) => fields fs
  | _ => []
  end.

Definition fieldsStrings (tagName tagVal : string) (fs : list (StructField * tree))
  : list string :=
  flat_map (fun g : StructField * tree =>
              fieldStrings tagName tagVal (hasTag tagName tagVal (fst g)) (snd g)) fs.

Definition taggedStrings (tagName tagVal : string) (t : tree) : list string :=
  match t with
  | TRec _ fs => fieldsStrings tagName tagVal fs
  | TRef (TRec _ fs) => fieldsStrings tagName tagVal fs
  | _ => []
  end.

(** Every field the loop writes to or calls [Interface] on is exported: the
    tagged strings and pointers to strings, the structs and the non-nil
    pointers to structs, [time.Time] apart, all the way down. *)
Fixpoint fieldSettable (tagName tagVal : string) (tagged exported : bool) (x : tree)
         {struct x} : bool :=
  let fields :=
    forallb (fun g : StructField * tree =>
               fieldSettable tagName tagVal (hasTag tagName tagVal (fst g))
                             (Exported (fst g)) (snd g)) in
  if tIsTime x then true else
  if tIsTimePtr x then true else
  match x with
  | TString s => if tagged then exported else true
  | TRef (TString s) => if tagged then exported else true
  | TRec _ fs => exported && fields fs
  | TRef (TRec _ fs) => exported && fields fs
  | _ => true
  end.

Definition fieldsSettable (tagName tagVal : string) (fs : list (StructField * tree)) : bool :=
  forallb (fun g : StructField * tree =>
             fieldSettable tagName tagVal (hasTag tagName tagVal (fst g))
                           (Exported (fst g)) (snd g)) fs.

Definition settable (tagName tagVal : string) (t : tree) : bool :=
  match t with
  | TRec _ fs => fieldsSettable tagName tagVal fs
  | TRef (TRec _ fs) => fieldsSettable tagName tagVal fs
  | _ => false
  end.

(** The calls of the cipher among the events of a run: the string and the
    key of each. *)
Fixpoint cipherCalls (evs : list event) : list (string * string) :=
  match evs with
  | [] => []
  | EvCipher s key :: evs' => (s, key) :: cipherCalls evs'
  | EvCopy :: evs' => cipherCalls evs'
  end.

(** What the traversal of [t] with the cipher [leaf] comes to: it succeeds
    exactly when [t] is a struct or a pointer to one, the fields it touches
    are exported and the cipher fails on none of the tagged strings, and
    then returns [t] with each replaced by its image; its calls of the
    cipher are on the tagged strings, in order, up to where it stops. *)
Definition traversal_spec (leaf : cipher) (key tagName tagVal : string) (t : tree) : Prop :=
  (forall t',
      snd (pStruct leaf key tagName tagVal t) = Val (t', None) <->
      settable tagName tagVal t = true /\
      Forall (fun s => snd (leaf s key) = None) (taggedStrings tagName tagVal t) /\
      t' = replaceTagged (fun s => fst (leaf s key)) tagName tagVal t) /\
  (exists rest,
      map (fun s => (s, key)) (taggedStrings tagName tagVal t)
      = cipherCalls (fst (pStruct leaf key tagName tagVal t)) ++ rest /\
      (forall t', snd (pStruct leaf key tagName tagVal t) = Val (t', None) -> rest = [])).

(** The same for the elements of a slice, those that are not structs or
    pointers to structs being kept, and for each entry point. *)
Definition replaceItems (f : string -> string) (tagName tagVal : string) (t : tree) : tree :=
  match t with
  | TSeq ts => TSeq (map (replaceTagged f tagName tagVal) ts)
  | _ => t
  end.

Definition itemsStrings (tagName tagVal : string) (t : tree) : list string :=
  match t with
  | TSeq ts => flat_map (taggedStrings tagName tagVal) ts
  | _ => []
  end.

Definition itemsSettable (tagName tagVal : string) (t : tree) : bool :=
  match t with
  | TSeq ts => forallb (fun x => negb (tIsStructItem x) || settable tagName tagVal x) ts
  | _ => false
  end.

Definition entryReplace (e : entry) (f : string -> string) (tagName tagVal : string)
           (t : tree) : tree :=
  match e with
  | OfStruct => replaceTagged f tagName tagVal t
  | OfSlice => replaceItems f tagName tagVal t
  | OfInterface =>
      if tIsStructItem t then replaceTagged f tagName tagVal t
      else replaceItems f tagName tagVal t
  end.

Definition entryStrings (e : entry) (tagName tagVal : string) (t : tree) : list string :=
  match e with
  | OfStruct => taggedStrings tagName tagVal t
  | OfSlice => itemsStrings tagName tagVal t
  | OfInterface =>
      if tIsStructItem t then taggedStrings tagName tagVal t
      else itemsStrings tagName tagVal t
  end.

(** The roots and the fields an entry point succeeds on. *)
Definition entrySettable (e : entry) (tagName tagVal : string) (t : tree) : bool :=
  match e with
  | OfStruct => settable tagName tagVal t
  | OfSlice => itemsSettable tagName tagVal t
  | OfInterface =>
      if tIsStructItem t then settable tagName tagVal t
      else match t with
           | TSeq _ => itemsSettable tagName tagVal t
           | _ => true
           end
  end.

Definition transform_spec (leaf : cipher) (key tagName tagVal : string) (e : entry)
           (t : tree) : Prop :=
  (forall t',
      snd (pTransform leaf e key tagName tagVal t) = Val (t', None) <->
      entrySettable e tagName tagVal t = true /\
      Forall (fun s => snd (leaf s key) = None) (entryStrings e tagName tagVal t) /\
      t' = entryReplace e (fun s => fst (leaf s key)) tagName tagVal t) /\
  (exists rest,
      map (fun s => (s, key)) (entryStrings e tagName tagVal t)
      = cipherCalls (fst (pTransform leaf e key tagName tagVal t)) ++ rest /\
      (forall t', snd (pTransform leaf e key tagName tagVal t) = Val (t', None) -> rest = [])).

(** The same for a field, for the loop over the fields and for the loop
    over the elements of a slice. *)
Definition field_spec (leaf : cipher) (key tagName tagVal : string)
           (sf : StructField) (x : tree) : Prop :=
  (forall x',
      snd (pField leaf (pStruct leaf key tagName tagVal) key tagName tagVal sf x)
      = Val (None, x') <->
      fieldSettable tagName tagVal (hasTag tagName tagVal sf) (Exported sf) x = true /\
      Forall (fun s => snd (leaf s key) = None)
             (fieldStrings tagName tagVal (hasTag tagName tagVal sf) x) /\
      x' = replaceField (fun s => fst (leaf s key)) tagName tagVal
                        (hasTag tagName tagVal sf) x) /\
  (exists rest,
      map (fun s => (s, key)) (fieldStrings tagName tagVal (hasTag tagName tagVal sf) x)
      = cipherCalls (fst (pField leaf (pStruct leaf key tagName tagVal)
                                 key tagName tagVal sf x)) ++ rest /\
      (forall x',
          snd (pField leaf (pStruct leaf key tagName tagVal) key tagName tagVal sf x)
          = Val (None, x') -> rest = [])).

Definition fields_spec (leaf : cipher) (key tagName tagVal : string)
           (fs : list (StructField * tree)) : Prop :=
  (forall fs',
      snd (pFields leaf (pStruct leaf key tagName tagVal) key tagName tagVal fs)
      = Val (None, fs') <->
      fieldsSettable tagName tagVal fs = true /\
      Forall (fun s => snd (leaf s key) = None) (fieldsStrings tagName tagVal fs) /\
      fs' = replaceFields (fun s => fst (leaf s key)) tagName tagVal fs) /\
  (exists rest,
      map (fun s => (s, key)) (fieldsStrings tagName tagVal fs)
      = cipherCalls (fst (pFields leaf (pStruct leaf key tagName tagVal)
                                  key tagName tagVal fs)) ++ rest /\
      (forall fs',
          snd (pFields leaf (pStruct leaf key tagName tagVal) key tagName tagVal fs)
          = Val (None, fs') -> rest = [])).

Definition items_spec (leaf : cipher) (key tagName tagVal : string) (ts : list tree) : Prop :=
  (forall ts',
      snd (pItems (pStruct leaf key tagName tagVal) ts) = Val (None, ts') <->
      forallb (fun x => negb (tIsStructItem x) || settable tagName tagVal x) ts = true /\
      Forall (fun s => snd (leaf s key) = None) (flat_map (taggedStrings tagName tagVal) ts) /\
      ts' = map (replaceTagged (fun s => fst (leaf s key)) tagName tagVal) ts) /\
  (exists rest,
      map (fun s => (s, key)) (flat_map (taggedStrings tagName tagVal) ts)
      = cipherCalls (fst (pItems (pStruct leaf key tagName tagVal) ts)) ++ rest /\
      (forall ts', snd (pItems (pStruct leaf key tagName tagVal) ts) = Val (None, ts') ->
                   rest = [])).

(** A field the loop has no branch for: neither a string, a pointer to a
    string, a struct nor a pointer to a struct (a slice, a number, a nil
    interface, a pointer to any of these or to a pointer), or a string or
    pointer to a string without the tag. *)
Definition fieldUntouched (tagName tagVal : string) (sf : StructField) (x : tree) : bool :=
  match x with
  | TString _ | TRef (TString _) => negb (hasTag tagName tagVal sf)
  | TRec _ _ | TRef (TRec _ _) => false
  | _ => true
  end.

(** The function [InterfaceEncryptTag] and its siblings hand the input to:
    the struct function for a struct or a pointer to one, the slice function
    for a slice, none for any other root. *)
Definition dispatch (h : list value) (input : value) : option entry :=
  match input with
  | VStruct _ _ => Some OfStruct
  | VPtr (Some a) =>
      match h !! a with
      | Some (VStruct _ _) => Some OfStruct
      | _ => None
      end
  | VSlice _ _ => Some OfSlice
  | _ => None
  end.

(** A struct with a tagged field holding the slice of the one cell 2, and a
    struct with an unexported field holding a struct. *)
Definition demoOrder : value :=
  VStruct "main.Order"
    [ (demoField "Id" false, VInt 1);
      (demoField "Items" true, VSlice 2 1) ].

Definition demoItems : tree :=
  TSeq [TRec "main.Item" [(demoField "Code" true, TString "c1")]].


Definition demoInner : tree :=
  TRec "main.Item" [(demoField "Code" true, TString "c1")].

(** What [InterfaceEncryptTag] returns for the pointer to the cell 2, and the
    state it leaves. *)
Definition demoItemState : state :=
  mkState (demoHeap ++ [ VStruct "main.Item" [(demoField "Code" true, VString "c1")];
                         VStruct "main.Item" [(demoField "Code" true, VString "#c1")] ])
          [EvCopy; EvCipher "c1" "k"].

(** ** The callers in utils.go and logger.go *)

(** The dynamic type of an [interface{}] value as far as the type switches
    of utils.go tell it apart. The values carry no types (a nil pointer
    has none, a string of a named type is a [VString]), so it is given
    beside the value. *)
Inductive dyntype := DynString | DynStringPtr | DynBytes | DynOther.

(** A value that is not of the type given for it: no Go value, no run. *)
Definition ill_typed {A} : M A := fun _ => None.

Definition msgNilDeref : string :=
  "runtime error: invalid memory address or nil pointer dereference".
Definition msgInterfaceOnZero : string :=
  "reflect: call of reflect.Value.Interface on zero Value".

(** [*v] for [v *string]. *)
Definition derefString (v : value) : M string :=
  match v with
  | VPtr None => panic msgNilDeref
  | VPtr (Some a) =>
      let* x := load a in
      match x with
      | VString s => ret s
      | _ => ill_typed
      end
  | _ => ill_typed
  end.

Section Callers.
(** [Encrypt] of aes.go; [TagNameEncrypt] and [TagValEncrypt] of const.go. *)
Variable Encrypt : cipher.
Variables TagNameEncrypt TagValEncrypt : string.

(** [EncryptLog]: the type switch on [interface{}(data)], then
    [InterfaceEncryptTag]. The assertions [result.(T)] are on a value of the
    type of [data] and are not modelled. *)
Definition EncryptLog (fuel : nat) (keyEncrypt : keyEncrypt_t) (ty : dyntype) (data : value)
  : M (value * option error) :=
  match keyEncrypt with
  | None => ret (data, None)
  | Some key =>
      if String.eqb key "" then ret (data, None) else
      match ty with
      | DynString =>
          match data with
          | VString v =>
              let* _ := log (EvCipher v key) in
              let '(res, err) := Encrypt v key in
              match err with
              | Some e => ret (data, Some e)
              | None => ret (VString res, None)
              end
          | _ => ill_typed
          end
      | DynStringPtr =>
          let* v := derefString data in
          let* _ := log (EvCipher v key) in
          let '(res, err) := Encrypt v key in
          match err with
          | Some e => ret (data, Some e)
          | None => let* a := alloc (VString res) in ret (VPtr (Some a), None)
          end
      | _ => InterfaceEncryptTag Encrypt fuel data key TagNameEncrypt TagValEncrypt
      end
  end.

(** [EncryptInterface]: [return Encrypt(v, *keyEncrypt)] hands on the text
    and the error of the cipher as they are. *)
Definition EncryptInterface (fuel : nat) (keyEncrypt : keyEncrypt_t) (ty : dyntype)
           (data : value) : M (value * option error) :=
  match keyEncrypt with
  | None => ret (data, None)
  | Some key =>
      if String.eqb key "" then ret (data, None) else
      match ty with
      | DynString =>
          match data with
          | VString v =>
              let* _ := log (EvCipher v key) in
              let '(res, err) := Encrypt v key in
              ret (VString res, err)
          | _ => ill_typed
          end
      | DynStringPtr =>
          let* v := derefString data in
          let* _ := log (EvCipher v key) in
          let '(res, err) := Encrypt v key in
          ret (VString res, err)
      | _ => InterfaceEncryptTagInterface Encrypt fuel data key TagNameEncrypt TagValEncrypt
      end
  end.

(** [json.Marshal], which reads the value through the store: the text and
    the error. *)
Variable Marshal : list value -> value -> string * option error.

(** [string(b)] for [b []byte]: the cells of the slice, a byte each. *)
Definition bytesToString (base len : nat) : M string :=
  let* bs := mapM_ (fun i => let* x := load (base + i) in
                             match x with
                             | VInt z => ret (ascii_of_N (Z.to_N z))
                             | _ => ill_typed
                             end) (seq 0 len) in
  ret (string_of_list_ascii bs).

(** [AnyToString] *)
Definition AnyToString (ty : dyntype) (value : value) : M (string * option error) :=
  match value with
  | VNil => ret ("", None)
  | _ =>
      match ty with
      | DynString =>
          match value with
          | VString str => ret (str, None)
          | _ => ill_typed
          end
      | DynBytes =>
          match value with
          | VSlice base len => let* str := bytesToString base len in ret (str, None)
          | _ => ill_typed
          end
      | _ =>
          fun st =>
            match Marshal (heap st) value with
            | (_, Some err) => Some (Val ("", Some err), st)
            | (byteValue, None) => Some (Val (byteValue, None), st)
            end
      end
  end.

(** The values of the context of the request an [echo.Context] holds:
    [context.WithValue] puts a pair in front, [Value] finds the first of a
    key. [KeyRequestBody] and [KeyResponseBody] are keys of const.go. *)
Variable ctxKey : Type.
Variables KeyRequestBody KeyResponseBody : ctxKey.

Definition context : Type := list (ctxKey * value).

Definition WithValue (ctx : context) (k : ctxKey) (v : value) : context := (k, v) :: ctx.

(** [SetEchoReqEncrLog]: what it leaves as the context of the request of
    [c]. [ty] is the dynamic type of [req], which is that of [newReq]. *)
Definition SetEchoReqEncrLog (fuel : nat) (keyEncrypt : keyEncrypt_t) (ty : dyntype)
           (req : value) (ctx : context) : M context :=
  match keyEncrypt with
  | None => ret ctx
  | Some key =>
      if String.eqb key "" then ret ctx else
      match req with
      | VNil => ret ctx
      | _ =>
          let* r := StructEncryptTagInterface Encrypt fuel req key
                                              TagNameEncrypt TagValEncrypt in
          match snd r with
          | Some _ => ret ctx
          | None =>
              let* s := AnyToString ty (fst r) in
              match snd s with
              | Some _ => ret ctx
              | None => ret (WithValue ctx KeyRequestBody (VString (fst s)))
              end
          end
      end
  end.

(** [v.FieldByName(name)]: the first field of that name, none standing for
    the zero [Value]. (The values have no embedded structs, whose fields it
    would find as well.) *)
Fixpoint FieldByName (fields : list (StructField * value)) (name : string)
  : option (StructField * value) :=
  match fields with
  | [] => None
  | (sf, x) :: fields' =>
      if String.eqb (Name sf) name then Some (sf, x) else FieldByName fields' name
  end.

(** [data.Interface()] for [data] got from the field [sf], or from the
    target of the pointer it holds: it panics on the zero [Value], which
    [Elem] gives for a nil pointer, and on a field that is not exported. (A
    field of an interface type that holds nil is not the zero [Value].) *)
Definition Value_Interface (dataIsInterface : bool) (sf : StructField) (data : value)
  : M unit :=
  match dataIsInterface, data with
  | false, VNil => panic msgInterfaceOnZero
  | _, _ => mustBeExported sf
  end.

(** [SetEchoRespEncrLog]. A field declared of an interface type has kind
    [Interface], whatever it holds, and [Interface()] gives what it holds;
    the values do not tell such a field from one of the type of its value,
    so [dataIsInterface] does. [ty] is the dynamic type of
    [data.Interface()], which is that of [newRes]. *)
Definition SetEchoRespEncrLog (fuel : nat) (keyEncrypt : keyEncrypt_t)
           (dataIsInterface : bool) (ty : dyntype) (resp : value) (ctx : context)
  : M context :=
  match keyEncrypt with
  | None => ret ctx
  | Some key =>
      if String.eqb key "" then ret ctx else
      match resp with
      | VNil => ret ctx
      | _ =>
          let* v := (if reflect.eqb (Kind resp) reflect.Ptr then Elem resp else ret resp) in
          match v with
          | VStruct _ fields =>
              match FieldByName fields "Data" with
              | None => ret ctx
              | Some (sf, data) =>
                  let* data :=
                    (if dataIsInterface then ret data
                     else if reflect.eqb (Kind data) reflect.Ptr then Elem data
                          else ret data) in
                  let* _ := Value_Interface dataIsInterface sf data in
                  let* r := InterfaceEncryptTagInterface Encrypt fuel data key
                                                         TagNameEncrypt TagValEncrypt in
                  match snd r with
                  | Some _ => ret ctx
                  | None =>
                      let* s := AnyToString ty (fst r) in
                      match snd s with
                      | Some _ => ret ctx
                      | None => ret (WithValue ctx KeyResponseBody (VString (fst s)))
                      end
                  end
              end
          | _ => ret ctx
          end
      end
  end.
End Callers.

(** ** The logger of logger.go and the stack of utils.go *)

(** A call of [log.Fatal().Msg] ends the process, with [os.Exit(1)]. *)
Inductive process (A : Type) :=
| Running (a : A)
| Exited (code : Z) (msg : string).
Arguments Running {A} a.
Arguments Exited {A} code msg.

Section InitLog.
(** [&Logger{log.With().Str(KeyServiceName, serviceName).Logger()}] *)
Variable Logger : Type.
Variable newLogger : string -> Logger.

(** [InitLog] on [loggerInstance], under the lock [mu]. *)
Definition InitLog (serviceName : string) (loggerInstance : option Logger)
  : process (option Logger) :=
  match loggerInstance with
  | Some _ => Running loggerInstance
  | None =>
      if String.eqb serviceName "" then Exited 1 "services name is empty"
      else Running (Some (newLogger serviceName))
  end.

Definition GetLogger (loggerInstance : option Logger) : option Logger := loggerInstance.

(** The calls of [InitLog] with [names], one after the other, as long as
    the process runs. *)
Fixpoint InitLog_calls (names : list string) (loggerInstance : option Logger)
  : process (option Logger) :=
  match names with
  | [] => Running loggerInstance
  | name :: names' =>
      match InitLog name loggerInstance with
      | Running inst => InitLog_calls names' inst
      | Exited code msg => Exited code msg
      end
  end.
End InitLog.

(** [strings.Split(s, sep)] for a separator [sep] of one byte. *)
Fixpoint Split (s : string) (sep : ascii) : list string :=
  match s with
  | EmptyString => [EmptyString]
  | String a s' =>
      if Ascii.eqb a sep then EmptyString :: Split s' sep
      else match Split s' sep with
           | part :: parts => String a part :: parts
           | [] => [String a EmptyString]
           end
  end.

(** [%d] of [fmt.Sprintf] for an [int]. *)
Definition formatInt (n : Z) : string := NilZero.string_of_int (Z.to_int n).

Definition msgIndex : string := "runtime error: index out of range".

(** [GetCaller], given what [runtime.Caller(2)] returned when [ok] (the
    name [runtime.FuncForPC(pc).Name()], the file and the line), or nothing
    when not. *)
Definition GetCaller (caller : option (string * string * Z)) : outcome string :=
  match caller with
  | None => Val ""
  | Some (fullFnName, file, line) =>
      let parts := Split fullFnName "."%char in
      match parts !! (length parts - 1) with
      | Some fnName => Val (file ++ ":" ++ formatInt line ++ " " ++ fnName)%string
      | None => Panicked msgIndex
      end
  end.

(** [GetFullStack], given the bytes [runtime.Stack] wrote to [buf] and
    [strings.TrimSpace]. *)
Definition GetFullStack (TrimSpace : string -> string) (stack : string) : outcome string :=
  let stackTemp := Split stack "010"%char in
  if (6 <? length stackTemp)%nat then
    match stackTemp !! 6, stackTemp !! 5 with
    | Some l6, Some l5 =>
        Val ("file: " ++ TrimSpace l6 ++ ", func: " ++ TrimSpace l5)%string
    | _, _ => Panicked msgIndex
    end
  else Val "stacktrace unavailable".

(** The number of bytes [c] in [s], and [strings.Join(parts, sep)]. *)
Fixpoint countByte (c : ascii) (s : string) : nat :=
  match s with
  | EmptyString => 0
  | String a s' => (if Ascii.eqb a c then 1 else 0) + countByte c s'
  end.

Fixpoint Join (parts : list string) (sep : ascii) : string :=
  match parts with
  | [] => ""
  | [part] => part
  | part :: parts' => (part ++ String sep (Join parts' sep))%string
  end.

(** A snapshot of a value of the dynamic type [ty]. *)
Definition hasDynType (ty : dyntype) (t : tree) : bool :=
  match ty, t with
  | DynString, TString _ => true
  | DynStringPtr, (TNilPtr | TRef (TString _)) => true
  | DynBytes, TSeq ts => forallb (fun x => match x with TInt _ => true | _ => false end) ts
  | DynOther, _ => true
  | _, _ => false
  end.

(** The string [data] is, for [DynString], or points to, for
    [DynStringPtr]. *)
Definition stringOf (h : list value) (ty : dyntype) (data : value) : option string :=
  match ty, data with
  | DynString, VString s => Some s
  | DynStringPtr, VPtr (Some a) =>
      match h !! a with
      | Some (VString s) => Some s
      | _ => None
      end
  | _, _ => None
  end.

(** The fields of the struct [resp] is or points to, and what
    [data.Interface()] is for the value [d] of the field [Data]. *)
Definition respFields (h : list value) (resp : value) : option (list (StructField * value)) :=
  match resp with
  | VStruct _ fields => Some fields
  | VPtr (Some a) =>
      match h !! a with
      | Some (VStruct _ fields) => Some fields
      | _ => None
      end
  | _ => None
  end.


(** A [json.Marshal] that gives the same text for every value. *)
Definition demoMarshal : list value -> value -> string * option error :=
  fun _ _ => ("{}", None).


Definition demoNilResp : value :=
  VStruct "main.Resp"
    [ (demoField "Code" false, VInt 200);
      (demoField "Data" false, VPtr None) ].

(** The calls of [Copy] among the events of a run. *)
Fixpoint copyCalls (evs : list event) : nat :=
  match evs with
  | [] => 0
  | EvCopy :: evs' => S (copyCalls evs')
  | EvCipher _ _ :: evs' => copyCalls evs'
  end.

(** The structs a traversal gets to through the field [x]: the struct the
    field holds or points to, [time.Time] apart, and those its fields lead
    to. *)
Fixpoint fieldStructs (x : tree) {struct x} : nat :=
  let fields :=
    fix sum (fs : list (StructField * tree)) : nat :=
      match fs with
      | [] => 0
      | g :: fs' => fieldStructs (snd g) + sum fs'
      end in
  if tIsTime x then 0 else
  if tIsTimePtr x then 0 else
  match x with
  | TRec _ fs => S (fields fs)
  | TRef (TRec _ fs) => S (fields fs)
  | _ => 0
  end.

Fixpoint fieldsStructs (fs : list (StructField * tree)) : nat :=
  match fs with
  | [] => 0
  | g :: fs' => fieldStructs (snd g) + fieldsStructs fs'
  end.

(** The structs a traversal from the root [t] gets to, the root included. *)
Definition structsOf (t : tree) : nat :=
  match t with
  | TRec _ fs => S (fieldsStructs fs)
  | TRef (TRec _ fs) => S (fieldsStructs fs)
  | _ => 1
  end.

(** The calls of [Copy] of the traversal of [t]: at most one for each
    struct it gets to, and as many when it succeeds. *)
Definition copies_spec (leaf : cipher) (key tagName tagVal : string) (t : tree) : Prop :=
  copyCalls (fst (pStruct leaf key tagName tagVal t)) <= structsOf t /\
  (forall t', snd (pStruct leaf key tagName tagVal t) = Val (t', None) ->
              copyCalls (fst (pStruct leaf key tagName tagVal t)) = structsOf t).



(** * Lemmas *)

Lemma repr_mono P Q h n v t :
  (forall a, P a -> Q a) -> repr P h n v t -> repr Q h n v t.
Proof.
  intros HPQ. revert v t.
  induction n as [|n IH]; intros v t H; inversion H; subst; try constructor; auto.
  - econstructor; eauto.
  - econstructor; eauto.
    + intros i x Hx. destruct (H2 i x Hx). auto.
    + eapply Forall2_impl; eauto.
  - eapply Forall2_impl; eauto. intros f ft [? ?]; auto.
Qed.

(** The snapshot depends only on the cells read. *)
Lemma repr_ext P h h' n v t :
  (forall a x, P a -> h !! a = Some x -> h' !! a = Some x) ->
  repr P h n v t -> repr P h' n v t.
Proof.
  intros Hag. revert v t.
  induction n as [|n IH]; intros v t H; inversion H; subst; try constructor; auto.
  - econstructor; eauto.
  - econstructor; eauto.
    + intros i x Hx. destruct (H2 i x Hx). auto.
    + eapply Forall2_impl; eauto.
  - eapply Forall2_impl; eauto. intros f ft [? ?]; auto.
Qed.

Lemma repr_app P h new n v t : repr P h n v t -> repr P (h ++ new) n v t.
Proof.
  apply repr_ext. intros a x _ Hx. by apply lookup_app_l_Some.
Qed.

Lemma repr_insert P h a0 x0 n v t :
  ~ P a0 -> repr P h n v t -> repr P (<[a0 := x0]> h) n v t.
Proof.
  intros Hn. apply repr_ext. intros a x Ha Hx.
  rewrite list_lookup_insert_ne; [done|]. intros ->. done.
Qed.

Lemma repr_snapshot P h n v t : repr P h n v t -> snapshot n h v = Some t.
Proof.
  revert v t.
  induction n as [|n IH]; intros v t H; inversion H; subst; simpl; auto.
  - rewrite H2. simpl. erewrite IH; eauto.
  - replace (mapM _ (seq 0 (length xs))) with (Some ts); [done|].
    symmetry. apply mapM_Some.
    apply Forall2_same_length_lookup_2.
    + rewrite length_seq. by eapply Forall2_length.
    + intros i j t Hj Ht.
      apply lookup_seq in Hj as [-> Hlt]. simpl.
      destruct (lookup_lt_is_Some_2 xs i Hlt) as [x Hx].
      destruct (H2 i x Hx) as [_ ->]. simpl.
      erewrite IH; [done|].
      eapply Forall2_lookup_lr; eauto.
  - replace (mapM _ fs) with (Some fts); [done|].
    symmetry. apply mapM_Some.
    eapply Forall2_impl; eauto.
    intros [sf x] [sf' x'] [Hf Hr]; simpl in *. subst.
    erewrite IH; eauto.
Qed.

Lemma snapshot_repr h n v t :
  snapshot n h v = Some t -> repr (fun _ => True) h n v t.
Proof.
  revert v t.
  induction n as [|n IH]; intros v t H; [done|].
  destruct v as [| | | |[a|]|base len|tname fs]; simpl in H; simplify_eq; try constructor.
  - destruct (h !! a) as [x|] eqn:Hx; simpl in H; [|done].
    destruct (snapshot n h x) as [t'|] eqn:Ht; simpl in H; [|done].
    simplify_eq. econstructor; eauto.
  - destruct (mapM _ (seq 0 len)) as [ts|] eqn:Hm; simpl in H; [|done].
    simplify_eq. apply mapM_Some in Hm.
    assert (Hlen : length ts = len).
    { apply Forall2_length in Hm. by rewrite length_seq in Hm. }
    assert (Hx : forall i, i < len -> exists x t', h !! (base + i) = Some x /\
                   ts !! i = Some t' /\ snapshot n h x = Some t').
    { intros i Hi.
      destruct (lookup_lt_is_Some_2 ts i) as [t' Ht']; [lia|].
      assert (Hs : seq 0 len !! i = Some i) by (by apply lookup_seq).
      pose proof (Forall2_lookup_lr _ _ _ _ _ _ Hm Hs Ht') as Hf. simpl in Hf.
      destruct (h !! (base + i)) as [x|]; simpl in Hf; [|done].
      eauto. }
    apply repr_seq with (xs := (fun i => default VNil (h !! (base + i))) <$> seq 0 len).
    + by rewrite length_fmap, length_seq.
    + intros i x Hi. rewrite list_lookup_fmap in Hi.
      destruct (seq 0 len !! i) as [j|] eqn:Hj; simpl in Hi; [|done].
      apply lookup_seq in Hj as [-> Hlt]. simpl in Hi.
      destruct (Hx i Hlt) as (x' & t' & Hh & _ & _).
      rewrite Hh in Hi. simpl in Hi. simplify_eq. done.
    + apply Forall2_same_length_lookup_2.
      * rewrite length_fmap, length_seq. done.
      * intros i x t' Hi Ht'. rewrite list_lookup_fmap in Hi.
        destruct (seq 0 len !! i) as [j|] eqn:Hj; simpl in Hi; [|done].
        apply lookup_seq in Hj as [-> Hlt]. simpl in Hi.
        destruct (Hx i Hlt) as (x' & t'' & Hh & Hts & Hsn).
        rewrite Hh in Hi. simpl in Hi. simplify_eq. auto.
  - destruct (mapM _ fs) as [fts|] eqn:Hm; simpl in H; [|done].
    simplify_eq. constructor. apply mapM_Some in Hm.
    eapply Forall2_impl; eauto.
    intros [sf x] [sf' t'] Hf; simpl in *.
    destruct (snapshot n h x) eqn:Hs; simpl in Hf; [|done].
    simplify_eq. auto.
Qed.

(** ** The monad *)

Lemma bind_val {A B} (m : M A) (k : A -> M B) st a st' :
  m st = Some (Val a, st') -> bind m k st = k a st'.
Proof. unfold bind. by intros ->. Qed.

Lemma bind_panicked {A B} (m : M A) (k : A -> M B) st msg st' :
  m st = Some (Panicked msg, st') -> bind m k st = Some (Panicked msg, st').
Proof. unfold bind. by intros ->. Qed.

Lemma load_val h tr a x :
  h !! a = Some x -> load a (mkState h tr) = Some (Val x, mkState h tr).
Proof. unfold load. simpl. by intros ->. Qed.

Lemma store_val h tr a x y :
  h !! a = Some y ->
  store a x (mkState h tr) = Some (Val tt, mkState (<[a := x]> h) tr).
Proof. unfold store. simpl. by intros ->. Qed.

(** ** Copy duplicates *)

Lemma sep_Forall2 {A B} (R : (addr -> Prop) -> A -> B -> Prop) L U xs ys :
  (forall (P Q : addr -> Prop) x y, (forall a, P a -> Q a) -> R P x y -> R Q x y) ->
  sep R L U xs ys ->
  L <= U /\ Forall2 (R (fun a => L <= a < U)) xs ys.
Proof.
  intros Hmono. induction 1 as [|L mid U x y xs ys HL Hx Hs [HU IH]].
  - split; [done|constructor].
  - split; [lia|]. constructor.
    + eapply Hmono; [|exact Hx]. simpl. intros a; lia.
    + eapply Forall2_impl; [exact IH|].
      intros x' y'. apply Hmono. intros a; simpl; lia.
Qed.

Lemma frepr_mono P Q h n f ft :
  (forall a, P a -> Q a) -> frepr P h n f ft -> frepr Q h n f ft.
Proof. intros HPQ [? ?]. split; [done|]. by eapply repr_mono. Qed.

Lemma copy_fields_sep f :
  copy_ok f ->
  forall n P fs fts h tr,
    Forall2 (frepr P h n) fs fts -> n <= f ->
    exists new fs',
      mapM_ (fun fld : StructField * value =>
               let* x' := deepCopy f (snd fld) in ret (fst fld, x'))
            fs (mkState h tr)
      = Some (Val fs', mkState (h ++ new) tr) /\
      sep (fun Q => frepr Q (h ++ new) n) (length h) (length h + length new) fs' fts.
Proof.
  intros Hok n P fs fts h tr HF Hn. revert fs h tr HF.
  induction fts as [|[sf t] fts IH]; intros fs h tr HF.
  - apply Forall2_nil_inv_r in HF as ->.
    exists [], []. simpl. rewrite app_nil_r. split; [done|]. constructor. lia.
  - apply Forall2_cons_inv_r in HF as ([sf' x] & fs' & [Hsf Hx] & HF & ->).
    simpl in Hsf, Hx. subst sf'.
    destruct (Hok n P h tr x t Hx Hn) as (new1 & x' & Hcp & Hx').
    destruct (IH fs' (h ++ new1) tr) as (new2 & fs'' & Hm & Hsep).
    { eapply Forall2_impl; [exact HF|]. intros f0 ft0 [? ?]. split; [done|].
      by apply repr_app. }
    exists (new1 ++ new2), ((sf, x') :: fs''). split.
    + simpl. erewrite bind_val; [|erewrite bind_val; [|exact Hcp]; reflexivity].
      erewrite bind_val; [|exact Hm]. by rewrite <- app_assoc.
    + rewrite app_assoc. eapply sep_cons with (mid := length h + length new1).
      * lia.
      * split; [done|]. simpl. by apply repr_app.
      * rewrite !length_app in *. rewrite Nat.add_assoc. exact Hsep.
Qed.

Lemma copy_items_sep f :
  copy_ok f ->
  forall n P base xs ts k h tr,
    (forall i x, xs !! i = Some x -> h !! (base + (k + i)) = Some x) ->
    Forall2 (repr P h n) xs ts -> n <= f ->
    exists new xs',
      mapM_ (fun i => let* x := load (base + i) in deepCopy f x)
            (seq k (length xs)) (mkState h tr)
      = Some (Val xs', mkState (h ++ new) tr) /\
      sep (fun Q => repr Q (h ++ new) n) (length h) (length h + length new) xs' ts.
Proof.
  intros Hok n P base xs ts k h tr Hc HF Hn. revert xs k h tr Hc HF.
  induction ts as [|t ts IH]; intros xs k h tr Hc HF.
  - apply Forall2_nil_inv_r in HF as ->.
    exists [], []. simpl. rewrite app_nil_r. split; [done|]. constructor. lia.
  - apply Forall2_cons_inv_r in HF as (x & xs' & Hx & HF & ->).
    destruct (Hok n P h tr x t Hx Hn) as (new1 & x' & Hcp & Hx').
    destruct (IH xs' (S k) (h ++ new1) tr) as (new2 & xs'' & Hm & Hsep).
    { intros i y Hy. apply lookup_app_l_Some.
      replace (base + (S k + i)) with (base + (k + S i)) by lia.
      apply Hc. done. }
    { eapply Forall2_impl; [exact HF|]. intros; by apply repr_app. }
    exists (new1 ++ new2), (x' :: xs''). split.
    + simpl.
      erewrite bind_val.
      2:{ erewrite bind_val; [exact Hcp|]. apply load_val.
          specialize (Hc 0 x eq_refl). by rewrite Nat.add_0_r in Hc. }
      erewrite bind_val; [|exact Hm]. by rewrite <- app_assoc.
    + rewrite app_assoc. eapply sep_cons with (mid := length h + length new1).
      * lia.
      * by apply repr_app.
      * rewrite !length_app in *. rewrite Nat.add_assoc. exact Hsep.
Qed.

Lemma deepCopy_ok f : copy_ok f.
Proof.
  induction f as [|f IH]; intros n P h tr v t Hr Hn.
  { inversion Hr; lia. }
  inversion Hr; subst; simpl.
  1-5: eexists [], _; rewrite app_nil_r; split; [reflexivity|constructor].
  - destruct (IH n0 P h tr x t0) as (new1 & x' & Hcp & Hx'); [done|lia|].
    exists (new1 ++ [x']), (VPtr (Some (length (h ++ new1)))). split.
    + erewrite bind_val; [|by apply load_val].
      erewrite bind_val; [|exact Hcp]. unfold alloc, alloc_array, bind, ret. simpl.
      by rewrite <- app_assoc.
    + rewrite app_assoc. econstructor.
      * rewrite !length_app. simpl. lia.
      * by apply list_lookup_middle.
      * apply repr_app. eapply repr_mono; [|exact Hx'].
        simpl. intros a'. rewrite !length_app. lia.
  - destruct (copy_items_sep f IH n0 P base xs ts 0 h tr) as (new1 & xs' & Hm & Hsep);
      [by intros i x Hx; apply H0|done|lia|].
    exists (new1 ++ xs'), (VSlice (length (h ++ new1)) (length xs)). split.
    + erewrite bind_val; [|exact Hm]. unfold alloc_array, bind, ret. simpl.
      by rewrite <- app_assoc.
    + apply sep_Forall2 in Hsep as [_ HF]; [|intros; by eapply repr_mono].
      rewrite app_assoc. eapply repr_seq with (xs := xs').
      * apply Forall2_length in HF. apply Forall2_length in H1. congruence.
      * intros i x Hx. split.
        -- apply lookup_lt_Some in Hx. rewrite !length_app. lia.
        -- rewrite lookup_app_r by lia.
           replace (length (h ++ new1) + i - length (h ++ new1)) with i by lia. done.
      * eapply Forall2_impl; [exact HF|]. intros x t' Hx. apply repr_app.
        eapply repr_mono; [|exact Hx]. simpl. intros a. rewrite !length_app. lia.
  - destruct (copy_fields_sep f IH n0 P fs fts h tr) as (new1 & fs' & Hm & Hsep);
      [done|lia|].
    exists new1, (VStruct tname fs'). split.
    + erewrite bind_val; [|exact Hm]. done.
    + apply sep_Forall2 in Hsep as [_ HF]; [|intros; by eapply frepr_mono].
      constructor. exact HF.
Qed.


(** ** Reading a value by reflection *)

Lemma repr_Kind P h n v t : repr P h n v t -> Kind v = tKind t.
Proof. by inversion 1. Qed.

Lemma repr_isTime P h n v t : repr P h n v t -> isTime v = tIsTime t.
Proof. by inversion 1. Qed.

Lemma isTimePtr_run P h tr n v t :
  repr P h n v t ->
  isTimePtr v (mkState h tr) = Some (Val (tIsTimePtr t), mkState h tr).
Proof.
  inversion 1; subst; try reflexivity.
  unfold isTimePtr, andM. simpl.
  erewrite bind_val; [|by apply load_val].
  unfold ret. by erewrite repr_isTime.
Qed.

Lemma isPtrTo_run k P h tr n v t :
  repr P h n v t ->
  isPtrTo k v (mkState h tr) = Some (Val (tPtrTo k t), mkState h tr).
Proof.
  inversion 1; subst; try reflexivity.
  unfold isPtrTo, andM. simpl.
  erewrite bind_val; [|by apply load_val].
  unfold ret. by erewrite repr_Kind.
Qed.


(** ** The loop over the fields *)

Ltac run_with H :=
  repeat (progress (unfold bind, isTimePtr, isPtrTo, andM, Elem, load, ret, log;
                    simpl; rewrite ?H; simpl)).

Lemma sep_le {A B} (R : (addr -> Prop) -> A -> B -> Prop) L U xs ys :
  sep R L U xs ys -> L <= U.
Proof. induction 1; lia. Qed.

Lemma sep_impl {A B} (R R' : (addr -> Prop) -> A -> B -> Prop) L U xs ys :
  (forall L' U' x y, L <= L' -> U' <= U ->
                     R (fun a => L' <= a < U') x y -> R' (fun a => L' <= a < U') x y) ->
  sep R L U xs ys -> sep R' L U xs ys.
Proof.
  intros HR Hs. induction Hs as [|L mid U x y xs ys HL Hx Hs IH].
  - by constructor.
  - pose proof (sep_le _ _ _ _ _ Hs) as HU.
    econstructor; [exact HL| |].
    + apply HR; [lia|lia|exact Hx].
    + apply IH. intros L' U' x' y' HL' HU'. apply HR; lia.
Qed.

Lemma sep_nil_inv {A B} (R : (addr -> Prop) -> A -> B -> Prop) L U xs :
  sep R L U xs [] -> xs = [] /\ L <= U.
Proof. by inversion 1. Qed.

Lemma sep_cons_inv {A B} (R : (addr -> Prop) -> A -> B -> Prop) L U xs y ys :
  sep R L U xs (y :: ys) ->
  exists x xs' mid,
    xs = x :: xs' /\ L <= mid /\ R (fun a => L <= a < mid) x y /\ sep R mid U xs' ys.
Proof. inversion 1; subst. eauto 10. Qed.

Lemma frepr_ext P h h' n f ft :
  (forall a x, P a -> h !! a = Some x -> h' !! a = Some x) ->
  frepr P h n f ft -> frepr P h' n f ft.
Proof. intros Hag [? ?]. split; [done|]. by eapply repr_ext. Qed.

Section Simulation.
Variable leaf : cipher.
Variables key tagName tagVal : string.

Variable rec : value -> string -> string -> string -> M (value * option error).
Variable d : nat.
Hypothesis Hrec : struct_sim leaf key tagName tagVal rec d.

Lemma field_step m Q hc trc sf x tx rest' i output :
  m < d ->
  repr Q hc m x tx ->
  (forall a, Q a -> a < length hc) ->
  output !! i = Some (sf, x) ->
  exists hc',
    length hc <= length hc' /\
    (forall a, a < length hc -> ~ Q a -> hc' !! a = hc !! a) /\
    match snd (pField leaf (pStruct leaf key tagName tagVal) key tagName tagVal sf tx) with
    | Val (None, tx') =>
        exists x',
          repr (fun a => Q a \/ length hc <= a) hc' m x' tx' /\
          fieldsLoop leaf rec key tagName tagVal ((sf, x) :: rest') i output (mkState hc trc)
          = fieldsLoop leaf rec key tagName tagVal rest' (S i) (<[i := (sf, x')]> output)
              (mkState hc' (trc ++ fst (pField leaf (pStruct leaf key tagName tagVal)
                                               key tagName tagVal sf tx)))
    | Val (Some e, _) =>
        exists out',
          fieldsLoop leaf rec key tagName tagVal ((sf, x) :: rest') i output (mkState hc trc)
          = Some (Val (Some e, out'),
                  mkState hc' (trc ++ fst (pField leaf (pStruct leaf key tagName tagVal)
                                                  key tagName tagVal sf tx)))
    | Panicked msg =>
        fieldsLoop leaf rec key tagName tagVal ((sf, x) :: rest') i output (mkState hc trc)
        = Some (Panicked msg,
                mkState hc' (trc ++ fst (pField leaf (pStruct leaf key tagName tagVal)
                                                key tagName tagVal sf tx)))
    end.
Proof.
  intros Hm Hx HQ Hout.
  assert (Hsame : forall (P : Prop), P -> 
     fieldsLoop leaf rec key tagName tagVal rest' (S i) output (mkState hc trc) =
     fieldsLoop leaf rec key tagName tagVal rest' (S i) (<[i := (sf, x)]> output) (mkState hc (trc ++ []))).
  { intros. rewrite list_insert_id by done. by rewrite app_nil_r. }
  assert (Ha : forall a y, hc !! a = Some y -> a < length hc).
  { intros a y Hy. by eapply lookup_lt_Some. }
  inversion Hx; subst.
  - (* nil interface *)
    exists hc. split; [lia|]. split; [done|]. unfold pField. simpl.
    destruct (String.eqb (Tag_Get (Tag sf) tagName) tagVal) eqn:Etag; simpl;
      (eexists; split; [constructor | exact (Hsame True I)]).
  - exists hc. split; [lia|]. split; [done|]. unfold pField. simpl.
    destruct (String.eqb (Tag_Get (Tag sf) tagName) tagVal) eqn:Etag; simpl;
      (eexists; split; [constructor | exact (Hsame True I)]).
  - exists hc. split; [lia|]. split; [done|]. unfold pField. simpl.
    destruct (String.eqb (Tag_Get (Tag sf) tagName) tagVal) eqn:Etag; simpl;
      (eexists; split; [constructor | exact (Hsame True I)]).
  - (* string *)
    exists hc. split; [lia|]. split; [done|]. unfold pField. simpl.
    destruct (String.eqb (Tag_Get (Tag sf) tagName) tagVal) eqn:Etag; simpl.
    2: { eexists; split; [constructor | exact (Hsame True I)]. }
    unfold bind, log, isTimePtr, andM, ret, mustBeExported. simpl.
    destruct (leaf s key) as [c [e|]] eqn:El; simpl.
    + eexists. reflexivity.
    + destruct (Exported sf) eqn:Eexp; simpl.
      * eexists. split; [constructor|reflexivity].
      * reflexivity.
  - (* nil pointer *)
    exists hc. split; [lia|]. split; [done|]. unfold pField. simpl.
    destruct (String.eqb (Tag_Get (Tag sf) tagName) tagVal) eqn:Etag; simpl;
      (eexists; split; [constructor | exact (Hsame True I)]).
  - (* pointer *)
    assert (Hkeep : repr (fun a1 => Q a1 \/ length hc <= a1) hc (S n) (VPtr (Some a)) (TRef t)).
    { eapply repr_mono; [|exact Hx]. auto. }
    inversion H1; subst.
    1-3,5-7: (exists hc; split; [lia|]; split; [done|]; unfold pField; simpl;
      destruct (String.eqb (Tag_Get (Tag sf) tagName) tagVal) eqn:Etag; simpl;
      (eexists; split; [exact Hkeep |];
       run_with H0; exact (Hsame True I))).
    + (* pointer to string *)
      unfold pField. simpl.
      destruct (String.eqb (Tag_Get (Tag sf) tagName) tagVal) eqn:Etag; simpl.
      2: { exists hc; split; [lia|]; split; [done|].
           eexists; split; [exact Hkeep |].
           run_with H0. exact (Hsame True I). }
      run_with H0.
      destruct (leaf s key) as [c [e|]] eqn:El; simpl.
      * exists hc; split; [lia|]; split; [done|]. eexists. reflexivity.
      * unfold Field_Elem_Set, Field, bind, mustBeExported, ret, panic, store. simpl.
        rewrite Hout. simpl.
        destruct (Exported sf) eqn:Eexp; simpl.
        -- rewrite H0. simpl.
           exists (<[a := VString c]> hc). split; [by rewrite length_insert|].
           split.
           { intros a0 _ Hn. apply list_lookup_insert_ne. intros ->. done. }
           exists (VPtr (Some a)). split.
           ++ eapply repr_ref with (x := VString c); [by left| |constructor].
              apply list_lookup_insert_eq. eauto.
           ++ by rewrite (list_insert_id output).
        -- exists hc; split; [lia|]; split; [done|]. reflexivity.
    + (* pointer to struct *)
      unfold pField. cbn [tIsTime tIsTimePtr].
      destruct (String.eqb tname timeTime) eqn:Et.
      { exists hc; split; [lia|]; split; [done|]. cbn [snd fst].
        eexists; split; [exact Hkeep |].
        run_with H0. unfold isTime. simpl. rewrite Et. simpl. exact (Hsame True I). }
      destruct (Exported sf) eqn:Eexp.
      2: { exists hc; split; [lia|]; split; [done|]. cbn [snd fst fieldsLoop].
           destruct (String.eqb (Tag_Get (Tag sf) tagName) tagVal) eqn:Etag;
             run_with H0; unfold isTime; simpl; rewrite Et; simpl;
             run_with H0; unfold mustBeExported; rewrite Eexp; simpl.
           all: by rewrite app_nil_r. }
      destruct (Hrec _ _ _ trc _ _ H1 ltac:(lia)) as (new & o & Hrun & Hsim).
      remember (pStruct leaf key tagName tagVal (TRec tname fts)) as ps eqn:Hps.
      assert (Hloop : fieldsLoop leaf rec key tagName tagVal
                ((sf, VPtr (Some a)) :: rest') i output (mkState hc trc)
              = match o with
                | Val (r, Some e) => Some (Val (Some e, output), mkState (hc ++ new) (trc ++ fst ps))
                | Val (r, None) =>
                    fieldsLoop leaf rec key tagName tagVal rest' (S i) output
                      (mkState (<[a := r]> (hc ++ new)) (trc ++ fst ps))
                | Panicked msg => Some (Panicked msg, mkState (hc ++ new) (trc ++ fst ps))
                end).
      { cbn [fieldsLoop].
        destruct (String.eqb (Tag_Get (Tag sf) tagName) tagVal) eqn:Etag;
          run_with H0; unfold isTime; simpl; rewrite Et; simpl;
          run_with H0; unfold mustBeExported; rewrite Eexp; simpl;
          rewrite Hrun; destruct o as [[r [e|]]|msg]; simpl; try reflexivity;
          unfold Field_Elem_Set, Field, bind, mustBeExported, ret, panic, store; simpl;
          rewrite Hout; simpl; rewrite Eexp; simpl;
          rewrite (lookup_app_l_Some _ _ _ _ H0); reflexivity. }
      rewrite Hloop. clear Hloop.
      destruct ps as [evs [[t' [e|]]|msg]]; destruct o as [[r [e'|]]|msg'];
        simpl in Hsim; try contradiction; cbn [fst snd].
      * destruct Hsim as [-> ->].
        exists (hc ++ new). split; [rewrite length_app; lia|].
        split; [intros a0 Ha0 _; by apply lookup_app_l|]. eexists. reflexivity.
      * exists (<[a := r]> (hc ++ new)).
        split; [rewrite length_insert, length_app; lia|].
        split.
        { intros a0 Ha0 Hn. rewrite list_lookup_insert_ne by (intros ->; done).
          by apply lookup_app_l. }
        exists (VPtr (Some a)). split.
        -- eapply repr_ref with (x := r); [by left| |].
           ++ apply list_lookup_insert_eq. rewrite length_app.
              apply Ha in H0. lia.
           ++ eapply repr_mono; [|apply repr_insert; [|exact Hsim]].
              ** intros a0 Ha0. right. exact Ha0.
              ** simpl. apply Ha in H0. lia.
        -- by rewrite (list_insert_id output).
      * subst msg'. exists (hc ++ new). split; [rewrite length_app; lia|].
        split; [intros a0 Ha0 _; by apply lookup_app_l|]. reflexivity.
  - (* slice *)
    exists hc. split; [lia|]. split; [done|]. unfold pField. simpl.
    destruct (String.eqb (Tag_Get (Tag sf) tagName) tagVal) eqn:Etag; simpl;
      (eexists; split; [eapply repr_mono; [|exact Hx]; auto | exact (Hsame True I)]).
  - (* struct *)
    unfold pField. cbn [tIsTime tIsTimePtr].
    destruct (String.eqb tname timeTime) eqn:Et.
    { exists hc; split; [lia|]; split; [done|]. cbn [snd fst].
      eexists; split; [eapply repr_mono; [|exact Hx]; auto |].
      cbn [fieldsLoop]. unfold isTime. simpl. rewrite Et. exact (Hsame True I). }
    destruct (Exported sf) eqn:Eexp.
    2: { exists hc; split; [lia|]; split; [done|]. cbn [snd fst fieldsLoop].
         destruct (String.eqb (Tag_Get (Tag sf) tagName) tagVal) eqn:Etag;
           unfold isTime; simpl; rewrite Et; simpl;
           run_with Et; unfold mustBeExported; rewrite Eexp; simpl.
         all: by rewrite app_nil_r. }
    destruct (Hrec _ _ _ trc _ _ Hx ltac:(lia)) as (new & o & Hrun & Hsim).
    remember (pStruct leaf key tagName tagVal (TRec tname fts)) as ps eqn:Hps.
    assert (Hloop : fieldsLoop leaf rec key tagName tagVal
              ((sf, VStruct tname fs) :: rest') i output (mkState hc trc)
            = match o with
              | Val (r, Some e) => Some (Val (Some e, output), mkState (hc ++ new) (trc ++ fst ps))
              | Val (r, None) =>
                  fieldsLoop leaf rec key tagName tagVal rest' (S i) (<[i := (sf, r)]> output)
                    (mkState (hc ++ new) (trc ++ fst ps))
              | Panicked msg => Some (Panicked msg, mkState (hc ++ new) (trc ++ fst ps))
              end).
    { cbn [fieldsLoop].
      destruct (String.eqb (Tag_Get (Tag sf) tagName) tagVal) eqn:Etag;
        unfold isTime; simpl; rewrite Et; simpl;
        run_with Et; unfold mustBeExported; rewrite Eexp; simpl;
        rewrite Hrun; destruct o as [[r [e|]]|msg]; simpl; reflexivity. }
    rewrite Hloop. clear Hloop.
    destruct ps as [evs [[t' [e|]]|msg]]; destruct o as [[r [e'|]]|msg'];
      simpl in Hsim; try contradiction; cbn [fst snd].
    + destruct Hsim as [-> ->].
      exists (hc ++ new). split; [rewrite length_app; lia|].
      split; [intros a0 Ha0 _; by apply lookup_app_l|]. eexists. reflexivity.
    + exists (hc ++ new). split; [rewrite length_app; lia|].
      split; [intros a0 Ha0 _; by apply lookup_app_l|].
      exists r. split; [|reflexivity].
      eapply repr_mono; [|exact Hsim]. intros a0 Ha0. right. exact Ha0.
    + subst msg'. exists (hc ++ new). split; [rewrite length_app; lia|].
      split; [intros a0 Ha0 _; by apply lookup_app_l|]. reflexivity.
Qed.

Lemma fieldsLoop_sim m lo :
  m < d ->
  forall trest rest L U hc trc done tdone,
    sep (fun Q => frepr Q hc m) L U rest trest ->
    lo <= L -> U <= length hc ->
    Forall2 (frepr (fun a => lo <= a /\ ~ (L <= a < U)) hc m) done tdone ->
    exists hc' o,
      fieldsLoop leaf rec key tagName tagVal rest (length done) (done ++ rest)
                 (mkState hc trc)
      = Some (o, mkState hc' (trc ++ fst (pFields leaf (pStruct leaf key tagName tagVal)
                                                  key tagName tagVal trest))) /\
      length hc <= length hc' /\
      (forall a, a < lo -> hc' !! a = hc !! a) /\
      match snd (pFields leaf (pStruct leaf key tagName tagVal) key tagName tagVal trest), o with
      | Val (None, trest'), Val (None, output') =>
          Forall2 (frepr (fun a => lo <= a) hc' m) output' (tdone ++ trest')
      | Val (Some e, _), Val (Some e', _) => e = e'
      | Panicked msg, Panicked msg' => msg = msg'
      | _, _ => False
      end.
Proof.
  intros Hm. induction trest as [|[sf tx] trest IH];
    intros rest L U hc trc done tdone Hsep HL HU Hdone.
  - apply sep_nil_inv in Hsep as [-> _].
    exists hc, (Val (None, done ++ [])). simpl. rewrite !app_nil_r.
    split; [reflexivity|]. split; [lia|]. split; [done|].
    eapply Forall2_impl; [exact Hdone|]. intros f ft. apply frepr_mono. tauto.
  - apply sep_cons_inv in Hsep as ([sf' x] & xs & mid & -> & HLm & [Hsf Hx] & Hsep).
    simpl in Hsf, Hx. subst sf'.
    pose proof (sep_le _ _ _ _ _ Hsep) as HmU.
    destruct (field_step m (fun a => L <= a < mid) hc trc sf x tx xs (length done)
                (done ++ (sf, x) :: xs) Hm Hx) as (hc' & Hlen & Hag & Hstep).
    { intros a Ha. lia. }
    { by apply list_lookup_middle. }
    cbn [pFields].
    destruct (pField leaf (pStruct leaf key tagName tagVal) key tagName tagVal sf tx)
      as [evf [[[e|] tx']|msg]] eqn:Epf; cbn [fst snd] in Hstep |- *.
    + destruct Hstep as [out' Hstep]. exists hc', (Val (Some e, out')).
      split; [exact Hstep|]. split; [exact Hlen|]. split; [|done].
      intros a Ha. apply Hag; lia.
    + destruct Hstep as (x' & Hx' & Hstep). rewrite Hstep. clear Hstep.
      rewrite insert_app_r_alt by lia. rewrite Nat.sub_diag. simpl.
      destruct (IH xs mid U hc' (trc ++ evf) (done ++ [(sf, x')]) (tdone ++ [(sf, tx')]))
        as (hc'' & o & Hrun & Hlen' & Hag' & Hres).
      * eapply sep_impl; [|exact Hsep].
        intros L' U' f ft HL' HU'. apply frepr_ext.
        intros a y Ha Hy. rewrite Hag; [done| by eapply lookup_lt_Some | simpl; lia].
      * lia.
      * lia.
      * apply Forall2_app.
        -- eapply Forall2_impl; [exact Hdone|]. intros f ft Hf.
           eapply frepr_mono; [|eapply frepr_ext; [|exact Hf]].
           ++ simpl. intros a. lia.
           ++ simpl. intros a y Ha Hy.
              rewrite Hag; [done| by eapply lookup_lt_Some | simpl; lia].
        -- constructor; [|constructor]. split; [done|]. simpl.
           eapply repr_mono; [|exact Hx']. simpl. intros a. lia.
      * rewrite length_app in Hrun. simpl in Hrun.
        rewrite Nat.add_1_r in Hrun. rewrite <- app_assoc in Hrun. simpl in Hrun.
        exists hc'', o. rewrite app_assoc. split; [exact Hrun|].
        split; [lia|]. split.
        { intros a Ha. rewrite Hag' by done. apply Hag; lia. }
        destruct (pFields leaf (pStruct leaf key tagName tagVal) key tagName tagVal trest)
          as [evs [[[e|] trest']|msg]]; cbn [fst snd] in Hres |- *;
          destruct o as [[[e'|] output']|msg']; try done.
        by rewrite <- app_assoc in Hres.
    + exists hc', (Panicked msg).
      split; [exact Hstep|]. split; [exact Hlen|]. split; [|done].
      intros a Ha. apply Hag; lia.
Qed.
End Simulation.


(** ** The struct traversal *)

Lemma agree_prefix (h h' : list value) :
  (forall a, a < length h -> h' !! a = h !! a) -> length h <= length h' ->
  exists new, h' = h ++ new.
Proof.
  intros Hag Hlen. exists (drop (length h) h').
  rewrite <- (take_drop (length h) h') at 1. f_equal.
  apply list_eq. intros a.
  destruct (decide (a < length h)) as [Ha|Ha].
  - rewrite lookup_take_lt by done. by apply Hag.
  - rewrite lookup_take_ge by lia. symmetry. apply lookup_ge_None. lia.
Qed.

Lemma Copy_run f v h tr v' h' :
  deepCopy f v (mkState h (tr ++ [EvCopy])) = Some (Val v', mkState h' (tr ++ [EvCopy])) ->
  Copy f v (mkState h tr) = Some (Val v', mkState h' (tr ++ [EvCopy])).
Proof. intros H. unfold Copy, bind, log. simpl. by rewrite H. Qed.

Lemma deepCopy_ptr f h tr a x x' new :
  h !! a = Some x ->
  deepCopy f x (mkState h tr) = Some (Val x', mkState (h ++ new) tr) ->
  deepCopy (S f) (VPtr (Some a)) (mkState h tr)
  = Some (Val (VPtr (Some (length (h ++ new)))), mkState ((h ++ new) ++ [x']) tr).
Proof.
  intros Ha Hcp. simpl. erewrite bind_val; [|by apply load_val].
  erewrite bind_val; [|exact Hcp]. reflexivity.
Qed.

Lemma deepCopy_struct f h tr tname fs fts n P :
  Forall2 (frepr P h n) fs fts -> n <= f ->
  exists new fs',
    deepCopy (S f) (VStruct tname fs) (mkState h tr)
    = Some (Val (VStruct tname fs'), mkState (h ++ new) tr) /\
    sep (fun Q => frepr Q (h ++ new) n) (length h) (length h + length new) fs' fts.
Proof.
  intros HF Hn.
  destruct (copy_fields_sep f (deepCopy_ok f) n P fs fts h tr HF Hn)
    as (new & fs' & Hm & Hsep).
  exists new, fs'. split; [|exact Hsep].
  simpl. erewrite bind_val; [|exact Hm]. reflexivity.
Qed.

Section StructSim.
Variable leaf : cipher.
Variables key tagName tagVal : string.
Variable rec : value -> string -> string -> string -> M (value * option error).
Variable f : nat.
Hypothesis Hrec : struct_sim leaf key tagName tagVal rec f.

Lemma structBody_sim n P h tr input t :
  repr P h n input t -> n <= f ->
  exists new o,
    structBody leaf rec key tagName tagVal f input (mkState h tr)
    = Some (o, mkState (h ++ new) (tr ++ fst (pStruct leaf key tagName tagVal t))) /\
    sim_result (length h) (h ++ new) n input (snd (pStruct leaf key tagName tagVal t)) o.
Proof.
  intros Hr Hn.
  destruct (deepCopy_ok f n P h (tr ++ [EvCopy]) input t Hr Hn) as (new1 & v' & Hcp & Hv').
  apply Copy_run in Hcp.
  inversion Hr; subst.
  - (* nil interface *)
    inversion Hv'; subst. exists new1, (Panicked msgTypeOnZero).
    unfold structBody. erewrite bind_val; [|exact Hcp]. simpl. done.
  - inversion Hv'; subst. exists new1, (Val (VBool b, Some errNotStruct)).
    unfold structBody. erewrite bind_val; [|exact Hcp]. simpl. done.
  - inversion Hv'; subst. exists new1, (Val (VInt z, Some errNotStruct)).
    unfold structBody. erewrite bind_val; [|exact Hcp]. simpl. done.
  - inversion Hv'; subst. exists new1, (Val (VString s, Some errNotStruct)).
    unfold structBody. erewrite bind_val; [|exact Hcp]. simpl. done.
  - inversion Hv'; subst. exists new1, (Panicked msgTypeOnZero).
    unfold structBody. erewrite bind_val; [|exact Hcp]. simpl. done.
  - (* pointer *)
    clear new1 v' Hcp Hv'. destruct f as [|f']; [lia|].
    inversion H1; subst.
    8: { (* to a struct *)
      destruct f' as [|f'']; [lia|].
      destruct (deepCopy_struct f'' h (tr ++ [EvCopy]) tname fs fts n P H2 ltac:(lia))
        as (new1 & fs' & Hcp & Hsep).
      pose proof (deepCopy_ptr _ _ _ _ _ _ _ H0 Hcp) as Hcp'. apply Copy_run in Hcp'.
      destruct (fieldsLoop_sim leaf key tagName tagVal rec (S (S f'')) Hrec n (length h)
                  ltac:(lia) fts fs' (length h) (length h + length new1)
                  ((h ++ new1) ++ [VStruct tname fs']) (tr ++ [EvCopy]) [] [])
        as (hc' & o & Hrun & Hlen & Hag & Hres).
      { eapply sep_impl; [|exact Hsep]. intros L' U' x y _ _ [? ?]. split; [done|].
        by apply repr_app. }
      { lia. }
      { rewrite !length_app. simpl. lia. }
      { constructor. }
      simpl in Hrun.
      destruct (agree_prefix h hc') as [new Hnew].
      { intros a0 Ha0. rewrite Hag by done. rewrite <- app_assoc. by apply lookup_app_l. }
      { rewrite !length_app in Hlen. lia. }
      assert (Hbody : structBody leaf rec key tagName tagVal (S (S f'')) (VPtr (Some a))
                (mkState h tr)
              = match o with
                | Val (Some e, _) =>
                    Some (Val (VPtr (Some a), Some e),
                          mkState hc' (tr ++ fst (pStruct leaf key tagName tagVal
                                                   (TRef (TRec tname fts)))))
                | Val (None, out) =>
                    Some (Val (VPtr (Some (length hc')), None),
                          mkState (hc' ++ [VStruct tname out])
                            (tr ++ fst (pStruct leaf key tagName tagVal
                                          (TRef (TRec tname fts)))))
                | Panicked msg =>
                    Some (Panicked msg,
                          mkState hc' (tr ++ fst (pStruct leaf key tagName tagVal
                                                   (TRef (TRec tname fts)))))
                end).
      { unfold structBody. erewrite bind_val; [|exact Hcp'].
        cbn [Value_Type Kind reflect.eqb]. 
        unfold bind at 1. unfold ret at 1. cbv beta iota.
        erewrite bind_val.
        2:{ erewrite bind_val; [reflexivity|]. apply load_val.
            by apply list_lookup_middle. }
        cbn [Value_Type]. unfold bind at 1. unfold ret at 1. cbv beta iota.
        cbn [pStruct fst]. rewrite <- (app_assoc tr [EvCopy]) in Hrun. simpl in Hrun.
        destruct o as [[[e|] out]|msg].
        - erewrite bind_val; [|exact Hrun]. reflexivity.
        - erewrite bind_val; [|exact Hrun]. reflexivity.
        - erewrite bind_panicked; [|exact Hrun]. reflexivity. }
      rewrite Hbody. clear Hbody. cbn [pStruct fst snd].
      destruct (pFields leaf (pStruct leaf key tagName tagVal) key tagName tagVal fts)
        as [evs [[[e|] fts']|msg]]; cbn [fst snd] in Hres |- *;
        destruct o as [[[e'|] out]|msg']; try done.
      + subst e'. exists new, (Val (VPtr (Some a), Some e)).
        rewrite Hnew. split; [reflexivity|]. simpl. done.
      + exists (new ++ [VStruct tname out]), (Val (VPtr (Some (length hc')), None)).
        rewrite app_assoc, <- Hnew. split; [reflexivity|]. simpl.
        eapply repr_ref with (x := VStruct tname out).
        * rewrite Hnew, length_app. lia.
        * by apply list_lookup_middle.
        * constructor. eapply Forall2_impl; [exact Hres|].
          intros x y [? ?]. split; [done|]. by apply repr_app.
      + subst msg'. exists new, (Panicked msg). rewrite Hnew. split; reflexivity. }
    all: destruct (deepCopy_ok f' _ P h (tr ++ [EvCopy]) _ _ H1 ltac:(lia))
           as (new1 & x' & Hcp & Hx');
         pose proof (deepCopy_ptr _ _ _ _ _ _ _ H0 Hcp) as Hcp'; apply Copy_run in Hcp';
         inversion Hx'; subst;
         eexists (new1 ++ [_]), _; rewrite app_assoc;
         unfold structBody; (erewrite bind_val; [|exact Hcp']);
         cbn [Value_Type Kind reflect.eqb]; unfold bind at 1; unfold ret at 1;
         cbv beta iota;
         (erewrite bind_val;
          [|erewrite bind_val; [reflexivity|]; apply load_val; by apply list_lookup_middle]);
         simpl; (split; [reflexivity|done]).
  - (* slice *)
    inversion Hv'; subst. exists new1, (Val (VSlice base (length xs), Some errNotStruct)).
    unfold structBody. erewrite bind_val; [|exact Hcp]. simpl. done.
  - (* struct *)
    clear new1 v' Hcp Hv'. destruct f as [|f']; [lia|].
    destruct (deepCopy_struct f' h (tr ++ [EvCopy]) tname fs fts n0 P H ltac:(lia))
      as (new1 & fs' & Hcp & Hsep).
    apply Copy_run in Hcp.
    destruct (fieldsLoop_sim leaf key tagName tagVal rec (S f') Hrec n0 (length h)
                ltac:(lia) fts fs' (length h) (length h + length new1)
                (h ++ new1) (tr ++ [EvCopy]) [] [])
      as (hc' & o & Hrun & Hlen & Hag & Hres).
    { exact Hsep. }
    { lia. }
    { rewrite !length_app. lia. }
    { constructor. }
    simpl in Hrun.
    destruct (agree_prefix h hc') as [new Hnew].
    { intros a0 Ha0. rewrite Hag by done. by apply lookup_app_l. }
    { rewrite !length_app in Hlen. lia. }
    assert (Hbody : structBody leaf rec key tagName tagVal (S f') (VStruct tname fs)
              (mkState h tr)
            = match o with
              | Val (Some e, _) =>
                  Some (Val (VStruct tname fs, Some e),
                        mkState hc' (tr ++ fst (pStruct leaf key tagName tagVal
                                                 (TRec tname fts))))
              | Val (None, out) =>
                  Some (Val (VStruct tname out, None),
                        mkState hc' (tr ++ fst (pStruct leaf key tagName tagVal
                                                 (TRec tname fts))))
              | Panicked msg =>
                  Some (Panicked msg,
                        mkState hc' (tr ++ fst (pStruct leaf key tagName tagVal
                                                 (TRec tname fts))))
              end).
    { unfold structBody. erewrite bind_val; [|exact Hcp].
      cbn [Value_Type Kind reflect.eqb]. unfold bind at 1. unfold ret at 1.
      cbv beta iota. unfold bind at 1. unfold ret at 1. cbv beta iota.
      cbn [Value_Type]. unfold bind at 1. unfold ret at 1. cbv beta iota.
      cbn [pStruct fst]. rewrite <- (app_assoc tr [EvCopy]) in Hrun. simpl in Hrun.
      destruct o as [[[e|] out]|msg].
      - erewrite bind_val; [|exact Hrun]. reflexivity.
      - erewrite bind_val; [|exact Hrun]. reflexivity.
      - erewrite bind_panicked; [|exact Hrun]. reflexivity. }
    rewrite Hbody. clear Hbody. cbn [pStruct fst snd].
    destruct (pFields leaf (pStruct leaf key tagName tagVal) key tagName tagVal fts)
      as [evs [[[e|] fts']|msg]]; cbn [fst snd] in Hres |- *;
      destruct o as [[[e'|] out]|msg']; try done.
    + subst e'. exists new, (Val (VStruct tname fs, Some e)).
      rewrite Hnew. split; [reflexivity|]. simpl. done.
    + exists new, (Val (VStruct tname out, None)).
      rewrite <- Hnew. split; [reflexivity|]. simpl.
      constructor. exact Hres.
    + subst msg'. exists new, (Panicked msg). rewrite Hnew. split; reflexivity.
Qed.
End StructSim.


(** ** The slice traversal *)

Section SliceSim.
Variable leaf : cipher.
Variables key tagName tagVal : string.
Variable rec : value -> string -> string -> string -> M (value * option error).
Variable d : nat.
Hypothesis Hrec : struct_sim leaf key tagName tagVal rec d.

Lemma item_step m Q hc trc x tx base i n' :
  m < d ->
  repr Q hc m x tx ->
  (forall a, Q a -> a < length hc) ->
  ~ Q (base + i) ->
  hc !! (base + i) = Some x ->
  exists hc',
    length hc <= length hc' /\
    (forall a, a < length hc -> a <> base + i -> hc' !! a = hc !! a) /\
    match snd (pItem (pStruct leaf key tagName tagVal) tx) with
    | Val (None, tx') =>
        exists x',
          hc' !! (base + i) = Some x' /\
          repr (fun a => Q a \/ length hc <= a) hc' m x' tx' /\
          sliceLoop rec key tagName tagVal base i (S n') (mkState hc trc)
          = sliceLoop rec key tagName tagVal base (S i) n'
              (mkState hc' (trc ++ fst (pItem (pStruct leaf key tagName tagVal) tx)))
    | Val (Some e, _) =>
        sliceLoop rec key tagName tagVal base i (S n') (mkState hc trc)
        = Some (Val (Some e),
                mkState hc' (trc ++ fst (pItem (pStruct leaf key tagName tagVal) tx)))
    | Panicked msg =>
        sliceLoop rec key tagName tagVal base i (S n') (mkState hc trc)
        = Some (Panicked msg,
                mkState hc' (trc ++ fst (pItem (pStruct leaf key tagName tagVal) tx)))
    end.
Proof.
  intros Hm Hx HQ HnQ Hcell.
  assert (Hlt : base + i < length hc) by (by eapply lookup_lt_Some).
  destruct (tIsStruct tx || tIsStructPtr tx) eqn:Ek.
  - (* the struct traversal is called on the element *)
    assert (Hk : reflect.eqb (Kind x) reflect.Struct = false ->
                 isPtrTo reflect.Struct x (mkState hc trc) = Some (Val true, mkState hc trc)).
    { intros Hns. erewrite isPtrTo_run; [|exact Hx].
      erewrite repr_Kind in Hns; [|exact Hx].
      destruct tx as [| | | | |[]| |]; simpl in *; try discriminate; reflexivity. }
    destruct (Hrec _ _ _ trc _ _ Hx Hm) as (new & o & Hrun & Hsim).
    remember (pStruct leaf key tagName tagVal tx) as ps eqn:Hps.
    assert (Hloop : sliceLoop rec key tagName tagVal base i (S n') (mkState hc trc)
              = match o with
                | Val (r, Some e) => Some (Val (Some e), mkState (hc ++ new) (trc ++ fst ps))
                | Val (r, None) =>
                    sliceLoop rec key tagName tagVal base (S i) n'
                      (mkState (<[base + i := r]> (hc ++ new)) (trc ++ fst ps))
                | Panicked msg => Some (Panicked msg, mkState (hc ++ new) (trc ++ fst ps))
                end).
    { cbn [sliceLoop]. erewrite bind_val; [|by apply load_val].
      destruct (reflect.eqb (Kind x) reflect.Struct) eqn:Eks.
      - destruct o as [[r [e|]]|msg].
        + erewrite bind_val; [|exact Hrun]. reflexivity.
        + erewrite bind_val; [|exact Hrun]. simpl.
          erewrite bind_val; [reflexivity|]. apply store_val with (y := x).
          by apply lookup_app_l_Some.
        + erewrite bind_panicked; [|exact Hrun]. reflexivity.
      - erewrite bind_val; [|by apply Hk].
        destruct o as [[r [e|]]|msg].
        + erewrite bind_val; [|exact Hrun]. reflexivity.
        + erewrite bind_val; [|exact Hrun]. simpl.
          erewrite bind_val; [reflexivity|]. apply store_val with (y := x).
          by apply lookup_app_l_Some.
        + erewrite bind_panicked; [|exact Hrun]. reflexivity. }
    rewrite Hloop. clear Hloop. unfold pItem. rewrite Ek. rewrite <- Hps.
    destruct ps as [evs [[t' [e|]]|msg]]; destruct o as [[r [e'|]]|msg'];
      simpl in Hsim; try contradiction; cbn [fst snd].
    + destruct Hsim as [-> ->].
      exists (hc ++ new). split; [rewrite length_app; lia|].
      split; [intros a0 Ha0 _; by apply lookup_app_l|]. reflexivity.
    + exists (<[base + i := r]> (hc ++ new)).
      split; [rewrite length_insert, length_app; lia|].
      split.
      { intros a0 Ha0 Hn. rewrite list_lookup_insert_ne by done.
        by apply lookup_app_l. }
      exists r. split; [|split; [|reflexivity]].
      * apply list_lookup_insert_eq. rewrite length_app. lia.
      * eapply repr_mono; [|apply repr_insert; [|exact Hsim]].
        -- intros a0 Ha0. right. exact Ha0.
        -- simpl. lia.
    + subst msg'. exists (hc ++ new). split; [rewrite length_app; lia|].
      split; [intros a0 Ha0 _; by apply lookup_app_l|]. reflexivity.
  - (* any other element is left as it is *)
    exists hc. split; [lia|]. split; [done|].
    unfold pItem. rewrite Ek. cbn [fst snd].
    exists x. split; [done|]. split; [eapply repr_mono; [|exact Hx]; auto|].
    rewrite app_nil_r. cbn [sliceLoop]. erewrite bind_val; [|by apply load_val].
    erewrite repr_Kind; [|exact Hx].
    destruct (reflect.eqb (tKind tx) reflect.Struct) eqn:Eks.
    { destruct tx; simpl in *; discriminate. }
    erewrite bind_val; [|eapply isPtrTo_run; exact Hx].
    destruct (tPtrTo reflect.Struct tx) eqn:Ep; [|reflexivity].
    destruct tx as [| | | | |[]| |]; simpl in *; discriminate.
Qed.

Lemma sliceLoop_sim m lo base W :
  m < d ->
  forall ts xs i L U hc trc done tdone,
    sep (fun Q => repr Q hc m) L U xs ts ->
    (forall j x, xs !! j = Some x -> hc !! (base + (i + j)) = Some x) ->
    lo <= L -> U <= base -> base + (i + length xs) <= W -> W <= length hc ->
    length done = i ->
    (forall j y, done !! j = Some y -> hc !! (base + j) = Some y) ->
    Forall2 (repr (fun a => lo <= a /\ ~ (L <= a < W)) hc m) done tdone ->
    exists hc' o,
      sliceLoop rec key tagName tagVal base i (length xs) (mkState hc trc)
      = Some (o, mkState hc' (trc ++ fst (pItems (pStruct leaf key tagName tagVal) ts))) /\
      length hc <= length hc' /\
      (forall a, a < lo -> hc' !! a = hc !! a) /\
      match snd (pItems (pStruct leaf key tagName tagVal) ts), o with
      | Val (None, ts'), Val None =>
          exists outs,
            length outs = i + length xs /\
            (forall j y, outs !! j = Some y -> hc' !! (base + j) = Some y) /\
            Forall2 (repr (fun a => lo <= a) hc' m) outs (tdone ++ ts')
      | Val (Some e, _), Val (Some e') => e = e'
      | Panicked msg, Panicked msg' => msg = msg'
      | _, _ => False
      end.
Proof.
  intros Hm. induction ts as [|tx ts IH];
    intros xs i L U hc trc done tdone Hsep Hcells HL HU HW HWl Hdl Hdc Hdone.
  - apply sep_nil_inv in Hsep as [-> _].
    exists hc, (Val None). simpl. rewrite !app_nil_r.
    split; [reflexivity|]. split; [lia|]. split; [done|].
    exists done. split; [lia|]. split; [exact Hdc|].
    eapply Forall2_impl; [exact Hdone|]. intros x y. apply repr_mono. tauto.
  - apply sep_cons_inv in Hsep as (x & xs' & mid & -> & HLm & Hx & Hsep).
    pose proof (sep_le _ _ _ _ _ Hsep) as HmU. simpl in HW.
    destruct (item_step m (fun a => L <= a < mid) hc trc x tx base i (length xs') Hm Hx)
      as (hc' & Hlen & Hag & Hstep).
    { intros a Ha. lia. }
    { lia. }
    { specialize (Hcells 0 x eq_refl). by rewrite Nat.add_0_r in Hcells. }
    cbn [pItems length].
    destruct (pItem (pStruct leaf key tagName tagVal) tx)
      as [evf [[[e|] tx']|msg]] eqn:Epf; cbn [fst snd] in Hstep |- *.
    + exists hc', (Val (Some e)).
      split; [exact Hstep|]. split; [exact Hlen|]. split; [|done].
      intros a Ha. apply Hag; lia.
    + destruct Hstep as (x' & Hcell' & Hx' & Hstep). rewrite Hstep. clear Hstep.
      destruct (IH xs' (S i) mid U hc' (trc ++ evf) (done ++ [x']) (tdone ++ [tx']))
        as (hc'' & o & Hrun & Hlen' & Hag' & Hres).
      * eapply sep_impl; [|exact Hsep].
        intros L' U' y ty HL' HU'. apply repr_ext.
        intros a z Ha Hz. rewrite Hag; [done| by eapply lookup_lt_Some | lia].
      * intros j y Hy. rewrite Hag.
        -- replace (base + (S i + j)) with (base + (i + S j)) by lia. by apply Hcells.
        -- apply lookup_lt_Some in Hy. lia.
        -- lia.
      * lia.
      * lia.
      * lia.
      * lia.
      * rewrite length_app. simpl. lia.
      * intros j y Hy. destruct (decide (j < length done)) as [Hj|Hj].
        -- rewrite lookup_app_l in Hy by done. rewrite Hag; [by apply Hdc| |lia].
           specialize (Hdc j y Hy). by eapply lookup_lt_Some.
        -- rewrite lookup_app_r in Hy by lia.
           destruct (j - length done) as [|k] eqn:Ek; simpl in Hy; [|done].
           simplify_eq. replace j with (length done) by lia. exact Hcell'.
      * apply Forall2_app.
        -- eapply Forall2_impl; [exact Hdone|]. intros y ty Hy.
           eapply repr_mono; [|eapply repr_ext; [|exact Hy]].
           ++ simpl. intros a. lia.
           ++ simpl. intros a z Ha Hz.
              rewrite Hag; [done| by eapply lookup_lt_Some | lia].
        -- constructor; [|constructor].
           eapply repr_mono; [|exact Hx']. simpl. intros a. lia.
      * exists hc'', o. rewrite app_assoc. split; [exact Hrun|].
        split; [lia|]. split.
        { intros a Ha. rewrite Hag' by done. apply Hag; lia. }
        destruct (pItems (pStruct leaf key tagName tagVal) ts)
          as [evs [[[e|] ts']|msg]]; cbn [fst snd] in Hres |- *;
          destruct o as [[e'|]|msg']; try done.
        destruct Hres as (outs & Hol & Hoc & HoF).
        exists outs. split; [lia|]. split; [exact Hoc|].
        by rewrite <- app_assoc in HoF.
    + exists hc', (Panicked msg).
      split; [exact Hstep|]. split; [exact Hlen|]. split; [|done].
      intros a Ha. apply Hag; lia.
Qed.

Lemma sliceBody_sim n P h tr input t :
  repr P h n input t -> n <= d ->
  exists new o,
    sliceBody rec key tagName tagVal d input (mkState h tr)
    = Some (o, mkState (h ++ new) (tr ++ fst (pSlice leaf key tagName tagVal t))) /\
    sim_result (length h) (h ++ new) n input (snd (pSlice leaf key tagName tagVal t)) o.
Proof.
  intros Hr Hn.
  destruct (deepCopy_ok d n P h (tr ++ [EvCopy]) input t Hr Hn) as (new1 & v' & Hcp & Hv').
  apply Copy_run in Hcp.
  inversion Hr; subst.
  1-6,8: inversion Hv'; subst; eexists new1, _;
    unfold sliceBody; (erewrite bind_val; [|exact Hcp]); simpl; done.
  (* slice *)
  clear new1 v' Hcp Hv'.
  assert (Hd : exists f', d = S f' /\ n0 <= f').
  { destruct d as [|f']; [lia|]. exists f'. split; [done|lia]. }
  destruct Hd as (f' & Hd & Hf').
  destruct (copy_items_sep f' (deepCopy_ok f') n0 P base xs ts 0 h (tr ++ [EvCopy]))
    as (new1 & xs' & Hm & Hsep); [by intros i x Hx; apply H0|done|lia|].
  assert (Hxl : length xs' = length xs).
  { apply sep_Forall2 in Hsep as [_ HF]; [|intros; by eapply repr_mono].
    apply Forall2_length in HF. apply Forall2_length in H1. congruence. }
  assert (Hcp : Copy d (VSlice base (length xs)) (mkState h tr)
                = Some (Val (VSlice (length (h ++ new1)) (length xs)),
                        mkState ((h ++ new1) ++ xs') (tr ++ [EvCopy]))).
  { rewrite Hd. apply Copy_run. simpl. erewrite bind_val; [|exact Hm]. reflexivity. }
  destruct (sliceLoop_sim n0 (length h) (length (h ++ new1))
              (length (h ++ new1) + length xs') ltac:(lia) ts xs' 0 (length h)
              (length h + length new1) ((h ++ new1) ++ xs') (tr ++ [EvCopy]) [] [])
    as (hc' & o & Hrun & Hlen & Hag & Hres).
  { eapply sep_impl; [|exact Hsep]. intros L' U' x y _ _. apply repr_app. }
  { intros j x Hx. simpl. rewrite lookup_app_r by lia.
    by replace (length (h ++ new1) + j - length (h ++ new1)) with j by lia. }
  { lia. }
  { rewrite length_app. lia. }
  { simpl. lia. }
  { rewrite !length_app. lia. }
  { reflexivity. }
  { intros j y Hy. done. }
  { constructor. }
  destruct (agree_prefix h hc') as [new Hnew].
  { intros a0 Ha0. rewrite Hag by done. rewrite <- app_assoc. by apply lookup_app_l. }
  { rewrite !length_app in Hlen. lia. }
  rewrite Hxl in Hrun. rewrite <- (app_assoc tr [EvCopy]) in Hrun. simpl in Hrun.
  unfold sliceBody. erewrite bind_val; [|exact Hcp]. cbn [pSlice fst snd].
  destruct (pItems (pStruct leaf key tagName tagVal) ts)
    as [evs [[[e|] ts']|msg]]; cbn [fst snd] in Hres, Hrun |- *;
    destruct o as [[e'|]|msg']; try done.
  - subst e'. exists new, (Val (VSlice base (length xs), Some e)).
    erewrite bind_val; [|exact Hrun]. rewrite Hnew. split; [reflexivity|]. simpl. done.
  - destruct Hres as (outs & Hol & Hoc & HoF).
    exists new, (Val (VSlice (length (h ++ new1)) (length xs), None)).
    erewrite bind_val; [|exact Hrun]. rewrite <- Hnew. split; [reflexivity|]. simpl.
    eapply repr_seq with (xs := outs).
    + simpl in Hol. lia.
    + intros j y Hy. split; [rewrite length_app; lia|]. by apply Hoc.
    + exact HoF.
  - subst msg'. exists new, (Panicked msg).
    erewrite bind_panicked; [|exact Hrun]. rewrite Hnew. split; reflexivity.
Qed.
End SliceSim.


(** ** The entry points *)

Lemma sim_result_agrees lo h' n input po o :
  sim_result lo h' n input po o -> agrees h' n input po o.
Proof.
  destruct po as [[t' [e|]]|m], o as [[out [e'|]]|m']; simpl; try done.
  apply repr_snapshot.
Qed.

Lemma eqb_key key : key <> "" -> String.eqb key "" = false.
Proof. intros H. by apply String.eqb_neq. Qed.

Lemma StructEncryptTag_sim Encrypt key tagName tagVal fuel :
  key <> "" ->
  struct_sim Encrypt key tagName tagVal (StructEncryptTag Encrypt fuel) fuel.
Proof.
  intros Hk. induction fuel as [|f IH]; intros n P h tr input t Hr Hn; [lia|].
  simpl. rewrite (eqb_key _ Hk).
  apply (structBody_sim Encrypt key tagName tagVal _ f IH n P); [done|lia].
Qed.

Lemma StructDecryptTag_sim Decrypt key tagName tagVal fuel :
  key <> "" ->
  struct_sim Decrypt key tagName tagVal (StructDecryptTag Decrypt fuel) fuel.
Proof.
  intros Hk. induction fuel as [|f IH]; intros n P h tr input t Hr Hn; [lia|].
  simpl. rewrite (eqb_key _ Hk).
  apply (structBody_sim Decrypt key tagName tagVal _ f IH n P); [done|lia].
Qed.


Section InterfaceSim.
Variable leaf : cipher.
Variables key tagName tagVal : string.
Variable structF sliceF : nat -> value -> string -> string -> string -> M (value * option error).
Variable fuel : nat.
Hypothesis Hkey : key <> "".
Hypothesis Hstruct : struct_sim leaf key tagName tagVal (structF fuel) fuel.
Hypothesis Hslice :
  forall n P h tr input t,
    repr P h n input t -> n <= fuel ->
    exists new o,
      sliceF fuel input key tagName tagVal (mkState h tr)
      = Some (o, mkState (h ++ new) (tr ++ fst (pSlice leaf key tagName tagVal t))) /\
      sim_result (length h) (h ++ new) n input (snd (pSlice leaf key tagName tagVal t)) o.

Lemma orInput_agrees input m st st' o lo n po :
  m st = Some (o, st') ->
  sim_result lo (heap st') n input po o ->
  exists o', orInput input m st = Some (o', st') /\ agrees (heap st') n input po o'.
Proof.
  intros Hm Hs. unfold orInput.
  destruct po as [[t' [e|]]|msg], o as [[out [e'|]]|msg']; simpl in Hs; try done.
  - destruct Hs as [-> ->]. eexists. erewrite bind_val; [|exact Hm]. simpl. done.
  - eexists. erewrite bind_val; [|exact Hm]. simpl. split; [reflexivity|].
    simpl. by eapply repr_snapshot.
  - subst. eexists. erewrite bind_panicked; [|exact Hm]. done.
Qed.

Lemma interfaceBody_sim n P h tr input t :
  repr P h n input t -> n < fuel ->
  exists new o,
    interfaceBody structF sliceF fuel input key tagName tagVal (mkState h tr)
    = Some (o, mkState (h ++ new) (tr ++ fst (pInterface leaf key tagName tagVal t))) /\
    agrees (h ++ new) n input (snd (pInterface leaf key tagName tagVal t)) o.
Proof.
  intros Hr Hn. unfold interfaceBody, pInterface. rewrite (eqb_key _ Hkey).
  erewrite repr_Kind; [|exact Hr].
  destruct (reflect.eqb (tKind t) reflect.Struct) eqn:Eks.
  { replace (tIsStruct t || tIsStructPtr t) with true by (by destruct t).
    destruct (Hstruct n P h tr input t Hr Hn) as (new & o & Hrun & Hsim).
    destruct (orInput_agrees input _ _ _ _ _ _ _ Hrun Hsim) as (o' & Ho & Hag).
    eauto. }
  erewrite bind_val; [|eapply isPtrTo_run; exact Hr].
  destruct (tPtrTo reflect.Struct t) eqn:Ep.
  { replace (tIsStruct t || tIsStructPtr t) with true
      by (by destruct t as [| | | | |[]| |]).
    destruct (Hstruct n P h tr input t Hr Hn) as (new & o & Hrun & Hsim).
    destruct (orInput_agrees input _ _ _ _ _ _ _ Hrun Hsim) as (o' & Ho & Hag).
    eauto. }
  replace (tIsStruct t || tIsStructPtr t) with false
    by (by destruct t as [| | | | |[]| |]).
  destruct (reflect.eqb (tKind t) reflect.Slice) eqn:Esl.
  { destruct t; try discriminate.
    destruct (Hslice n P h tr input _ Hr ltac:(lia)) as (new & o & Hrun & Hsim).
    destruct (orInput_agrees input _ _ _ _ _ _ _ Hrun Hsim) as (o' & Ho & Hag).
    eauto. }
  exists [], (Val (input, None)).
  destruct t; try discriminate; simpl; rewrite !app_nil_r;
    (split; [reflexivity|by eapply repr_snapshot]).
Qed.
End InterfaceSim.

Theorem Transform_sim Encrypt Decrypt dir e fuel n h tr input key tagName tagVal t :
  key <> "" -> snapshot n h input = Some t -> n < fuel ->
  exists new o,
    Transform Encrypt Decrypt dir e fuel input key tagName tagVal (mkState h tr)
    = Some (o, mkState (h ++ new)
                 (tr ++ fst (pTransform (leafOf Encrypt Decrypt dir) e key tagName tagVal t))) /\
    agrees (h ++ new) n input
           (snd (pTransform (leafOf Encrypt Decrypt dir) e key tagName tagVal t)) o.
Proof.
  intros Hk Hs Hn. apply snapshot_repr in Hs.
  destruct dir, e; simpl.
  - destruct (StructEncryptTag_sim Encrypt key tagName tagVal fuel Hk _ _ h tr _ _ Hs Hn)
      as (new & o & Hrun & Hsim).
    exists new, o. split; [exact Hrun|]. by eapply sim_result_agrees.
  - unfold StructSliceEncryptTag. rewrite (eqb_key _ Hk).
    destruct (sliceBody_sim Encrypt key tagName tagVal _ fuel
                (StructEncryptTag_sim Encrypt key tagName tagVal fuel Hk) _ _ h tr _ _ Hs
                ltac:(lia)) as (new & o & Hrun & Hsim).
    exists new, o. split; [exact Hrun|]. by eapply sim_result_agrees.
  - eapply interfaceBody_sim; eauto using StructEncryptTag_sim.
    intros. unfold StructSliceEncryptTag. rewrite (eqb_key _ Hk).
    eapply sliceBody_sim; eauto using StructEncryptTag_sim.
  - destruct (StructDecryptTag_sim Decrypt key tagName tagVal fuel Hk _ _ h tr _ _ Hs Hn)
      as (new & o & Hrun & Hsim).
    exists new, o. split; [exact Hrun|]. by eapply sim_result_agrees.
  - unfold StructSliceDecryptTag. rewrite (eqb_key _ Hk).
    destruct (sliceBody_sim Decrypt key tagName tagVal _ fuel
                (StructDecryptTag_sim Decrypt key tagName tagVal fuel Hk) _ _ h tr _ _ Hs
                ltac:(lia)) as (new & o & Hrun & Hsim).
    exists new, o. split; [exact Hrun|]. by eapply sim_result_agrees.
  - eapply interfaceBody_sim; eauto using StructDecryptTag_sim.
    intros. unfold StructSliceDecryptTag. rewrite (eqb_key _ Hk).
    eapply sliceBody_sim; eauto using StructDecryptTag_sim.
Qed.


(** ** The traversal of a snapshot *)

Lemma tsize_field (sf : StructField) x (fs : list (StructField * tree)) :
  In (sf, x) fs -> tsize x <= list_sum (map (fun f : StructField * tree => tsize (snd f)) fs).
Proof.
  induction fs as [|[sf' y] fs IH]; simpl; [done|].
  intros [Heq|Hin]; [simplify_eq; lia|]. specialize (IH Hin). lia.
Qed.

Lemma tsize_item x (ts : list tree) : In x ts -> tsize x <= list_sum (map tsize ts).
Proof.
  induction ts as [|y ts IH]; simpl; [done|].
  intros [Heq|Hin]; [simplify_eq; lia|]. specialize (IH Hin). lia.
Qed.

Section Reported.
Variable leaf : cipher.
Variables key tagName tagVal : string.

Local Abbreviation pS := (pStruct leaf key tagName tagVal).

Local Abbreviation rep := (reported leaf key tagName tagVal).

Lemma pField_reported sf x :
  (tIsStruct x = true -> rep x) ->
  (forall y, x = TRef y -> tIsStruct y = true -> rep y) ->
  forall s er,
    In (EvCipher s key) (fst (pField leaf pS key tagName tagVal sf x)) ->
    snd (leaf s key) = Some er ->
    exists x', snd (pField leaf pS key tagName tagVal sf x) = Val (Some er, x').
Proof.
  intros Hx Hy s er. unfold pField.
  destruct (tIsTime x); [simpl; tauto|].
  destruct (tIsTimePtr x); [simpl; tauto|].
  destruct x as [| | |s0| |y| |tname fs]; try (simpl; tauto).
  - destruct (String.eqb (Tag_Get (Tag sf) tagName) tagVal); [|simpl; tauto].
    simpl. intros [Heq|[]] Hs. simplify_eq. rewrite Hs. eauto.
  - destruct y as [| | |s0| | | |tname fs]; try (simpl; tauto).
    + destruct (String.eqb (Tag_Get (Tag sf) tagName) tagVal); [|simpl; tauto].
      simpl. intros [Heq|[]] Hs. simplify_eq. rewrite Hs. eauto.
    + destruct (Exported sf); [|simpl; tauto]. cbn [fst snd]. intros Hin Hs.
      destruct (Hy _ eq_refl eq_refl s er Hin Hs) as [t' ->]. eauto.
  - destruct (Exported sf); [|simpl; tauto]. cbn [fst snd]. intros Hin Hs.
    destruct (Hx eq_refl s er Hin Hs) as [t' ->]. eauto.
Qed.

Lemma pFields_reported fs :
  (forall sf x, In (sf, x) fs ->
     (tIsStruct x = true -> rep x) /\
     (forall y, x = TRef y -> tIsStruct y = true -> rep y)) ->
  forall s er,
    In (EvCipher s key) (fst (pFields leaf pS key tagName tagVal fs)) ->
    snd (leaf s key) = Some er ->
    exists fs', snd (pFields leaf pS key tagName tagVal fs) = Val (Some er, fs').
Proof.
  induction fs as [|[sf x] fs IH]; intros Hsub s er; [simpl; tauto|].
  cbn [pFields].
  pose proof (pField_reported sf x (proj1 (Hsub sf x (or_introl eq_refl)))
                (proj2 (Hsub sf x (or_introl eq_refl))) s er) as Hf.
  destruct (pField leaf pS key tagName tagVal sf x) as [evf [[[e|] x']|msg]];
    cbn [fst snd] in *.
  - intros Hin Hs. destruct (Hf Hin Hs) as [x'' Heq]. simplify_eq. eauto.
  - intros Hin Hs. apply in_app_or in Hin as [Hin|Hin].
    + destruct (Hf Hin Hs) as [x'' Heq]. simplify_eq.
    + destruct (IH (fun sf' x0 H => Hsub sf' x0 (or_intror H)) s er Hin Hs) as [fs' ->].
      eauto.
  - intros Hin Hs. destruct (Hf Hin Hs) as [x'' Heq]. simplify_eq.
Qed.

Lemma pStruct_reported t : rep t.
Proof.
  remember (tsize t) as n eqn:Hn. revert t Hn.
  induction n as [n IH] using lt_wf_ind. intros t Hn.
  assert (Hsub : forall tname fs, tsize (TRec tname fs) <= n ->
            forall sf x, In (sf, x) fs ->
              (tIsStruct x = true -> rep x) /\
              (forall y, x = TRef y -> tIsStruct y = true -> rep y)).
  { intros tname fs Hle sf x Hin. apply tsize_field in Hin. simpl in Hle. split.
    - intros _. eapply IH; [|reflexivity]. lia.
    - intros y -> _. simpl in Hin. eapply IH; [|reflexivity]. lia. }
  intros s er.
  destruct t as [| | | | |y| |tname fs]; try (simpl; intros [Heq|[]]; discriminate).
  - destruct y as [| | | | | | |tname fs]; try (simpl; intros [Heq|[]]; discriminate).
    cbn [pStruct fst snd]. intros [Heq|Hin] Hs; [discriminate|].
    destruct (pFields_reported fs (Hsub tname fs ltac:(simpl in *; lia)) s er Hin Hs)
      as [fs' ->]. eauto.
  - cbn [pStruct fst snd]. intros [Heq|Hin] Hs; [discriminate|].
    destruct (pFields_reported fs (Hsub tname fs ltac:(simpl in *; lia)) s er Hin Hs)
      as [fs' ->]. eauto.
Qed.

Lemma pItems_reported ts :
  forall s er,
    In (EvCipher s key) (fst (pItems pS ts)) -> snd (leaf s key) = Some er ->
    exists ts', snd (pItems pS ts) = Val (Some er, ts').
Proof.
  induction ts as [|x ts IH]; intros s er; [simpl; tauto|].
  cbn [pItems].
  assert (Hf : In (EvCipher s key) (fst (pItem pS x)) -> snd (leaf s key) = Some er ->
               exists x', snd (pItem pS x) = Val (Some er, x')).
  { unfold pItem. destruct (tIsStruct x || tIsStructPtr x); [|simpl; tauto].
    cbn [fst snd]. intros Hin Hs.
    destruct (pStruct_reported x s er Hin Hs) as [t' ->]. eauto. }
  destruct (pItem pS x) as [evf [[[e|] x']|msg]]; cbn [fst snd] in *.
  - intros Hin Hs. destruct (Hf Hin Hs) as [x'' Heq]. simplify_eq. eauto.
  - intros Hin Hs. apply in_app_or in Hin as [Hin|Hin].
    + destruct (Hf Hin Hs) as [x'' Heq]. simplify_eq.
    + destruct (IH s er Hin Hs) as [ts' ->]. eauto.
  - intros Hin Hs. destruct (Hf Hin Hs) as [x'' Heq]. simplify_eq.
Qed.

Lemma pTransform_reported e t s er :
  In (EvCipher s key) (fst (pTransform leaf e key tagName tagVal t)) ->
  snd (leaf s key) = Some er ->
  exists t', snd (pTransform leaf e key tagName tagVal t) = Val (t', Some er).
Proof.
  assert (Hsl : forall t0, In (EvCipher s key) (fst (pSlice leaf key tagName tagVal t0)) ->
            snd (leaf s key) = Some er ->
            exists t', snd (pSlice leaf key tagName tagVal t0) = Val (t', Some er)).
  { intros t0. destruct t0; try (simpl; intros [Heq|[]]; discriminate).
    cbn [pSlice fst snd]. intros [Heq|Hin] Hs; [discriminate|].
    destruct (pItems_reported ts s er Hin Hs) as [ts' ->]. eauto. }
  destruct e; simpl.
  - apply pStruct_reported.
  - apply Hsl.
  - unfold pInterface. destruct (tIsStruct t || tIsStructPtr t).
    + apply pStruct_reported.
    + destruct t; try (simpl; tauto). apply Hsl.
Qed.
End Reported.

Lemma pStruct_rec_shape leaf key tagName tagVal tname fs t' :
  snd (pStruct leaf key tagName tagVal (TRec tname fs)) = Val (t', None) ->
  exists fs',
    t' = TRec tname fs' /\
    snd (pFields leaf (pStruct leaf key tagName tagVal) key tagName tagVal fs) = Val (None, fs').
Proof.
  cbn [pStruct snd].
  destruct (snd (pFields leaf (pStruct leaf key tagName tagVal) key tagName tagVal fs))
    as [[[e|] fs']|msg]; intros H; simplify_eq. eauto.
Qed.

Section RoundTrip.
Variables Encrypt Decrypt : cipher.
Variables key tagName tagVal : string.
Hypothesis Hrt : forall s c, Encrypt s key = (c, None) -> Decrypt c key = (s, None).

Local Abbreviation pE := (pStruct Encrypt key tagName tagVal).
Local Abbreviation pD := (pStruct Decrypt key tagName tagVal).

Local Abbreviation rt := (roundtrip Encrypt Decrypt key tagName tagVal).

Lemma pField_roundtrip sf x x' :
  (tIsStruct x = true -> rt x) ->
  (forall y, x = TRef y -> tIsStruct y = true -> rt y) ->
  snd (pField Encrypt pE key tagName tagVal sf x) = Val (None, x') ->
  snd (pField Decrypt pD key tagName tagVal sf x') = Val (None, x).
Proof.
  intros Hx Hy. unfold pField.
  destruct (tIsTime x) eqn:Et.
  { simpl. intros H. simplify_eq. rewrite ?Et. done. }
  destruct (tIsTimePtr x) eqn:Etp.
  { simpl. intros H. simplify_eq. rewrite ?Et, ?Etp. done. }
  destruct x as [| | |s0| |y| |tname fs]; try (simpl; intros H; simplify_eq; done).
  - destruct (String.eqb (Tag_Get (Tag sf) tagName) tagVal) eqn:Etag.
    2: { simpl. intros H. simplify_eq. simpl. by rewrite ?Etag. }
    simpl. destruct (Encrypt s0 key) as [c [e|]] eqn:Ee; simpl; [done|].
    destruct (Exported sf) eqn:Eexp; [|done]. intros H. simplify_eq.
    simpl. rewrite ?Etag. rewrite (Hrt _ _ Ee). simpl. by rewrite ?Eexp.
  - destruct y as [| | |s0| | | |tname fs]; try (simpl; intros H; simplify_eq; done).
    + destruct (String.eqb (Tag_Get (Tag sf) tagName) tagVal) eqn:Etag.
      2: { simpl. intros H. simplify_eq. simpl. by rewrite ?Etag. }
      simpl. destruct (Encrypt s0 key) as [c [e|]] eqn:Ee; simpl; [done|].
      destruct (Exported sf) eqn:Eexp; [|done]. intros H. simplify_eq.
      simpl. rewrite ?Etag. rewrite (Hrt _ _ Ee). simpl. by rewrite ?Eexp.
    + destruct (Exported sf) eqn:Eexp; [|done]. cbn [snd].
      destruct (snd (pE (TRec tname fs))) as [[y' [e|]]|msg] eqn:Ey; try done.
      intros H. simplify_eq.
      pose proof (Hy _ eq_refl eq_refl _ Ey) as Hd.
      apply pStruct_rec_shape in Ey as (fs' & -> & _).
      simpl in Etp. cbn [tIsTime tIsTimePtr]. rewrite ?Etp. rewrite ?Eexp. cbn [snd].
      by rewrite Hd.
  - destruct (Exported sf) eqn:Eexp; [|done]. cbn [snd].
    destruct (snd (pE (TRec tname fs))) as [[y' [e|]]|msg] eqn:Ey; try done.
    intros H. simplify_eq.
    pose proof (Hx eq_refl _ Ey) as Hd.
    apply pStruct_rec_shape in Ey as (fs' & -> & _).
    simpl in Et. cbn [tIsTime tIsTimePtr]. rewrite ?Et. rewrite ?Eexp. cbn [snd].
    by rewrite Hd.
Qed.

Lemma pFields_roundtrip fs :
  (forall sf x, In (sf, x) fs ->
     (tIsStruct x = true -> rt x) /\
     (forall y, x = TRef y -> tIsStruct y = true -> rt y)) ->
  forall fs',
    snd (pFields Encrypt pE key tagName tagVal fs) = Val (None, fs') ->
    snd (pFields Decrypt pD key tagName tagVal fs') = Val (None, fs).
Proof.
  induction fs as [|[sf x] fs IH]; intros Hsub fs'.
  - simpl. intros H. by simplify_eq.
  - cbn [pFields].
    pose proof (pField_roundtrip sf x) as Hf.
    destruct (snd (pField Encrypt pE key tagName tagVal sf x)) as [[[e|] x']|msg];
      cbn [snd]; try done.
    destruct (snd (pFields Encrypt pE key tagName tagVal fs)) as [[[e|] fs'']|msg] eqn:Er;
      try done.
    intros H. simplify_eq. cbn [pFields].
    rewrite (Hf x' (proj1 (Hsub sf x (or_introl eq_refl)))
                (proj2 (Hsub sf x (or_introl eq_refl))) eq_refl).
    cbn [snd]. rewrite (IH (fun sf' x0 H => Hsub sf' x0 (or_intror H)) fs'' eq_refl).
    done.
Qed.

Lemma pStruct_roundtrip t : rt t.
Proof.
  remember (tsize t) as n eqn:Hn. revert t Hn.
  induction n as [n IH] using lt_wf_ind. intros t Hn.
  assert (Hsub : forall tname fs, tsize (TRec tname fs) <= n ->
            forall sf x, In (sf, x) fs ->
              (tIsStruct x = true -> rt x) /\
              (forall y, x = TRef y -> tIsStruct y = true -> rt y)).
  { intros tname fs Hle sf x Hin. apply tsize_field in Hin. simpl in Hle. split.
    - intros _. eapply IH; [|reflexivity]. lia.
    - intros y -> _. simpl in Hin. eapply IH; [|reflexivity]. lia. }
  intros t'.
  destruct t as [| | | | |y| |tname fs]; try (simpl; done).
  - destruct y as [| | | | | | |tname fs]; try (simpl; done).
    cbn [pStruct snd].
    destruct (snd (pFields Encrypt pE key tagName tagVal fs)) as [[[e|] fs']|msg] eqn:Ef;
      try done.
    intros H. simplify_eq. cbn [pStruct snd].
    by rewrite (pFields_roundtrip fs (Hsub tname fs ltac:(simpl in *; lia)) fs' Ef).
  - cbn [pStruct snd].
    destruct (snd (pFields Encrypt pE key tagName tagVal fs)) as [[[e|] fs']|msg] eqn:Ef;
      try done.
    intros H. simplify_eq. cbn [pStruct snd].
    by rewrite (pFields_roundtrip fs (Hsub tname fs ltac:(simpl in *; lia)) fs' Ef).
Qed.
End RoundTrip.

Section Skipped.
Variable leaf : cipher.
Variable prec : tree -> list event * outcome (tree * option error).
Variables key tagName tagVal : string.

Local Abbreviation pF := (pFields leaf prec key tagName tagVal).

Lemma pFields_skip pre sf x post :
  pField leaf prec key tagName tagVal sf x = ([], Val (None, x)) ->
  fst (pF (pre ++ (sf, x) :: post)) = fst (pF (pre ++ post)) /\
  snd (pF (pre ++ (sf, x) :: post)) = putBack (length pre) (sf, x) (snd (pF (pre ++ post))).
Proof.
  intros Hskip. induction pre as [|[sf0 x0] pre [IH1 IH2]].
  - simpl. rewrite Hskip. simpl.
    destruct (snd (pF post)) as [[[e|] fs']|msg]; simpl; done.
  - simpl.
    destruct (pField leaf prec key tagName tagVal sf0 x0) as [evf [[[e|] x0']|msg]];
      simpl; try done.
    rewrite IH1, IH2.
    destruct (snd (pF (pre ++ post))) as [[[e|] fs']|msg]; simpl; done.
Qed.

End Skipped.


(** ** The generic and the [interface{}] functions *)


Section Ext.
Variable leaf : cipher.
Variables rec1 rec2 : value -> string -> string -> string -> M (value * option error).
Variables key tagName tagVal : string.
Hypothesis Hrec : forall x st, rec1 x key tagName tagVal st = rec2 x key tagName tagVal st.


End Ext.


(** * Properties of the entry points *)

Lemma Transform_empty_key Encrypt Decrypt dir e fuel x tagName tagVal st :
  Transform Encrypt Decrypt dir e fuel x "" tagName tagVal st = Some (Val (x, None), st).
Proof. destruct dir, e; destruct fuel; reflexivity. Qed.

Lemma snapshot_app n h new x t :
  snapshot n h x = Some t -> snapshot n (h ++ new) x = Some t.
Proof.
  intros H. apply snapshot_repr in H. eapply repr_snapshot. by apply repr_app.
Qed.



(** C2: whatever the key, the tag and the direction, a call of an entry
    point on a value of the store returns (with enough fuel) in a store that
    is the one it started from with cells added after it: no cell that was
    there is written, and every value of the store, the caller's argument and
    all it reaches among them, has the snapshot it had. [Copy] is the deep
    copy of section 4.1 of the specification. *)
Theorem caller_value_unchanged
        Encrypt Decrypt dir e fuel n h tr input key tagName tagVal t :
  snapshot n h input = Some t -> n < fuel ->
  exists o new evs,
    Transform Encrypt Decrypt dir e fuel input key tagName tagVal (mkState h tr)
    = Some (o, mkState (h ++ new) (tr ++ evs)) /\
    forall m x tx, snapshot m h x = Some tx -> snapshot m (h ++ new) x = Some tx.
Proof.
  intros Hs Hn. destruct (String.eqb_spec key "") as [->|Hk].
  - exists (Val (input, None)), [], []. rewrite !app_nil_r. split.
    + apply Transform_empty_key.
    + intros m x tx Hx. exact Hx.
  - destruct (Transform_sim Encrypt Decrypt dir e fuel n h tr input key tagName tagVal t
                Hk Hs Hn) as (new & o & Hrun & _).
    exists o, new, (fst (pTransform (leafOf Encrypt Decrypt dir) e key tagName tagVal t)).
    split; [exact Hrun|]. intros m x tx. apply snapshot_app.
Qed.

Lemma caller_value_unchanged_witness :
  (snapshot 4 demoHeap demoUser = Some demoUserTree /\ 4 < 5) /\
  exists o new evs,
    Transform demoEncrypt demoDecrypt Encryption OfInterface 5 demoUser "k" "encrypt" "true"
              (mkState demoHeap [])
    = Some (o, mkState (demoHeap ++ new) ([] ++ evs)) /\
    forall m x tx, snapshot m demoHeap x = Some tx -> snapshot m (demoHeap ++ new) x = Some tx.
Proof.
  split; [split; [reflexivity|lia]|].
  apply (caller_value_unchanged demoEncrypt demoDecrypt Encryption OfInterface 5 4
           demoHeap [] demoUser "k" "encrypt" "true" demoUserTree); [reflexivity|lia].
Defined.

(** C3 does not hold of [InterfaceEncryptTag]: for the number 5, a root that
    is neither a struct nor a slice, it returns the number and no error. *)
Lemma interface_passes_a_number_through :
  InterfaceEncryptTag demoEncrypt 1 (VInt 5) "k" "encrypt" "true" (mkState [] [])
  = Some (Val (VInt 5, None), mkState [] []) /\
  ~ (exists err st',
       InterfaceEncryptTag demoEncrypt 1 (VInt 5) "k" "encrypt" "true" (mkState [] [])
       = Some (Val (VInt 5, Some err), st')).
Proof.
  split; [reflexivity|]. intros (err & st' & H). vm_compute in H. discriminate.
Qed.

(** C3, amended: for a non-empty key and a root that, once a root pointer is
    followed, is neither a struct nor a slice (and is not nil), the struct
    functions return the input with "input is not a struct", the slice
    functions return the input with "input is not a slice", and the
    [Interface] functions return the input with no error, without copying
    it. *)
Theorem plain_root_result
        Encrypt Decrypt dir e fuel n h tr input key tagName tagVal t :
  key <> "" -> snapshot n h input = Some t -> n < fuel -> plainRoot t = true ->
  exists new,
    Transform Encrypt Decrypt dir e fuel input key tagName tagVal (mkState h tr)
    = Some (Val (input, plainRootError e), mkState (h ++ new) (tr ++ plainRootEvents e)).
Proof.
  intros Hk Hs Hn Hp.
  destruct (Transform_sim Encrypt Decrypt dir e fuel n h tr input key tagName tagVal t
              Hk Hs Hn) as (new & o & Hrun & Hag).
  assert (Hpt : pTransform (leafOf Encrypt Decrypt dir) e key tagName tagVal t
                = (plainRootEvents e, Val (t, plainRootError e))).
  { destruct e; destruct t as [| | | | |[]| |]; try discriminate; reflexivity. }
  rewrite Hpt in Hrun, Hag. cbn [fst snd] in Hrun, Hag.
  destruct e; cbn [plainRootError] in *;
    destruct o as [[out [e'|]]|msg]; simpl in Hag; try done.
  - destruct Hag as [<- ->]. eauto.
  - destruct Hag as [<- ->]. eauto.
  - (* the dispatch returns its input *)
    exists new. rewrite Hrun. repeat f_equal.
    revert Hrun. unfold Transform.
    assert (Hi : forall structF sliceF,
               interfaceBody structF sliceF fuel input key tagName tagVal (mkState h tr)
               = Some (Val (input, None), mkState h tr)).
    { intros structF sliceF. unfold interfaceBody. rewrite (eqb_key _ Hk).
      apply snapshot_repr in Hs.
      erewrite repr_Kind; [|exact Hs].
      destruct (reflect.eqb (tKind t) reflect.Struct) eqn:E1;
        [destruct t; discriminate|].
      erewrite bind_val; [|eapply isPtrTo_run; exact Hs].
      destruct (tPtrTo reflect.Struct t) eqn:E2;
        [destruct t as [| | | | |[]| |]; discriminate|].
      destruct (reflect.eqb (tKind t) reflect.Slice) eqn:E3;
        [destruct t; discriminate|]. reflexivity. }
    destruct dir; unfold InterfaceEncryptTag, InterfaceDecryptTag; rewrite Hi;
      intros H; by simplify_eq.
Qed.

Lemma plain_root_result_witness :
  ("k" <> "" /\ snapshot 2 demoHeap (VPtr (Some 3)) = Some (TRef (TInt 7)) /\ 2 < 3 /\
   plainRoot (TRef (TInt 7)) = true) /\
  exists new,
    Transform demoEncrypt demoDecrypt Decryption OfStruct 3 (VPtr (Some 3)) "k" "encrypt" "true"
              (mkState demoHeap [])
    = Some (Val (VPtr (Some 3), plainRootError OfStruct),
            mkState (demoHeap ++ new) ([] ++ plainRootEvents OfStruct)).
Proof.
  split; [split; [discriminate|split; [reflexivity|split; [lia|reflexivity]]]|].
  apply (plain_root_result demoEncrypt demoDecrypt Decryption OfStruct 3 2
           demoHeap [] (VPtr (Some 3)) "k" "encrypt" "true" (TRef (TInt 7)));
    [discriminate|reflexivity|lia|reflexivity].
Defined.

(** C4: with the empty key every entry point, generic or on [interface{}],
    returns its input and no error and leaves the state as it is: nothing is
    copied and the cipher is not called. It does so with any fuel, the test
    of the key coming first. *)
Theorem empty_key_is_no_op Encrypt Decrypt dir e fuel x tagName tagVal st :
  Transform Encrypt Decrypt dir e fuel x "" tagName tagVal st = Some (Val (x, None), st) /\
  StructEncryptTagInterface Encrypt fuel x "" tagName tagVal st = Some (Val (x, None), st) /\
  StructSliceEncryptTagInterface Encrypt fuel x "" tagName tagVal st = Some (Val (x, None), st) /\
  InterfaceEncryptTagInterface Encrypt fuel x "" tagName tagVal st = Some (Val (x, None), st).
Proof.
  repeat split; try (destruct dir, e); destruct fuel; reflexivity.
Qed.


(** A field on which the loop does nothing: the run on the struct is the
    traversal of the struct without the field, with the field put back. *)
Lemma struct_field_passed_over
      Encrypt Decrypt dir fuel n h tr input key tagName tagVal tname pre sf x post :
  key <> "" ->
  snapshot n h input = Some (TRec tname (pre ++ (sf, x) :: post)) ->
  n < fuel ->
  pField (leafOf Encrypt Decrypt dir)
         (pStruct (leafOf Encrypt Decrypt dir) key tagName tagVal) key tagName tagVal sf x
  = ([], Val (None, x)) ->
  exists o new,
    Transform Encrypt Decrypt dir OfStruct fuel input key tagName tagVal (mkState h tr)
    = Some (o, mkState (h ++ new)
                 (tr ++ fst (pStruct (leafOf Encrypt Decrypt dir) key tagName tagVal
                                     (TRec tname (pre ++ post))))) /\
    agreesPutBack (length pre) (sf, x) (h ++ new) n input
                  (snd (pStruct (leafOf Encrypt Decrypt dir) key tagName tagVal
                                (TRec tname (pre ++ post)))) o.
Proof.
  intros Hk Hs Hn Hskip.
  destruct (Transform_sim Encrypt Decrypt dir OfStruct fuel n h tr input key tagName tagVal _
              Hk Hs Hn) as (new & o & Hrun & Hag).
  destruct (pFields_skip _ _ _ _ _ pre sf x post Hskip) as [Hfst Hsnd].
  exists o, new. cbn [pTransform pStruct fst snd] in *.
  rewrite Hfst in Hrun. split; [exact Hrun|].
  rewrite Hsnd in Hag.
  destruct (snd (pFields (leafOf Encrypt Decrypt dir)
                         (pStruct (leafOf Encrypt Decrypt dir) key tagName tagVal)
                         key tagName tagVal (pre ++ post))) as [[[e|] fs']|msg];
    simpl in Hag |- *; destruct o as [[out [e'|]]|msg']; simpl in Hag |- *; done.
Qed.

(** C6: for a non-empty key and a struct with a field of type [time.Time]
    or [*time.Time], tagged or not, exported or not, the encrypting and the
    decrypting traversal do on the struct what they do on the struct without
    that field: the same events (so no call of the cipher and no traversal
    for the field), the same error or panic; and in the value returned the
    field has the snapshot it had in the input. *)
Theorem time_fields_are_passed_over
        Encrypt Decrypt dir fuel n h tr input key tagName tagVal tname pre sf x post :
  key <> "" ->
  snapshot n h input = Some (TRec tname (pre ++ (sf, x) :: post)) ->
  n < fuel ->
  tTimeTyped x = true ->
  exists o new,
    Transform Encrypt Decrypt dir OfStruct fuel input key tagName tagVal (mkState h tr)
    = Some (o, mkState (h ++ new)
                 (tr ++ fst (pStruct (leafOf Encrypt Decrypt dir) key tagName tagVal
                                     (TRec tname (pre ++ post))))) /\
    agreesPutBack (length pre) (sf, x) (h ++ new) n input
                  (snd (pStruct (leafOf Encrypt Decrypt dir) key tagName tagVal
                                (TRec tname (pre ++ post)))) o.
Proof.
  intros Hk Hs Hn Ht. apply struct_field_passed_over; try done.
  unfold tTimeTyped in Ht. unfold pField.
  destruct (tIsTime x); [reflexivity|].
  destruct (tIsTimePtr x); [reflexivity|].
  destruct x; try discriminate. simpl.
  by destruct (String.eqb (Tag_Get (Tag sf) tagName) tagVal).
Qed.

Lemma time_fields_are_passed_over_witness :
  ("k" <> "" /\
   snapshot 4 demoHeap demoUser
   = Some (TRec "main.User"
             (demoFront ++ (demoField "At" true, demoTime) :: [(demoField "Nick" true, TNilPtr)])) /\
   4 < 5 /\ tTimeTyped demoTime = true) /\
  exists o new,
    Transform demoEncrypt demoDecrypt Encryption OfStruct 5 demoUser "k" "encrypt" "true"
              (mkState demoHeap [])
    = Some (o, mkState (demoHeap ++ new)
                 ([] ++ fst (pStruct demoEncrypt "k" "encrypt" "true"
                               (TRec "main.User"
                                  (demoFront ++ [(demoField "Nick" true, TNilPtr)]))))) /\
    agreesPutBack (length demoFront) (demoField "At" true, demoTime)
      (demoHeap ++ new) 4 demoUser
      (snd (pStruct demoEncrypt "k" "encrypt" "true"
              (TRec "main.User" (demoFront ++ [(demoField "Nick" true, TNilPtr)])))) o.
Proof.
  split; [split; [discriminate|split; [reflexivity|split; [lia|reflexivity]]]|].
  apply (time_fields_are_passed_over demoEncrypt demoDecrypt Encryption 5 4 demoHeap []
           demoUser "k" "encrypt" "true" "main.User" demoFront
           (demoField "At" true) demoTime [(demoField "Nick" true, TNilPtr)]);
    [discriminate|reflexivity|lia|reflexivity].
Defined.





(** C8: let the cipher decrypt under the key what it encrypted under it. For
    a non-empty key and a struct [x] of the store, if [StructEncryptTag]
    returns a value [y] and no error, then [StructDecryptTag] of [y], with
    the same key and tag, returns a value and no error, and that value has
    the snapshot of [x]: every tagged string has the text it had, and every
    other field is as it was. *)
Theorem decrypt_after_encrypt
        Encrypt Decrypt fuel n h tr x key tagName tagVal tname fs y st1 :
  key <> "" ->
  (forall s c, Encrypt s key = (c, None) -> Decrypt c key = (s, None)) ->
  snapshot n h x = Some (TRec tname fs) ->
  n < fuel ->
  StructEncryptTag Encrypt fuel x key tagName tagVal (mkState h tr)
  = Some (Val (y, None), st1) ->
  exists z st2,
    StructDecryptTag Decrypt fuel y key tagName tagVal st1 = Some (Val (z, None), st2) /\
    snapshot n (heap st2) z = Some (TRec tname fs).
Proof.
  intros Hk Hrt Hs Hn Henc.
  destruct (Transform_sim Encrypt Decrypt Encryption OfStruct fuel n h tr x key tagName tagVal
              _ Hk Hs Hn) as (new & o & Hrun & Hag).
  cbn [Transform pTransform leafOf] in Hrun, Hag. rewrite Henc in Hrun.
  injection Hrun as <- ->.
  destruct (snd (pStruct Encrypt key tagName tagVal (TRec tname fs)))
    as [[t' [e|]]|msg] eqn:Hp; simpl in Hag; try done.
  pose proof (pStruct_roundtrip Encrypt Decrypt key tagName tagVal Hrt _ _ Hp) as Hd.
  destruct (Transform_sim Encrypt Decrypt Decryption OfStruct fuel n (h ++ new)
              (tr ++ fst (pStruct Encrypt key tagName tagVal (TRec tname fs)))
              y key tagName tagVal _ Hk Hag Hn) as (new2 & o2 & Hrun2 & Hag2).
  cbn [Transform pTransform leafOf] in Hrun2, Hag2. rewrite Hd in Hag2.
  destruct o2 as [[z [e'|]]|msg]; simpl in Hag2; try done.
  eauto.
Qed.

Lemma demo_cipher_round_trip s c :
  demoEncrypt s "k" = (c, None) -> demoDecrypt c "k" = (s, None).
Proof.
  unfold demoEncrypt. destruct (String.eqb s "bad"); [discriminate|].
  intros H. injection H as <-. reflexivity.
Defined.

Lemma decrypt_after_encrypt_witness :
  ("k" <> "" /\
   (forall s c, demoEncrypt s "k" = (c, None) -> demoDecrypt c "k" = (s, None)) /\
   snapshot 4 demoHeap demoUser = Some demoUserTree /\
   4 < 5 /\
   StructEncryptTag demoEncrypt 5 demoUser "k" "encrypt" "true" (mkState demoHeap [])
   = Some (Val (demoEncryptedUser, None), demoEncryptedState)) /\
  exists z st2,
    StructDecryptTag demoDecrypt 5 demoEncryptedUser "k" "encrypt" "true" demoEncryptedState
    = Some (Val (z, None), st2) /\
    snapshot 4 (heap st2) z = Some demoUserTree.
Proof.
  split.
  { split; [discriminate|]. split; [exact demo_cipher_round_trip|].
    split; [reflexivity|]. split; [lia|reflexivity]. }
  apply (decrypt_after_encrypt demoEncrypt demoDecrypt 5 4 demoHeap [] demoUser
           "k" "encrypt" "true" "main.User"
           (demoFront ++ [(demoField "At" true, demoTime); (demoField "Nick" true, TNilPtr)])
           demoEncryptedUser demoEncryptedState);
    [discriminate|exact demo_cipher_round_trip|reflexivity|lia|reflexivity].
Defined.

(** C9: after any calls of [SetKeyEncrypt], made one after the other from
    the start of the process (the key is nil), the key is the argument of the
    first call, the empty string if that was it, and a further call leaves
    it so. *)
Theorem first_key_wins key keys :
  SetKeyEncrypt_calls (key :: keys) None = Some key /\
  forall key', SetKeyEncrypt key' (SetKeyEncrypt_calls (key :: keys) None) = Some key.
Proof.
  assert (H : forall ks k0, SetKeyEncrypt_calls ks (Some k0) = Some k0).
  { induction ks as [|k ks IH]; intros k0; [reflexivity|]. simpl. apply IH. }
  unfold SetKeyEncrypt_calls in *. simpl. rewrite H. split; reflexivity.
Qed.



(** * Further properties of the code *)

(** ** What the traversal comes to *)

Lemma cipherCalls_app evs1 evs2 :
  cipherCalls (evs1 ++ evs2) = cipherCalls evs1 ++ cipherCalls evs2.
Proof.
  induction evs1 as [|[|s k] evs1 IH]; simpl; [done|done|by rewrite IH].
Qed.

Section TraversalSpec.
Variable leaf : cipher.
Variables key tagName tagVal : string.

Local Abbreviation pS := (pStruct leaf key tagName tagVal).
Local Abbreviation spec := (traversal_spec leaf key tagName tagVal).
Local Abbreviation img := (fun s => fst (leaf s key)).
Local Abbreviation good := (fun s => snd (leaf s key) = None).

Lemma struct_of_fields tname fs :
  fields_spec leaf key tagName tagVal fs -> spec (TRec tname fs) /\ spec (TRef (TRec tname fs)).
Proof.
  intros [Hiff (rest & Hev & Hrest)].
  assert (Hsucc : forall (w : tree -> tree) t',
             match snd (pFields leaf pS key tagName tagVal fs) with
             | Val (None, fs') => Val (w (TRec tname fs'), None)
             | Val (Some e, _) => Val (w (TRec tname fs), Some e)
             | Panicked msg => Panicked msg
             end = Val (t', None) <->
             fieldsSettable tagName tagVal fs = true /\
             Forall good (fieldsStrings tagName tagVal fs) /\
             t' = w (TRec tname (replaceFields img tagName tagVal fs))).
  { intros w t'.
    destruct (snd (pFields leaf pS key tagName tagVal fs)) as [[[e|] fs']|msg] eqn:Ef.
    - split; [done|]. intros (H1 & H2 & _).
      pose proof (proj2 (Hiff _) (conj H1 (conj H2 eq_refl))) as Hc. done.
    - split.
      + intros H. simplify_eq. by destruct (proj1 (Hiff fs') eq_refl) as (H1 & H2 & ->).
      + intros (H1 & H2 & ->).
        pose proof (proj2 (Hiff _) (conj H1 (conj H2 eq_refl))) as Hc. by simplify_eq.
    - split; [done|]. intros (H1 & H2 & _).
      pose proof (proj2 (Hiff _) (conj H1 (conj H2 eq_refl))) as Hc. done. }
  assert (Hdone : forall (w : tree -> tree) t',
             match snd (pFields leaf pS key tagName tagVal fs) with
             | Val (None, fs') => Val (w (TRec tname fs'), None)
             | Val (Some e, _) => Val (w (TRec tname fs), Some e)
             | Panicked msg => Panicked msg
             end = Val (t', None) -> rest = []).
  { intros w t'.
    destruct (snd (pFields leaf pS key tagName tagVal fs)) as [[[e|] fs']|msg] eqn:Ef;
      try done. intros _. by apply (Hrest fs'). }
  split; (split; [|exists rest; split; [exact Hev|]]).
  - intros t'. apply (Hsucc (fun y => y)).
  - intros t'. apply (Hdone (fun y => y)).
  - intros t'. apply (Hsucc TRef).
  - intros t'. apply (Hdone TRef).
Qed.

Lemma Forall_good_one s : Forall good [s] <-> snd (leaf s key) = None.
Proof.
  split; [by inversion 1|]. intros H. by constructor.
Qed.

Lemma field_of_struct sf x :
  (tIsStruct x = true -> spec x) ->
  (forall y, x = TRef y -> tIsStruct y = true -> spec y) ->
  field_spec leaf key tagName tagVal sf x.
Proof.
  intros Hx Hy. unfold field_spec, pField.
  destruct (tIsTime x) eqn:Et.
  { destruct x; try discriminate. simpl in Et. simpl. rewrite Et. simpl.
    split; [|exists []; done]. intros x'. split; [intros H; by simplify_eq|].
    intros (_ & _ & ->). done. }
  destruct (tIsTimePtr x) eqn:Etp.
  { destruct x as [| | | | |y| |]; try discriminate. simpl in Etp.
    destruct y; try discriminate. simpl in Etp. simpl. rewrite Etp. simpl.
    split; [|exists []; done]. intros x'. split; [intros H; by simplify_eq|].
    intros (_ & _ & ->). done. }
  fold (hasTag tagName tagVal sf).
  destruct x as [| | |s| |y| |tname fs].
  1-3,5,7: simpl; (split; [|exists []; done]); intros x';
    (split; [intros H; by simplify_eq|]); by intros (_ & _ & ->).
  - (* a string *)
    simpl. destruct (hasTag tagName tagVal sf); simpl.
    + split.
      * intros x'. rewrite Forall_good_one.
        destruct (snd (leaf s key)) as [e|]; [split; [done|by intros (_ & ? & _)]|].
        destruct (Exported sf); [|split; [done|by intros (? & _)]].
        split; [intros H; by simplify_eq|]. by intros (_ & _ & ->).
      * exists []. done.
    + split; [|exists []; done]. intros x'. split; [intros H; by simplify_eq|].
      by intros (_ & _ & ->).
  - (* a pointer *)
    destruct y as [| | |s| | | |tname fs].
    1-3,5-7: simpl; (split; [|exists []; done]); intros x';
      (split; [intros H; by simplify_eq|]); by intros (_ & _ & ->).
    + simpl. destruct (hasTag tagName tagVal sf); simpl.
      * split.
        -- intros x'. rewrite Forall_good_one.
           destruct (snd (leaf s key)) as [e|]; [split; [done|by intros (_ & ? & _)]|].
           destruct (Exported sf); [|split; [done|by intros (? & _)]].
           split; [intros H; by simplify_eq|]. by intros (_ & _ & ->).
        -- exists []. done.
      * split; [|exists []; done]. intros x'. split; [intros H; by simplify_eq|].
        by intros (_ & _ & ->).
    + (* a pointer to a struct *)
      destruct (Hy _ eq_refl eq_refl) as [Hiff (rest & Hev & Hrest)].
      simpl in Etp. cbn [fieldSettable fieldStrings replaceField tIsTime tIsTimePtr].
      rewrite Etp.
      change (forallb _ fs) with (settable tagName tagVal (TRec tname fs)).
      change (flat_map _ fs) with (taggedStrings tagName tagVal (TRec tname fs)).
      change (TRec tname (map _ fs))
        with (replaceTagged img tagName tagVal (TRec tname fs)).
      destruct (Exported sf); cbn [andb fst snd].
      * split.
        -- intros x'.
           destruct (snd (pS (TRec tname fs))) as [[y' [e|]]|msg] eqn:Ep.
           ++ split; [done|]. intros (H1 & H2 & _).
              by pose proof (proj2 (Hiff _) (conj H1 (conj H2 eq_refl))).
           ++ split.
              ** intros H. simplify_eq.
                 by destruct (proj1 (Hiff y') eq_refl) as (H1 & H2 & ->).
              ** intros (H1 & H2 & ->).
                 pose proof (proj2 (Hiff _) (conj H1 (conj H2 eq_refl))). by simplify_eq.
           ++ split; [done|]. intros (H1 & H2 & _).
              by pose proof (proj2 (Hiff _) (conj H1 (conj H2 eq_refl))).
        -- exists rest. split; [exact Hev|]. intros x'.
           destruct (snd (pS (TRec tname fs))) as [[y' [e|]]|msg] eqn:Ep; try done.
           intros _. by apply (Hrest y').
      * split; [intros x'; split; [done|by intros (? & _)]|].
        eexists. split; [reflexivity|done].
  - (* a struct *)
    destruct (Hx eq_refl) as [Hiff (rest & Hev & Hrest)].
    simpl in Et. cbn [fieldSettable fieldStrings replaceField tIsTime tIsTimePtr].
    rewrite Et.
    change (forallb _ fs) with (settable tagName tagVal (TRec tname fs)).
    change (flat_map _ fs) with (taggedStrings tagName tagVal (TRec tname fs)).
    change (TRec tname (map _ fs))
      with (replaceTagged img tagName tagVal (TRec tname fs)).
    destruct (Exported sf); cbn [andb fst snd].
    + split.
      * intros x'.
        destruct (snd (pS (TRec tname fs))) as [[y' [e|]]|msg] eqn:Ep.
        -- split; [done|]. intros (H1 & H2 & _).
           by pose proof (proj2 (Hiff _) (conj H1 (conj H2 eq_refl))).
        -- split.
           ++ intros H. simplify_eq.
              by destruct (proj1 (Hiff x') eq_refl) as (H1 & H2 & ->).
           ++ intros (H1 & H2 & ->).
              pose proof (proj2 (Hiff _) (conj H1 (conj H2 eq_refl))). by simplify_eq.
        -- split; [done|]. intros (H1 & H2 & _).
           by pose proof (proj2 (Hiff _) (conj H1 (conj H2 eq_refl))).
      * exists rest. split; [exact Hev|]. intros x'.
        destruct (snd (pS (TRec tname fs))) as [[y' [e|]]|msg] eqn:Ep; try done.
        intros _. by apply (Hrest y').
    + split; [intros x'; split; [done|by intros (? & _)]|].
      eexists. split; [reflexivity|done].
Qed.


Lemma fields_of_field fs :
  Forall (fun g : StructField * tree => field_spec leaf key tagName tagVal (fst g) (snd g)) fs ->
  fields_spec leaf key tagName tagVal fs.
Proof.
  induction 1 as [|[sf x] fs [Hiff (rf & Hevf & Hrf)] _ [IHiff (rr & Hevr & Hrr)]].
  { split; [|exists []; done]. intros fs'. simpl. split; [intros H; by simplify_eq|].
    by intros (_ & _ & ->). }
  cbn [fst snd] in *. unfold fields_spec.
  cbn [pFields fieldsSettable fieldsStrings replaceFields forallb flat_map map fst snd].
  change (forallb _ fs) with (fieldsSettable tagName tagVal fs).
  change (flat_map _ fs) with (fieldsStrings tagName tagVal fs).
  change (map _ fs) with (replaceFields img tagName tagVal fs).
  rewrite map_app, Hevf, Hevr.
  destruct (snd (pField leaf pS key tagName tagVal sf x)) as [[[e|] x']|msg] eqn:Ef;
    cbn [fst snd].
  - split.
    + intros fs'. split; [done|]. rewrite andb_true_iff, Forall_app.
      intros ((H1 & _) & (H2 & _) & _).
      by pose proof (proj2 (Hiff _) (conj H1 (conj H2 eq_refl))).
    + eexists. split; [by rewrite <- app_assoc|done].
  - destruct (proj1 (Hiff x') eq_refl) as (Hs & Hg & ->).
    rewrite (Hrf _ eq_refl), app_nil_r in *.
    split.
    + intros fs'. rewrite andb_true_iff, Forall_app.
      destruct (snd (pFields leaf pS key tagName tagVal fs)) as [[[e|] fs'']|msg] eqn:Er.
      * split; [done|]. intros ((_ & H1) & (_ & H2) & _).
        by pose proof (proj2 (IHiff _) (conj H1 (conj H2 eq_refl))).
      * destruct (proj1 (IHiff fs'') eq_refl) as (Hs' & Hg' & ->).
        split; [intros H; by simplify_eq|]. by intros (_ & _ & ->).
      * split; [done|]. intros ((_ & H1) & (_ & H2) & _).
        by pose proof (proj2 (IHiff _) (conj H1 (conj H2 eq_refl))).
    + exists rr. rewrite cipherCalls_app, <- app_assoc. split; [done|].
      intros fs'.
      destruct (snd (pFields leaf pS key tagName tagVal fs)) as [[[e|] fs'']|msg] eqn:Er;
        try done.
      intros _. by apply (Hrr fs'').
  - split.
    + intros fs'. split; [done|]. rewrite andb_true_iff, Forall_app.
      intros ((H1 & _) & (H2 & _) & _).
      by pose proof (proj2 (Hiff _) (conj H1 (conj H2 eq_refl))).
    + eexists. split; [by rewrite <- app_assoc|done].
Qed.

Lemma pStruct_spec t : spec t.
Proof.
  remember (tsize t) as n eqn:Hn. revert t Hn.
  induction n as [n IH] using lt_wf_ind. intros t Hn.
  assert (Hfs : forall tname fs, tsize (TRec tname fs) <= n ->
                                  fields_spec leaf key tagName tagVal fs).
  { intros tname fs Hle. apply fields_of_field, Forall_forall. intros [sf x] Hin.
    apply list_elem_of_In, tsize_field in Hin. simpl in Hle. cbn [fst snd].
    apply field_of_struct.
    - intros _. eapply IH; [|reflexivity]. lia.
    - intros y -> _. simpl in Hin. eapply IH; [|reflexivity]. lia. }
  assert (Hplain : forall t0 : tree,
             settable tagName tagVal t0 = false ->
             taggedStrings tagName tagVal t0 = [] ->
             cipherCalls (fst (pS t0)) = [] ->
             (forall t', snd (pS t0) <> Val (t', None)) -> spec t0).
  { intros t0 H1 H2 H3 H4. split.
    - intros t'. split; [intros H; by apply H4 in H|]. rewrite H1. by intros (? & _).
    - exists []. rewrite H2, H3. split; [done|]. intros t' H. by apply H4 in H. }
  destruct t as [| | | | |y| |tname fs].
  8: { apply (struct_of_fields tname fs). apply (Hfs tname). lia. }
  6: { destruct y as [| | | | | | |tname fs].
       8: { apply (struct_of_fields tname fs). apply (Hfs tname). simpl in *. lia. }
       all: by apply Hplain. }
  all: by apply Hplain.
Qed.


Lemma replaceTagged_plain t :
  tIsStructItem t = false -> replaceTagged img tagName tagVal t = t.
Proof. by destruct t as [| | | | |[]| |]. Qed.

Lemma taggedStrings_plain t :
  tIsStructItem t = false -> taggedStrings tagName tagVal t = [].
Proof. by destruct t as [| | | | |[]| |]. Qed.

Lemma pItems_spec ts : items_spec leaf key tagName tagVal ts.
Proof.
  induction ts as [|x ts [IHiff (rr & Hevr & Hrr)]].
  { split; [|exists []; done]. intros ts'. simpl. split; [intros H; by simplify_eq|].
    by intros (_ & _ & ->). }
  unfold items_spec. cbn [pItems forallb flat_map map]. unfold pItem.
  fold (tIsStructItem x).
  destruct (tIsStructItem x) eqn:Ex; cbn [negb orb fst snd].
  2: { rewrite (replaceTagged_plain x Ex), (taggedStrings_plain x Ex). cbn [app].
       split.
       - intros ts'.
         destruct (snd (pItems pS ts)) as [[[e|] ts'']|msg] eqn:Er.
         + split; [done|]. intros (H1 & H2 & _).
           by pose proof (proj2 (IHiff _) (conj H1 (conj H2 eq_refl))).
         + destruct (proj1 (IHiff ts'') eq_refl) as (Hs' & Hg' & ->).
           split; [intros H; by simplify_eq|]. by intros (_ & _ & ->).
         + split; [done|]. intros (H1 & H2 & _).
           by pose proof (proj2 (IHiff _) (conj H1 (conj H2 eq_refl))).
       - exists rr. split; [done|]. intros ts'.
         destruct (snd (pItems pS ts)) as [[[e|] ts'']|msg] eqn:Er; try done.
         intros _. by apply (Hrr ts''). }
  destruct (pStruct_spec x) as [Hiff (rf & Hevf & Hrf)].
  rewrite map_app, Hevf, Hevr.
  destruct (snd (pS x)) as [[x' [e|]]|msg] eqn:Ef; cbn [fst snd].
  - split.
    + intros ts'. split; [done|]. rewrite andb_true_iff, Forall_app.
      intros ((H1 & _) & (H2 & _) & _).
      by pose proof (proj2 (Hiff _) (conj H1 (conj H2 eq_refl))).
    + eexists. split; [by rewrite <- app_assoc|done].
  - destruct (proj1 (Hiff x') eq_refl) as (Hs & Hg & ->).
    rewrite (Hrf _ eq_refl), app_nil_r in *.
    split.
    + intros ts'. rewrite andb_true_iff, Forall_app.
      destruct (snd (pItems pS ts)) as [[[e|] ts'']|msg] eqn:Er.
      * split; [done|]. intros ((_ & H1) & (_ & H2) & _).
        by pose proof (proj2 (IHiff _) (conj H1 (conj H2 eq_refl))).
      * destruct (proj1 (IHiff ts'') eq_refl) as (Hs' & Hg' & ->).
        split; [intros H; by simplify_eq|]. by intros (_ & _ & ->).
      * split; [done|]. intros ((_ & H1) & (_ & H2) & _).
        by pose proof (proj2 (IHiff _) (conj H1 (conj H2 eq_refl))).
    + exists rr. rewrite cipherCalls_app, <- app_assoc. split; [done|].
      intros ts'.
      destruct (snd (pItems pS ts)) as [[[e|] ts'']|msg] eqn:Er; try done.
      intros _. by apply (Hrr ts'').
  - split.
    + intros ts'. split; [done|]. rewrite andb_true_iff, Forall_app.
      intros ((H1 & _) & (H2 & _) & _).
      by pose proof (proj2 (Hiff _) (conj H1 (conj H2 eq_refl))).
    + eexists. split; [by rewrite <- app_assoc|done].
Qed.

Lemma pSlice_spec t : transform_spec leaf key tagName tagVal OfSlice t.
Proof.
  unfold transform_spec. cbn [pTransform entrySettable entryStrings entryReplace].
  destruct t as [| | | | | |ts|].
  7: { destruct (pItems_spec ts) as [Hiff (rest & Hev & Hrest)].
       cbn [pSlice itemsSettable itemsStrings replaceItems fst snd cipherCalls].
       split.
       - intros t'.
         destruct (snd (pItems pS ts)) as [[[e|] ts'']|msg] eqn:Er.
         + split; [done|]. intros (H1 & H2 & _).
           by pose proof (proj2 (Hiff _) (conj H1 (conj H2 eq_refl))).
         + destruct (proj1 (Hiff ts'') eq_refl) as (Hs' & Hg' & ->).
           split; [intros H; by simplify_eq|]. by intros (_ & _ & ->).
         + split; [done|]. intros (H1 & H2 & _).
           by pose proof (proj2 (Hiff _) (conj H1 (conj H2 eq_refl))).
       - exists rest. split; [done|]. intros t'.
         destruct (snd (pItems pS ts)) as [[[e|] ts'']|msg] eqn:Er; try done.
         intros _. by apply (Hrest ts''). }
  all: (split; [intros t'; simpl; split; [done|by intros (? & _)]|exists []; done]).
Qed.

Lemma pTransform_spec e t : transform_spec leaf key tagName tagVal e t.
Proof.
  destruct e.
  - apply pStruct_spec.
  - apply pSlice_spec.
  - destruct t as [| | | | |y|ts|tname fs].
    8: exact (pStruct_spec (TRec tname fs)).
    7: exact (pSlice_spec (TSeq ts)).
    6: { destruct y as [| | | | | | |tname fs].
         8: exact (pStruct_spec (TRef (TRec tname fs))).
         all: (split; [intros t'; simpl; split; [intros H; by simplify_eq|by intros (_ & _ & ->)]
                      |exists []; done]). }
    all: (split; [intros t'; simpl; split; [intros H; by simplify_eq|by intros (_ & _ & ->)]
                 |exists []; done]).
Qed.

End TraversalSpec.







(** ** Decrypting what was encrypted, for every entry point *)

Lemma pStruct_shape leaf key tagName tagVal t t' :
  snd (pStruct leaf key tagName tagVal t) = Val (t', None) ->
  tIsStructItem t = true /\ tIsStructItem t' = true.
Proof.
  destruct t as [| | | | |y| |tname fs]; try done.
  - destruct y as [| | | | | | |tname fs]; try done. cbn [pStruct snd].
    destruct (snd (pFields _ _ _ _ _ fs)) as [[[e|] fs']|msg]; intros H; by simplify_eq.
  - cbn [pStruct snd].
    destruct (snd (pFields _ _ _ _ _ fs)) as [[[e|] fs']|msg]; intros H; by simplify_eq.
Qed.

Section RoundTripAll.
Variables Encrypt Decrypt : cipher.
Variables key tagName tagVal : string.
Hypothesis Hrt : forall s c, Encrypt s key = (c, None) -> Decrypt c key = (s, None).

Local Abbreviation pE := (pStruct Encrypt key tagName tagVal).
Local Abbreviation pD := (pStruct Decrypt key tagName tagVal).

Lemma pItems_roundtrip ts ts' :
  snd (pItems pE ts) = Val (None, ts') -> snd (pItems pD ts') = Val (None, ts).
Proof.
  revert ts'. induction ts as [|x ts IH]; intros ts'.
  { simpl. intros H. by simplify_eq. }
  cbn [pItems]. unfold pItem at 1 2. fold (tIsStructItem x).
  destruct (tIsStructItem x) eqn:Ex; cbn [fst snd].
  - destruct (snd (pE x)) as [[x' [e|]]|msg] eqn:Ep; try done.
    destruct (snd (pItems pE ts)) as [[[e|] ts'']|msg] eqn:Er; try done.
    intros H. cbn [snd] in H. simplify_eq. cbn [pItems]. unfold pItem.
    destruct (pStruct_shape _ _ _ _ _ _ Ep) as [_ Hx']. unfold tIsStructItem in Hx'.
    rewrite Hx'. cbn [fst snd].
    rewrite (pStruct_roundtrip Encrypt Decrypt key tagName tagVal Hrt x x' Ep).
    by rewrite (IH ts'' eq_refl).
  - destruct (snd (pItems pE ts)) as [[[e|] ts'']|msg] eqn:Er; try done.
    intros H. cbn [snd] in H. simplify_eq. cbn [pItems]. unfold pItem.
    unfold tIsStructItem in Ex.
    rewrite Ex. cbn [fst snd]. by rewrite (IH ts'' eq_refl).
Qed.

Lemma pTransform_roundtrip e t t' :
  snd (pTransform Encrypt e key tagName tagVal t) = Val (t', None) ->
  snd (pTransform Decrypt e key tagName tagVal t') = Val (t, None).
Proof.
  assert (Hsl : forall t t', snd (pSlice Encrypt key tagName tagVal t) = Val (t', None) ->
                             snd (pSlice Decrypt key tagName tagVal t') = Val (t, None)).
  { clear t t'. intros t t'. destruct t as [| | | | | |ts|]; try done. cbn [pSlice snd].
    destruct (snd (pItems pE ts)) as [[[er|] ts']|msg] eqn:Er; try done.
    intros H. simplify_eq. cbn [pSlice snd]. by rewrite (pItems_roundtrip ts ts' Er). }
  destruct e; cbn [pTransform].
  - apply (pStruct_roundtrip Encrypt Decrypt key tagName tagVal Hrt).
  - apply Hsl.
  - unfold pInterface.
    destruct (tIsStruct t || tIsStructPtr t) eqn:Ei.
    + intros Hp. destruct (pStruct_shape _ _ _ _ _ _ Hp) as [_ Ht'].
      unfold tIsStructItem in Ht'. rewrite Ht'.
      by apply (pStruct_roundtrip Encrypt Decrypt key tagName tagVal Hrt).
    + destruct t as [| | | | |y|ts|]; try discriminate.
      7: { intros Hp. pose proof (Hsl _ _ Hp) as Hd. revert Hp. cbn [pSlice snd].
           destruct (snd (pItems pE ts)) as [[[er|] ts']|msg]; try done.
           intros H. by simplify_eq. }
      all: intros H; cbn [snd] in H; simplify_eq; try done.
      by rewrite Ei.
Qed.
End RoundTripAll.

(** ** Fields passed over, panics, nil roots and the dispatch *)



Lemma bind_inv {A B} (m : M A) (k : A -> M B) st r st' :
  bind m k st = Some (Val r, st') ->
  exists a st1, m st = Some (Val a, st1) /\ k a st1 = Some (Val r, st').
Proof.
  unfold bind. destruct (m st) as [[[a|msg] st1]|]; try done. eauto.
Qed.

Ltac run_cases H :=
  repeat match type of H with
         | bind _ _ _ = Some (Val _, _) =>
             apply bind_inv in H; destruct H as (? & ? & _ & H)
         | (let '(_, _) := ?p in _) _ = _ => destruct p
         | (match ?v with _ => _ end) _ = _ => destruct v
         end.

Lemma structBody_error_input leaf rec key tagName tagVal fuel input st out e st' :
  structBody leaf rec key tagName tagVal fuel input st = Some (Val (out, Some e), st') ->
  out = input.
Proof.
  unfold structBody. intros H. run_cases H; unfold ret in H; by simplify_eq.
Qed.

Lemma sliceBody_error_input rec key tagName tagVal fuel input st out e st' :
  sliceBody rec key tagName tagVal fuel input st = Some (Val (out, Some e), st') ->
  out = input.
Proof.
  unfold sliceBody. intros H. run_cases H; unfold ret in H; by simplify_eq.
Qed.

Lemma Transform_error_input Encrypt Decrypt dir e fuel input key tagName tagVal st out er st' :
  e <> OfInterface ->
  Transform Encrypt Decrypt dir e fuel input key tagName tagVal st
  = Some (Val (out, Some er), st') ->
  out = input.
Proof.
  intros He.
  destruct dir, e; try done; cbn [Transform];
    unfold StructSliceEncryptTag, StructSliceDecryptTag;
    try (destruct fuel as [|fuel]; cbn [StructEncryptTag StructDecryptTag]);
    destruct (String.eqb key ""); try done;
    try (unfold ret; intros H; by simplify_eq);
    first [apply structBody_error_input | apply sliceBody_error_input].
Qed.

Lemma orInput_id input (m : M (value * option error)) st :
  (forall out er st', m st = Some (Val (out, Some er), st') -> out = input) ->
  orInput input m st = m st.
Proof.
  intros H. unfold orInput, bind.
  destruct (m st) as [[[[out [er|]]|msg] st1]|]; try done.
  by rewrite (H out er st1 eq_refl).
Qed.

(** X4: for a non-empty key, a field of a kind the loop has no branch for
    (a slice, whatever it holds; a number; a nil interface; a pointer to a
    slice, to a number or to a pointer) is passed over even when it carries
    the tag, and so is a string or a pointer to a string without the tag:
    the run does what it does on the struct without the field, and the field
    comes back as it was. The tagged strings of the structs of a slice field
    are not encrypted. *)
Theorem other_fields_are_passed_over
        Encrypt Decrypt dir fuel n h tr input key tagName tagVal tname pre sf x post :
  key <> "" ->
  snapshot n h input = Some (TRec tname (pre ++ (sf, x) :: post)) ->
  n < fuel ->
  fieldUntouched tagName tagVal sf x = true ->
  exists o new,
    Transform Encrypt Decrypt dir OfStruct fuel input key tagName tagVal (mkState h tr)
    = Some (o, mkState (h ++ new)
                 (tr ++ fst (pStruct (leafOf Encrypt Decrypt dir) key tagName tagVal
                                     (TRec tname (pre ++ post))))) /\
    agreesPutBack (length pre) (sf, x) (h ++ new) n input
                  (snd (pStruct (leafOf Encrypt Decrypt dir) key tagName tagVal
                                (TRec tname (pre ++ post)))) o.
Proof.
  intros Hk Hs Hn Hu. apply struct_field_passed_over; try done.
  unfold fieldUntouched, hasTag in Hu. unfold pField.
  destruct x as [| | |s| |[]|ts|]; simpl in *; try discriminate; try reflexivity;
    destruct (String.eqb (Tag_Get (Tag sf) tagName) tagVal); simpl in *;
    try discriminate; reflexivity.
Qed.

Lemma other_fields_are_passed_over_witness :
  ("k" <> "" /\
   snapshot 4 demoHeap demoOrder
   = Some (TRec "main.Order"
             ([(demoField "Id" false, TInt 1)] ++ (demoField "Items" true, demoItems) :: [])) /\
   4 < 5 /\
   fieldUntouched "encrypt" "true" (demoField "Items" true) demoItems = true) /\
  exists o new,
    Transform demoEncrypt demoDecrypt Encryption OfStruct 5 demoOrder "k" "encrypt" "true"
              (mkState demoHeap [])
    = Some (o, mkState (demoHeap ++ new)
                 ([] ++ fst (pStruct demoEncrypt "k" "encrypt" "true"
                               (TRec "main.Order" ([(demoField "Id" false, TInt 1)] ++ []))))) /\
    agreesPutBack (length [(demoField "Id" false, TInt 1)]) (demoField "Items" true, demoItems)
      (demoHeap ++ new) 4 demoOrder
      (snd (pStruct demoEncrypt "k" "encrypt" "true"
              (TRec "main.Order" ([(demoField "Id" false, TInt 1)] ++ [])))) o.
Proof.
  split; [split; [discriminate|split; [reflexivity|split; [lia|reflexivity]]]|].
  apply (other_fields_are_passed_over demoEncrypt demoDecrypt Encryption 5 4 demoHeap []
           demoOrder "k" "encrypt" "true" "main.Order" [(demoField "Id" false, TInt 1)]
           (demoField "Items" true) demoItems []);
    [discriminate|reflexivity|lia|reflexivity].
Defined.



(** X6: for a non-empty key and a nil root (the nil interface or a nil
    pointer), the struct functions panic, on [Type] called on the zero
    [Value], after the copy; the slice functions return the input with
    "input is not a slice"; the [Interface] functions return the input and
    no error and leave the state as it is. *)
Theorem nil_root
        Encrypt Decrypt dir fuel h tr root key tagName tagVal :
  key <> "" -> root = VNil \/ root = VPtr None -> 1 < fuel ->
  Transform Encrypt Decrypt dir OfStruct fuel root key tagName tagVal (mkState h tr)
  = Some (Panicked msgTypeOnZero, mkState h (tr ++ [EvCopy])) /\
  Transform Encrypt Decrypt dir OfSlice fuel root key tagName tagVal (mkState h tr)
  = Some (Val (root, Some errNotSlice), mkState h (tr ++ [EvCopy])) /\
  Transform Encrypt Decrypt dir OfInterface fuel root key tagName tagVal (mkState h tr)
  = Some (Val (root, None), mkState h tr).
Proof.
  intros Hk Hroot Hf.
  destruct fuel as [|[|fuel]]; try lia.
  destruct Hroot as [-> | ->]; destruct dir; cbn [Transform];
    unfold StructSliceEncryptTag, StructSliceDecryptTag,
      InterfaceEncryptTag, InterfaceDecryptTag, interfaceBody;
    cbn [StructEncryptTag StructDecryptTag]; rewrite (eqb_key _ Hk); done.
Qed.

Lemma nil_root_witness :
  ("k" <> "" /\ (VPtr None = VNil \/ VPtr None = VPtr None) /\ 1 < 2) /\
  Transform demoEncrypt demoDecrypt Encryption OfStruct 2 (VPtr None) "k" "encrypt" "true"
            (mkState demoHeap [])
  = Some (Panicked msgTypeOnZero, mkState demoHeap ([] ++ [EvCopy])) /\
  Transform demoEncrypt demoDecrypt Encryption OfSlice 2 (VPtr None) "k" "encrypt" "true"
            (mkState demoHeap [])
  = Some (Val (VPtr None, Some errNotSlice), mkState demoHeap ([] ++ [EvCopy])) /\
  Transform demoEncrypt demoDecrypt Encryption OfInterface 2 (VPtr None) "k" "encrypt" "true"
            (mkState demoHeap [])
  = Some (Val (VPtr None, None), mkState demoHeap []).
Proof.
  split; [split; [discriminate|split; [by right|lia]]|].
  apply (nil_root demoEncrypt demoDecrypt Encryption 2 demoHeap [] (VPtr None)
           "k" "encrypt" "true"); [discriminate|by right|lia].
Defined.

(** X7: let the cipher decrypt under the key what it encrypted under it. For
    a non-empty key and each of the three entry points, if the encrypting
    function returns a value [y] and no error for [x], then the decrypting
    function of the same entry point, with the same key and tag, returns for
    [y] a value and no error, and that value has the snapshot of [x]:
    structs, pointers to structs and slices alike. *)
Theorem decrypt_inverts_encrypt
        Encrypt Decrypt e fuel n h tr x key tagName tagVal t y st1 :
  key <> "" ->
  (forall s c, Encrypt s key = (c, None) -> Decrypt c key = (s, None)) ->
  snapshot n h x = Some t ->
  n < fuel ->
  Transform Encrypt Decrypt Encryption e fuel x key tagName tagVal (mkState h tr)
  = Some (Val (y, None), st1) ->
  exists z st2,
    Transform Encrypt Decrypt Decryption e fuel y key tagName tagVal st1
    = Some (Val (z, None), st2) /\
    snapshot n (heap st2) z = Some t.
Proof.
  intros Hk Hrt Hs Hn Henc.
  destruct (Transform_sim Encrypt Decrypt Encryption e fuel n h tr x key tagName tagVal
              _ Hk Hs Hn) as (new & o & Hrun & Hag).
  rewrite Henc in Hrun. injection Hrun as <- ->. cbn [leafOf] in Hag.
  destruct (snd (pTransform Encrypt e key tagName tagVal t))
    as [[t' [er|]]|msg] eqn:Hp; simpl in Hag; try done.
  pose proof (pTransform_roundtrip Encrypt Decrypt key tagName tagVal Hrt e _ _ Hp) as Hd.
  destruct (Transform_sim Encrypt Decrypt Decryption e fuel n (h ++ new)
              (tr ++ fst (pTransform Encrypt e key tagName tagVal t))
              y key tagName tagVal _ Hk Hag Hn) as (new2 & o2 & Hrun2 & Hag2).
  cbn [leafOf] in Hrun2, Hag2. rewrite Hd in Hag2.
  destruct o2 as [[z [e'|]]|msg]; simpl in Hag2; try done.
  eauto.
Qed.

Lemma decrypt_inverts_encrypt_witness :
  ("k" <> "" /\
   (forall s c, demoEncrypt s "k" = (c, None) -> demoDecrypt c "k" = (s, None)) /\
   snapshot 3 demoHeap (VPtr (Some 2)) = Some (TRef demoInner) /\
   3 < 4 /\
   Transform demoEncrypt demoDecrypt Encryption OfInterface 4 (VPtr (Some 2))
             "k" "encrypt" "true" (mkState demoHeap [])
   = Some (Val (VPtr (Some 6), None), demoItemState)) /\
  exists z st2,
    Transform demoEncrypt demoDecrypt Decryption OfInterface 4 (VPtr (Some 6))
              "k" "encrypt" "true" demoItemState
    = Some (Val (z, None), st2) /\
    snapshot 3 (heap st2) z = Some (TRef demoInner).
Proof.
  split.
  { split; [discriminate|]. split; [exact demo_cipher_round_trip|].
    split; [reflexivity|]. split; [lia|reflexivity]. }
  apply (decrypt_inverts_encrypt demoEncrypt demoDecrypt OfInterface 4 3 demoHeap []
           (VPtr (Some 2)) "k" "encrypt" "true" (TRef demoInner) (VPtr (Some 6))
           demoItemState);
    [discriminate|exact demo_cipher_round_trip|reflexivity|lia|reflexivity].
Defined.

(** X8: on a struct, a pointer to a struct or a slice, an [Interface]
    function is the struct or the slice function: the same result, error or
    panic, the same store, the same events, whatever the key. Its own
    [return input, err] changes nothing, those functions returning their
    input with every error. *)
Theorem interface_function_is_the_one_it_dispatches_to
        Encrypt Decrypt dir e fuel input key tagName tagVal st :
  dispatch (heap st) input = Some e ->
  Transform Encrypt Decrypt dir OfInterface fuel input key tagName tagVal st
  = Transform Encrypt Decrypt dir e fuel input key tagName tagVal st.
Proof.
  intros Hd.
  assert (He : e <> OfInterface).
  { intros ->. destruct input as [| | | |[a|]| |]; simpl in Hd; try done.
    destruct (heap st !! a) as [[]|]; done. }
  assert (Hgo : orInput input (Transform Encrypt Decrypt dir e fuel input key tagName tagVal) st
                = Transform Encrypt Decrypt dir e fuel input key tagName tagVal st).
  { apply orInput_id. intros out er st'. by apply Transform_error_input. }
  destruct (String.eqb key "") eqn:Ek.
  { apply String.eqb_eq in Ek. subst key. rewrite !Transform_empty_key. reflexivity. }
  assert (Hi : Transform Encrypt Decrypt dir OfInterface fuel input key tagName tagVal st
               = orInput input (Transform Encrypt Decrypt dir e fuel input key tagName tagVal) st).
  { destruct dir; cbn [Transform]; unfold InterfaceEncryptTag, InterfaceDecryptTag,
      interfaceBody; rewrite Ek.
    all: destruct input as [| | | |[a|]| |]; simpl in Hd; try done.
    all: try (destruct (heap st !! a) as [[]|] eqn:Ea; try done).
    all: simplify_eq; cbn [Kind reflect.eqb]; try reflexivity.
    all: unfold isPtrTo, andM, Elem, load, bind at 1; cbn [Kind reflect.eqb];
      unfold bind at 1; rewrite Ea; reflexivity. }
  by rewrite Hi, Hgo.
Qed.

Lemma interface_function_is_the_one_it_dispatches_to_witness :
  dispatch (heap (mkState demoHeap [])) (VPtr (Some 2)) = Some OfStruct /\
  Transform demoEncrypt demoDecrypt Encryption OfInterface 4 (VPtr (Some 2))
            "k" "encrypt" "true" (mkState demoHeap [])
  = Transform demoEncrypt demoDecrypt Encryption OfStruct 4 (VPtr (Some 2))
              "k" "encrypt" "true" (mkState demoHeap []).
Proof.
  split; [reflexivity|].
  apply (interface_function_is_the_one_it_dispatches_to demoEncrypt demoDecrypt Encryption
           OfStruct 4 (VPtr (Some 2)) "k" "encrypt" "true" (mkState demoHeap [])).
  reflexivity.
Defined.



(** ** [EncryptLog] and [EncryptInterface] *)

Lemma SetKeyEncrypt_calls_set keys key :
  SetKeyEncrypt_calls keys (Some key) = Some key.
Proof.
  unfold SetKeyEncrypt_calls. induction keys as [|k keys IH]; [done|]. simpl. apply IH.
Qed.


Lemma snapshot_string n h v s : snapshot n h v = Some (TString s) -> v = VString s.
Proof.
  destruct n as [|n]; [done|].
  destruct v as [| | | |[a|]|base len|tname fs]; simpl; try done.
  - intros H. by simplify_eq.
  - destruct (h !! a); simpl; [|done]. destruct (snapshot n h v); simpl; done.
  - destruct (mapM _ (seq 0 len)); simpl; done.
  - destruct (mapM _ fs); simpl; done.
Qed.

Lemma snapshot_nilptr n h v : snapshot n h v = Some TNilPtr -> v = VPtr None.
Proof.
  destruct n as [|n]; [done|].
  destruct v as [| | | |[a|]|base len|tname fs]; simpl; try done.
  - destruct (h !! a); simpl; [|done]. destruct (snapshot n h v); simpl; done.
  - destruct (mapM _ (seq 0 len)); simpl; done.
  - destruct (mapM _ fs); simpl; done.
Qed.

Lemma snapshot_ref n h v t :
  snapshot n h v = Some (TRef t) ->
  exists a x m, v = VPtr (Some a) /\ h !! a = Some x /\ n = S m /\ snapshot m h x = Some t.
Proof.
  destruct n as [|n]; [done|].
  destruct v as [| | | |[a|]|base len|tname fs]; simpl; try done.
  - destruct (h !! a) as [x|] eqn:Ea; simpl; [|done].
    destruct (snapshot n h x) as [t0|] eqn:Ex; simpl; [|done].
    intros H. simplify_eq. eauto 10.
  - destruct (mapM _ (seq 0 len)); simpl; done.
  - destruct (mapM _ fs); simpl; done.
Qed.

(** X10: as long as no key is set, and for good if the first key set is the
    empty one, whatever keys [SetKeyEncrypt] is given later: [EncryptLog] and
    [EncryptInterface] return their argument and no error, the request and
    the response are left without a body to log, and nothing is copied or
    handed to the cipher. *)
Theorem without_a_key_nothing_is_done
        Encrypt TagNameEncrypt TagValEncrypt Marshal
        (ctxKey : Type) (KeyRequestBody KeyResponseBody : ctxKey)
        fuel keyEncrypt ty dataIsInterface data ctx st :
  keyEncrypt = None \/ (exists keys, keyEncrypt = SetKeyEncrypt_calls ("" :: keys) None) ->
  EncryptLog Encrypt TagNameEncrypt TagValEncrypt fuel keyEncrypt ty data st
  = Some (Val (data, None), st) /\
  EncryptInterface Encrypt TagNameEncrypt TagValEncrypt fuel keyEncrypt ty data st
  = Some (Val (data, None), st) /\
  SetEchoReqEncrLog Encrypt TagNameEncrypt TagValEncrypt Marshal ctxKey KeyRequestBody
                    fuel keyEncrypt ty data ctx st
  = Some (Val ctx, st) /\
  SetEchoRespEncrLog Encrypt TagNameEncrypt TagValEncrypt Marshal ctxKey KeyResponseBody
                     fuel keyEncrypt dataIsInterface ty data ctx st
  = Some (Val ctx, st).
Proof.
  intros [-> | [keys ->]]; [done|].
  change (SetKeyEncrypt_calls ("" :: keys) None) with (SetKeyEncrypt_calls keys (Some "")).
  rewrite SetKeyEncrypt_calls_set. done.
Qed.

Lemma without_a_key_nothing_is_done_witness :
  (SetKeyEncrypt_calls ["" ; "k"] None = None \/
   exists keys, SetKeyEncrypt_calls ["" ; "k"] None = SetKeyEncrypt_calls ("" :: keys) None) /\
  EncryptLog demoEncrypt "encrypt" "true" 5 (SetKeyEncrypt_calls ["" ; "k"] None)
             DynOther demoUser demoState
  = Some (Val (demoUser, None), demoState) /\
  EncryptInterface demoEncrypt "encrypt" "true" 5 (SetKeyEncrypt_calls ["" ; "k"] None)
                   DynOther demoUser demoState
  = Some (Val (demoUser, None), demoState) /\
  SetEchoReqEncrLog demoEncrypt "encrypt" "true" demoMarshal string "req"
                    5 (SetKeyEncrypt_calls ["" ; "k"] None) DynOther demoUser [] demoState
  = Some (Val [], demoState) /\
  SetEchoRespEncrLog demoEncrypt "encrypt" "true" demoMarshal string "resp"
                     5 (SetKeyEncrypt_calls ["" ; "k"] None) false DynOther demoUser []
                     demoState
  = Some (Val [], demoState).
Proof.
  split; [right; by exists ["k"]|].
  apply (without_a_key_nothing_is_done demoEncrypt "encrypt" "true" demoMarshal
           string "req" "resp" 5 (SetKeyEncrypt_calls ["" ; "k"] None) DynOther false
           demoUser [] demoState).
  right. by exists ["k"].
Defined.

(** X11: with a key set, [EncryptLog] keeps the contract of the traversal
    for every kind of argument, the string and the pointer to a string it
    hands to the cipher itself included: it returns (or panics, on a nil
    [*string]); if the cipher failed on one of the strings handed to it, what
    is returned is the argument itself with that error; and the store is
    only extended, so every value of the store is as it was. *)
Theorem EncryptLog_returns_its_argument_on_failure
        Encrypt TagNameEncrypt TagValEncrypt fuel n h tr key ty data t :
  key <> "" -> snapshot n h data = Some t -> n < fuel -> hasDynType ty t = true ->
  exists o new evs,
    EncryptLog Encrypt TagNameEncrypt TagValEncrypt fuel (Some key) ty data (mkState h tr)
    = Some (o, mkState (h ++ new) (tr ++ evs)) /\
    (forall s err,
        In (EvCipher s key) evs -> snd (Encrypt s key) = Some err ->
        o = Val (data, Some err)) /\
    (forall m x tx, snapshot m h x = Some tx -> snapshot m (h ++ new) x = Some tx).
Proof.
  intros Hk Hs Hn Hty. unfold EncryptLog. rewrite (eqb_key _ Hk).
  assert (Hother :
            exists o new evs,
              InterfaceEncryptTag Encrypt fuel data key TagNameEncrypt TagValEncrypt
                                  (mkState h tr)
              = Some (o, mkState (h ++ new) (tr ++ evs)) /\
              (forall s err,
                  In (EvCipher s key) evs -> snd (Encrypt s key) = Some err ->
                  o = Val (data, Some err)) /\
              (forall m x tx, snapshot m h x = Some tx -> snapshot m (h ++ new) x = Some tx)).
  { destruct (Transform_sim Encrypt Encrypt Encryption OfInterface fuel n h tr data key
                TagNameEncrypt TagValEncrypt t Hk Hs Hn) as (new & o & Hrun & Hag).
    eexists o, new, _. split; [exact Hrun|]. split; [|intros m x tx; apply snapshot_app].
    intros s err Hin Hfail.
    destruct (pTransform_reported _ _ _ _ OfInterface t s err Hin Hfail) as [t' Hp].
    rewrite Hp in Hag.
    destruct o as [[out [e'|]]|msg]; simpl in Hag; try done.
    by destruct Hag as [-> ->]. }
  destruct ty; try exact Hother.
  - (* a string *)
    destruct t; try discriminate. apply snapshot_string in Hs. subst data.
    unfold bind, log. cbn [heap calls].
    destruct (Encrypt s key) as [res [e|]] eqn:Ee.
    + exists (Val (VString s, Some e)), [], [EvCipher s key]. rewrite app_nil_r.
      split; [done|]. split; [|by intros m x tx].
      intros s' err [Hin|[]] Hfail. injection Hin as <-. rewrite Ee in Hfail.
        simpl in Hfail. by simplify_eq.
    + exists (Val (VString res, None)), [], [EvCipher s key]. rewrite app_nil_r.
      split; [done|]. split; [|by intros m x tx].
      intros s' err [Hin|[]] Hfail. injection Hin as <-. rewrite Ee in Hfail.
        simpl in Hfail. by simplify_eq.
  - (* a pointer to a string *)
    destruct t as [| | | | |[]| |]; try discriminate.
    + apply snapshot_nilptr in Hs. subst data.
      exists (Panicked msgNilDeref), [], []. rewrite !app_nil_r.
      split; [done|]. split; [by intros s err []|done].
    + apply snapshot_ref in Hs as (a & x & m & -> & Ha & -> & Hx).
      apply snapshot_string in Hx. subst x.
      unfold derefString, bind, load, log, alloc, alloc_array, ret. cbn [heap calls].
      rewrite Ha. cbn [heap calls].
      destruct (Encrypt s key) as [res [e|]] eqn:Ee.
      * exists (Val (VPtr (Some a), Some e)), [], [EvCipher s key]. rewrite app_nil_r.
        split; [done|]. split; [|by intros m' x tx].
        intros s' err [Hin|[]] Hfail. injection Hin as <-. rewrite Ee in Hfail.
        simpl in Hfail. by simplify_eq.
      * exists (Val (VPtr (Some (length h)), None)), [VString res], [EvCipher s key].
        split; [done|]. split; [|intros m' x tx; apply snapshot_app].
        intros s' err [Hin|[]] Hfail. injection Hin as <-. rewrite Ee in Hfail.
        simpl in Hfail. by simplify_eq.
Qed.

Lemma EncryptLog_returns_its_argument_on_failure_witness :
  ("k" <> "" /\ snapshot 2 demoHeap (VPtr (Some 0)) = Some (TRef (TString "secret")) /\
   2 < 3 /\ hasDynType DynStringPtr (TRef (TString "secret")) = true) /\
  exists o new evs,
    EncryptLog demoEncrypt "encrypt" "true" 3 (Some "k") DynStringPtr (VPtr (Some 0))
               (mkState demoHeap [])
    = Some (o, mkState (demoHeap ++ new) ([] ++ evs)) /\
    (forall s err,
        In (EvCipher s "k") evs -> snd (demoEncrypt s "k") = Some err ->
        o = Val (VPtr (Some 0), Some err)) /\
    (forall m x tx, snapshot m demoHeap x = Some tx -> snapshot m (demoHeap ++ new) x = Some tx).
Proof.
  split; [split; [discriminate|split; [reflexivity|split; [lia|reflexivity]]]|].
  apply (EncryptLog_returns_its_argument_on_failure demoEncrypt "encrypt" "true" 3 2 demoHeap []
           "k" DynStringPtr (VPtr (Some 0)) (TRef (TString "secret")));
    [discriminate|reflexivity|lia|reflexivity].
Defined.



(** X13: with a key set, on a string and on a non-nil pointer to a string
    [EncryptInterface] and [EncryptLog] make the same one call of the
    cipher, and differ in what they return. [EncryptInterface] returns the
    text and the error of the cipher as they are: a string, not a pointer,
    for a pointer to a string, and on failure the text of the cipher, not
    its argument. [EncryptLog] returns its argument with the error on
    failure, and on success the ciphertext, for a pointer in a new cell it
    returns the pointer to. On a nil pointer to a string both panic. *)
Theorem EncryptInterface_and_EncryptLog_on_strings
        Encrypt TagNameEncrypt TagValEncrypt fuel key h tr ty data s :
  key <> "" -> stringOf h ty data = Some s ->
  EncryptInterface Encrypt TagNameEncrypt TagValEncrypt fuel (Some key) ty data (mkState h tr)
  = Some (Val (VString (fst (Encrypt s key)), snd (Encrypt s key)),
          mkState h (tr ++ [EvCipher s key])) /\
  EncryptLog Encrypt TagNameEncrypt TagValEncrypt fuel (Some key) ty data (mkState h tr)
  = match snd (Encrypt s key), ty with
    | Some e, _ => Some (Val (data, Some e), mkState h (tr ++ [EvCipher s key]))
    | None, DynStringPtr =>
        Some (Val (VPtr (Some (length h)), None),
              mkState (h ++ [VString (fst (Encrypt s key))]) (tr ++ [EvCipher s key]))
    | None, _ =>
        Some (Val (VString (fst (Encrypt s key)), None), mkState h (tr ++ [EvCipher s key]))
    end /\
  EncryptInterface Encrypt TagNameEncrypt TagValEncrypt fuel (Some key) DynStringPtr
                   (VPtr None) (mkState h tr)
  = Some (Panicked msgNilDeref, mkState h tr) /\
  EncryptLog Encrypt TagNameEncrypt TagValEncrypt fuel (Some key) DynStringPtr
             (VPtr None) (mkState h tr)
  = Some (Panicked msgNilDeref, mkState h tr).
Proof.
  intros Hk Hs. unfold EncryptInterface, EncryptLog. rewrite (eqb_key _ Hk).
  split; [|split; [|done]].
  - destruct ty, data as [| | |s0|[a|]| |]; simpl in Hs; try done.
    + simplify_eq. unfold bind, log. cbn [heap calls]. by destruct (Encrypt s key).
    + destruct (h !! a) as [[]|] eqn:Ea; try done. simplify_eq.
      unfold derefString, bind, load, log, ret. cbn [heap calls]. rewrite Ea.
      cbn [heap calls]. by destruct (Encrypt s key).
  - destruct ty, data as [| | |s0|[a|]| |]; simpl in Hs; try done.
    + simplify_eq. unfold bind, log. cbn [heap calls]. by destruct (Encrypt s key) as [? []].
    + destruct (h !! a) as [[]|] eqn:Ea; try done. simplify_eq.
      unfold derefString, bind, load, log, alloc, alloc_array, ret. cbn [heap calls].
      rewrite Ea. cbn [heap calls].
      by destruct (Encrypt s key) as [? []].
Qed.

Lemma EncryptInterface_and_EncryptLog_on_strings_witness :
  ("k" <> "" /\ stringOf demoHeap DynStringPtr (VPtr (Some 0)) = Some "secret") /\
  EncryptInterface demoEncrypt "encrypt" "true" 3 (Some "k") DynStringPtr (VPtr (Some 0))
                   (mkState demoHeap [])
  = Some (Val (VString (fst (demoEncrypt "secret" "k")), snd (demoEncrypt "secret" "k")),
          mkState demoHeap ([] ++ [EvCipher "secret" "k"])) /\
  EncryptLog demoEncrypt "encrypt" "true" 3 (Some "k") DynStringPtr (VPtr (Some 0))
             (mkState demoHeap [])
  = match snd (demoEncrypt "secret" "k"), DynStringPtr with
    | Some e, _ =>
        Some (Val (VPtr (Some 0), Some e), mkState demoHeap ([] ++ [EvCipher "secret" "k"]))
    | None, DynStringPtr =>
        Some (Val (VPtr (Some (length demoHeap)), None),
              mkState (demoHeap ++ [VString (fst (demoEncrypt "secret" "k"))])
                      ([] ++ [EvCipher "secret" "k"]))
    | None, _ =>
        Some (Val (VString (fst (demoEncrypt "secret" "k")), None),
              mkState demoHeap ([] ++ [EvCipher "secret" "k"]))
    end /\
  EncryptInterface demoEncrypt "encrypt" "true" 3 (Some "k") DynStringPtr
                   (VPtr None) (mkState demoHeap [])
  = Some (Panicked msgNilDeref, mkState demoHeap []) /\
  EncryptLog demoEncrypt "encrypt" "true" 3 (Some "k") DynStringPtr
             (VPtr None) (mkState demoHeap [])
  = Some (Panicked msgNilDeref, mkState demoHeap []).
Proof.
  split; [split; [discriminate|reflexivity]|].
  apply (EncryptInterface_and_EncryptLog_on_strings demoEncrypt "encrypt" "true" 3 "k"
           demoHeap [] DynStringPtr (VPtr (Some 0)) "secret"); [discriminate|reflexivity].
Defined.

(** ** The bodies the echo handlers log *)






(** X16: with a key set, a response that is a struct or a pointer to one
    whose field [Data], declared of a pointer type, holds a nil pointer
    makes [SetEchoRespEncrLog] panic, on [Interface] called on the zero
    [Value] that [Elem] gives for the nil pointer; nothing is encrypted or
    logged. *)
Theorem nil_data_pointer_panics
        Encrypt TagNameEncrypt TagValEncrypt Marshal
        (ctxKey : Type) (KeyResponseBody : ctxKey)
        fuel h tr key ty resp ctx fields sf :
  key <> "" ->
  respFields h resp = Some fields ->
  FieldByName fields "Data" = Some (sf, VPtr None) ->
  SetEchoRespEncrLog Encrypt TagNameEncrypt TagValEncrypt Marshal ctxKey KeyResponseBody
                     fuel (Some key) false ty resp ctx (mkState h tr)
  = Some (Panicked msgInterfaceOnZero, mkState h tr).
Proof.
  intros Hk Hresp Hfield. unfold SetEchoRespEncrLog. rewrite (eqb_key _ Hk).
  destruct resp as [| | | |[a|]| |tname fs]; simpl in Hresp; try done.
  - destruct (h !! a) as [[]|] eqn:Ea; try done. simplify_eq.
    cbn [Kind reflect.eqb].
    erewrite bind_val; [|unfold Elem, load; cbn [heap]; by rewrite Ea].
    cbv beta iota. rewrite Hfield. erewrite bind_val; [|reflexivity]. reflexivity.
  - simplify_eq. cbn [Kind reflect.eqb]. erewrite bind_val; [|reflexivity].
    cbv beta iota. rewrite Hfield. erewrite bind_val; [|reflexivity]. reflexivity.
Qed.

Lemma nil_data_pointer_panics_witness :
  ("k" <> "" /\
   respFields demoHeap demoNilResp
   = Some [(demoField "Code" false, VInt 200); (demoField "Data" false, VPtr None)] /\
   FieldByName [(demoField "Code" false, VInt 200); (demoField "Data" false, VPtr None)] "Data"
   = Some (demoField "Data" false, VPtr None)) /\
  SetEchoRespEncrLog demoEncrypt "encrypt" "true" demoMarshal string "resp"
                     3 (Some "k") false DynOther demoNilResp [] (mkState demoHeap [])
  = Some (Panicked msgInterfaceOnZero, mkState demoHeap []).
Proof.
  split; [split; [discriminate|split; reflexivity]|].
  apply (nil_data_pointer_panics demoEncrypt "encrypt" "true" demoMarshal string "resp"
           3 demoHeap [] "k" DynOther demoNilResp []
           [(demoField "Code" false, VInt 200); (demoField "Data" false, VPtr None)]
           (demoField "Data" false)); [discriminate|reflexivity|reflexivity].
Defined.


(** ** Values with nothing tagged *)

Lemma flat_map_nil {A B} (f : A -> list B) (l : list A) :
  flat_map f l = [] -> Forall (fun x => f x = []) l.
Proof.
  induction l as [|x l IH]; simpl; [constructor|].
  intros H. apply app_eq_nil in H as [H1 H2]. constructor; [done|by apply IH].
Qed.

Lemma replaceField_same f tagName tagVal tagged x :
  fieldStrings tagName tagVal tagged x = [] -> replaceField f tagName tagVal tagged x = x.
Proof.
  remember (tsize x) as n eqn:Hn. revert x tagged Hn.
  induction n as [n IH] using lt_wf_ind. intros x tagged Hn.
  assert (Hfs : forall (tname : string) fs,
             tsize (TRec tname fs) <= n ->
             flat_map (fun g : StructField * tree =>
                         fieldStrings tagName tagVal (hasTag tagName tagVal (fst g)) (snd g)) fs
             = [] ->
             map (fun g : StructField * tree =>
                    (fst g, replaceField f tagName tagVal (hasTag tagName tagVal (fst g)) (snd g)))
                 fs = fs).
  { intros tname fs Hle Hnil. apply flat_map_nil in Hnil.
    rewrite <- (map_id fs) at 2. apply map_ext_in. intros [sf y] Hin.
    rewrite Forall_forall in Hnil.
    pose proof (Hnil _ (proj2 (list_elem_of_In _ _) Hin)) as Hy. cbn [fst snd] in *.
    apply tsize_field in Hin. simpl in Hle.
    f_equal. eapply IH; [|reflexivity|exact Hy]. lia. }
  destruct x as [| | |s| |y| |tname fs]; try done.
  - simpl. by destruct tagged.
  - destruct y as [| | |s| | | |tname fs]; try done.
    + simpl. by destruct tagged.
    + cbn [fieldStrings replaceField tIsTime tIsTimePtr].
      destruct (String.eqb tname timeTime); [done|].
      intros H. rewrite (Hfs tname fs); [done| |done]. simpl in *. lia.
  - cbn [fieldStrings replaceField tIsTime tIsTimePtr].
    destruct (String.eqb tname timeTime); [done|].
    intros H. rewrite (Hfs tname fs); [done| |done]. simpl in *. lia.
Qed.

Lemma replaceFields_same f tagName tagVal fs :
  fieldsStrings tagName tagVal fs = [] -> replaceFields f tagName tagVal fs = fs.
Proof.
  intros Hnil. apply flat_map_nil in Hnil. unfold replaceFields.
  rewrite <- (map_id fs) at 2. apply map_ext_in. intros [sf y] Hin.
  rewrite Forall_forall in Hnil.
  pose proof (Hnil _ (proj2 (list_elem_of_In _ _) Hin)) as Hy. cbn [fst snd] in *.
  f_equal. by apply replaceField_same.
Qed.

Lemma replaceTagged_same f tagName tagVal t :
  taggedStrings tagName tagVal t = [] -> replaceTagged f tagName tagVal t = t.
Proof.
  destruct t as [| | | | |[]| |]; try done; simpl; intros H;
    by rewrite replaceFields_same.
Qed.

Lemma entryReplace_same e f tagName tagVal t :
  entryStrings e tagName tagVal t = [] -> entryReplace e f tagName tagVal t = t.
Proof.
  assert (Hitems : itemsStrings tagName tagVal t = [] -> replaceItems f tagName tagVal t = t).
  { destruct t as [| | | | | |ts|]; try done. simpl. intros H. apply flat_map_nil in H.
    f_equal. rewrite <- (map_id ts) at 2. apply map_ext_in. intros x Hin.
    rewrite Forall_forall in H. apply replaceTagged_same, H. by apply list_elem_of_In. }
  destruct e; simpl; [apply replaceTagged_same|exact Hitems|].
  destruct (tIsStructItem t); [apply replaceTagged_same|exact Hitems].
Qed.

(** X17: for a non-empty key, when no field the traversal gets to carries
    the tag on a string or a pointer to a string, no entry point calls the
    cipher, and a value returned with no error has the snapshot of the
    input: it is an equal copy. *)
Theorem nothing_tagged_nothing_changed
        Encrypt Decrypt dir e fuel n h tr input key tagName tagVal t :
  key <> "" -> snapshot n h input = Some t -> n < fuel ->
  entryStrings e tagName tagVal t = [] ->
  exists o new evs,
    Transform Encrypt Decrypt dir e fuel input key tagName tagVal (mkState h tr)
    = Some (o, mkState (h ++ new) (tr ++ evs)) /\
    cipherCalls evs = [] /\
    forall out, o = Val (out, None) -> snapshot n (h ++ new) out = Some t.
Proof.
  intros Hk Hs Hn Hnil.
  destruct (Transform_sim Encrypt Decrypt dir e fuel n h tr input key tagName tagVal t
              Hk Hs Hn) as (new & o & Hrun & Hag).
  destruct (pTransform_spec (leafOf Encrypt Decrypt dir) key tagName tagVal e t)
    as [Hiff (rest & Hev & _)].
  eexists o, new, _. split; [exact Hrun|]. split.
  - rewrite Hnil in Hev. simpl in Hev. symmetry in Hev. by apply app_eq_nil in Hev as [? _].
  - intros out ->.
    destruct (snd (pTransform (leafOf Encrypt Decrypt dir) e key tagName tagVal t))
      as [[t' [er|]]|msg]; simpl in Hag; try done.
    destruct (proj1 (Hiff t') eq_refl) as (_ & _ & ->).
    by rewrite entryReplace_same in Hag.
Qed.

Lemma nothing_tagged_nothing_changed_witness :
  ("k" <> "" /\ snapshot 4 demoHeap demoUser = Some demoUserTree /\ 4 < 5 /\
   entryStrings OfStruct "secret" "true" demoUserTree = []) /\
  exists o new evs,
    Transform demoEncrypt demoDecrypt Encryption OfStruct 5 demoUser "k" "secret" "true"
              (mkState demoHeap [])
    = Some (o, mkState (demoHeap ++ new) ([] ++ evs)) /\
    cipherCalls evs = [] /\
    forall out, o = Val (out, None) -> snapshot 4 (demoHeap ++ new) out = Some demoUserTree.
Proof.
  split; [split; [discriminate|split; [reflexivity|split; [lia|reflexivity]]]|].
  apply (nothing_tagged_nothing_changed demoEncrypt demoDecrypt Encryption OfStruct 5 4
           demoHeap [] demoUser "k" "secret" "true" demoUserTree);
    [discriminate|reflexivity|lia|reflexivity].
Defined.

(** ** The calls of [Copy] *)


Section Copies.
Variable leaf : cipher.
Variables key tagName tagVal : string.

Local Abbreviation pS := (pStruct leaf key tagName tagVal).
Local Abbreviation cspec := (copies_spec leaf key tagName tagVal).



End Copies.



(** ** [GetCaller], [GetFullStack] and [InitLog] *)

(** ** [Split] *)

Lemma Split_cons s sep : exists part parts, Split s sep = part :: parts.
Proof.
  induction s as [|a s (part & parts & IH)]; simpl; [eauto|].
  destruct (Ascii.eqb a sep); [eauto|]. rewrite IH. eauto.
Qed.

Lemma Split_snoc s sep : exists parts part, Split s sep = parts ++ [part].
Proof.
  destruct (Split_cons s sep) as (p & ps & E).
  destruct (exists_last (l := Split s sep)) as (parts & part & E'); [by rewrite E|].
  eauto.
Qed.

Lemma length_Split s sep : length (Split s sep) = S (countByte sep s).
Proof.
  induction s as [|a s IH]; simpl; [done|].
  destruct (Ascii.eqb a sep); simpl; [by rewrite IH|].
  destruct (Split_cons s sep) as (part & parts & E). rewrite E in *. done.
Qed.

Lemma Join_Split s sep : Join (Split s sep) sep = s.
Proof.
  induction s as [|a s IH]; [done|]. cbn [Split].
  destruct (Split_cons s sep) as (part & parts & E). rewrite E in IH |- *.
  destruct (Ascii.eqb_spec a sep) as [->|Hne].
  - change (Join ("" :: part :: parts) sep) with (String sep (Join (part :: parts) sep)).
    by rewrite IH.
  - destruct parts as [|q parts].
    + simpl in *. by rewrite IH.
    + change (Join (String a part :: q :: parts) sep)
        with (String a (part ++ String sep (Join (q :: parts) sep)))%string.
      change (Join (part :: q :: parts) sep)
        with (part ++ String sep (Join (q :: parts) sep))%string in IH.
      by rewrite IH.
Qed.

Lemma Split_parts s sep : Forall (fun part => countByte sep part = 0) (Split s sep).
Proof.
  induction s as [|a s IH]; simpl; [by repeat constructor|].
  destruct (Ascii.eqb a sep) eqn:Ea; [by constructor|].
  destruct (Split_cons s sep) as (part & parts & E). rewrite E in *.
  inversion IH; subst. constructor; [|done]. simpl. by rewrite Ea.
Qed.

Lemma string_app_assoc (s1 s2 s3 : string) :
  ((s1 ++ s2) ++ s3 = s1 ++ (s2 ++ s3))%string.
Proof. induction s1 as [|a s1 IH]; simpl; [done|by rewrite IH]. Qed.

Lemma Join_snoc parts part sep :
  Join (parts ++ [part]) sep
  = match parts with
    | [] => part
    | _ => (Join parts sep ++ String sep part)%string
    end.
Proof.
  induction parts as [|p parts IH]; [done|].
  destruct parts as [|q parts]; [done|].
  change (Join ((p :: q :: parts) ++ [part]) sep)
    with (p ++ String sep (Join ((q :: parts) ++ [part]) sep))%string.
  rewrite IH.
  change (Join (p :: q :: parts) sep) with (p ++ String sep (Join (q :: parts) sep))%string.
  by rewrite string_app_assoc.
Qed.

Lemma Join_app_cons before part after sep :
  Join (before ++ part :: after) sep
  = match before with
    | [] => Join (part :: after) sep
    | _ => (Join before sep ++ String sep (Join (part :: after) sep))%string
    end.
Proof.
  induction before as [|p before IH]; [done|].
  destruct before as [|q before]; [done|].
  change (Join ((p :: q :: before) ++ part :: after) sep)
    with (p ++ String sep (Join ((q :: before) ++ part :: after) sep))%string.
  rewrite IH.
  change (Join (p :: q :: before) sep) with (p ++ String sep (Join (q :: before) sep))%string.
  by rewrite string_app_assoc.
Qed.

(** X18: [GetCaller] never indexes out of range, [strings.Split] giving at
    least one part. When [runtime.Caller] succeeds, what it returns is the
    file, a colon, the line in decimal, a space and the name of the
    function cut after its last dot: a name with no dot in it that is the
    whole name, or what follows a dot at the end of it. *)
Theorem GetCaller_names_the_function fullFnName file line :
  exists fnName,
    GetCaller (Some (fullFnName, file, line))
    = Val (file ++ ":" ++ formatInt line ++ " " ++ fnName)%string /\
    countByte "."%char fnName = 0 /\
    (fullFnName = fnName \/ exists pkg, fullFnName = (pkg ++ "." ++ fnName)%string).
Proof.
  unfold GetCaller.
  pose proof (length_Split fullFnName "."%char) as Hlen.
  pose proof (Join_Split fullFnName "."%char) as Hjoin.
  pose proof (Split_parts fullFnName "."%char) as Hparts.
  destruct (Split_snoc fullFnName "."%char) as (pre & fn & E). rewrite E in *.
  rewrite length_app in *. simpl in *.
  replace (length pre + 1 - 1) with (length pre) by lia.
  rewrite list_lookup_middle by done.
  exists fn. split; [done|].
  apply Forall_app in Hparts as [_ Hfn]. inversion Hfn as [|? ? Hc _]. split; [done|].
  rewrite Join_snoc in Hjoin. destruct pre as [|q pre]; [by left|].
  right. eexists. symmetry. exact Hjoin.
Qed.

(** X19: [GetFullStack] never indexes out of range. It gives up, with
    "stacktrace unavailable", exactly when the dump has less than seven
    lines (at most five line feeds); otherwise what it returns is made of
    the seventh line, as the file, and of the sixth, as the function, each
    trimmed. *)
Theorem GetFullStack_needs_seven_lines TrimSpace stack :
  (GetFullStack TrimSpace stack = Val "stacktrace unavailable"
   <-> countByte "010"%char stack <= 5) /\
  (5 < countByte "010"%char stack ->
   exists before l5 l6 after,
     length before = 5 /\
     countByte "010"%char l5 = 0 /\ countByte "010"%char l6 = 0 /\
     stack = Join (before ++ l5 :: l6 :: after) "010"%char /\
     GetFullStack TrimSpace stack
     = Val ("file: " ++ TrimSpace l6 ++ ", func: " ++ TrimSpace l5)%string).
Proof.
  unfold GetFullStack.
  pose proof (length_Split stack "010"%char) as Hlen.
  pose proof (Join_Split stack "010"%char) as Hjoin.
  pose proof (Split_parts stack "010"%char) as Hparts.
  destruct (6 <? length (Split stack "010"%char))%nat eqn:E6.
  - apply Nat.ltb_lt in E6.
    destruct (lookup_lt_is_Some_2 (Split stack "010"%char) 6) as [l6 H6]; [lia|].
    destruct (lookup_lt_is_Some_2 (Split stack "010"%char) 5) as [l5 H5]; [lia|].
    rewrite H6, H5. split; [split; [discriminate|lia]|]. intros _.
    pose proof (take_drop_middle _ _ _ H5) as Hsplit.
    assert (Hnext : drop 6 (Split stack "010"%char) = l6 :: drop 7 (Split stack "010"%char)).
    { by rewrite (drop_S _ _ _ H6). }
    rewrite Hnext in Hsplit.
    exists (take 5 (Split stack "010"%char)), l5, l6, (drop 7 (Split stack "010"%char)).
    split; [rewrite length_take; lia|].
    rewrite Forall_forall in Hparts.
    split; [by apply Hparts, list_elem_of_lookup_2 with 5|].
    split; [by apply Hparts, list_elem_of_lookup_2 with 6|].
    split; [by rewrite Hsplit|done].
  - apply Nat.ltb_ge in E6. split; [split; [lia|done]|lia].
Qed.

(** X20: in any sequence of calls of [InitLog] from the start of the
    process, the first call decides: with the empty name the process exits
    with status 1, otherwise its name makes the logger that [GetLogger]
    returns from then on; a later call changes nothing and does not exit,
    not even with the empty name. *)
Theorem InitLog_first_call_decides (Logger : Type) (newLogger : string -> Logger) name names :
  InitLog_calls Logger newLogger (name :: names) None
  = (if String.eqb name "" then Exited 1 "services name is empty"
     else Running (GetLogger Logger (Some (newLogger name)))) /\
  forall inst, InitLog_calls Logger newLogger names (Some inst) = Running (Some inst).
Proof.
  assert (H : forall ns inst, InitLog_calls Logger newLogger ns (Some inst) = Running (Some inst)).
  { induction ns as [|n ns IH]; intros inst; [done|]. simpl. apply IH. }
  split; [|apply H]. simpl. destruct (String.eqb name ""); [done|apply H].
Qed.
